(** * Social-Eagle-AI: the snake engine and the expense-settlement optimizer

    A shallow embedding of two pieces of the "15 Day Python Challenge":

    - [Snake]: the [SnakeGame] class of [Python Challenge 15/snake.py]
      together with the handlers of [main] that drive it (pause, resume,
      the timed move, the direction buttons), [render_game_board], the
      game-over screen and [show_achievements];
    - [Splitter]: [optimize_payments] and [calculate_advanced_split] of
      [Python Challenge Day 2/expense_splitter.py], with the list of
      people and the Analytics page of its script.

    Python integers are unbounded and are modelled by [Z].  The clock
    readings of the snake are taken for the rationals [Q] they stand for.
    The money of the splitter is modelled twice: by rationals, for what
    rests on comparisons and on the order of the loops, and by binary64
    floats ([Splitter.Binary64], on the primitive floats), for what rests
    on the results of the arithmetic; the two are related where no
    operation rounds.  The pseudo random generator is an arbitrary sequence
    of raw draws [nat -> Z] read through a cursor, and [random.randint a b]
    maps a draw into [a..b]. *)

From Stdlib Require Import Bool String Ascii DecimalString ZArith QArith Qabs Qpower.
From Stdlib Require Import Lqa Lia.
From Stdlib Require Import Permutation Sorted List Floats.
From Equations Require Import Equations.
Import ListNotations.

Open Scope Z_scope.

(* ===================================================================== *)
(** * The snake engine *)
(* ===================================================================== *)

Module Snake.

(** ** Data model *)

(** [class Direction(Enum)]: each member carries its unit vector. *)
Inductive Direction : Set := UP | DOWN | LEFT | RIGHT.

Definition value (d : Direction) : Z * Z :=
  match d with
  | UP => (0, -1)
  | DOWN => (0, 1)
  | LEFT => (-1, 0)
  | RIGHT => (1, 0)
  end.

Definition Direction_eqb (a b : Direction) : bool :=
  match a, b with
  | UP, UP | DOWN, DOWN | LEFT, LEFT | RIGHT, RIGHT => true
  | _, _ => false
  end.

(** [class GameState(Enum)]. *)
Inductive GameState : Set := MENU | PLAYING | GAME_OVER | PAUSED.

Definition GameState_eqb (a b : GameState) : bool :=
  match a, b with
  | MENU, MENU | PLAYING, PLAYING | GAME_OVER, GAME_OVER | PAUSED, PAUSED => true
  | _, _ => false
  end.

(** [@dataclass Position]. *)
Record Position : Set := mkPosition { x : Z; y : Z }.

(** [Position.__add__]: a position plus a direction. *)
Definition pos_add (p : Position) (d : Direction) : Position :=
  mkPosition (x p + fst (value d)) (y p + snd (value d)).

(** [Position.__eq__]. *)
Definition pos_eq (a b : Position) : bool :=
  (x a =? x b) && (y a =? y b).

(** [pos in positions]: Python's list membership, through [__eq__]. *)
Definition pos_in (p : Position) (l : list Position) : bool :=
  existsb (fun q => pos_eq p q) l.

(** [@dataclass GameConfig]. *)
Record GameConfig : Type := mkGameConfig {
  board_width : Z;
  board_height : Z;
  initial_length : Z;
  speeds : list (string * Z)
}.

(** [GameConfig()]: the defaults. *)
Definition default_config : GameConfig :=
  mkGameConfig 20 15 3
    [("Easy"%string, 1000); ("Medium"%string, 600);
     ("Hard"%string, 300); ("Expert"%string, 150)].

(** [@dataclass GameStats]. *)
Record GameStats : Type := mkGameStats {
  stats_score : Z;
  stats_food_eaten : Z;
  time_played : Q;
  stats_moves_made : Z;
  high_score : Z;
  games_played : Z
}.

(** The attributes of a [SnakeGame] instance. *)
Record SnakeGame : Type := mkSnakeGame {
  config : GameConfig;
  snake : list Position;
  direction : Direction;
  food : Position;
  score : Z;
  food_eaten : Z;
  start_time : Q;
  moves_made : Z;
  game_state : GameState
}.

Definition set_game_state (g : SnakeGame) (st : GameState) : SnakeGame :=
  mkSnakeGame (config g) (snake g) (direction g) (food g) (score g)
    (food_eaten g) (start_time g) (moves_made g) st.

Definition set_direction (g : SnakeGame) (d : Direction) : SnakeGame :=
  mkSnakeGame (config g) (snake g) d (food g) (score g)
    (food_eaten g) (start_time g) (moves_made g) (game_state g).

(** ** Effects: exceptions, divergence and the random generator *)

Inductive exn : Set := ValueError | IndexError.

(** What running a piece of code gives: a value, a raised exception, or
    no answer within the allotted number of loop iterations. *)
Inductive outcome (A : Type) : Type :=
| Done (a : A)
| Raised (e : exn)
| Diverged.
Arguments Done {A} a.
Arguments Raised {A} e.
Arguments Diverged {A}.

(** A computation reads random draws from a cursor and moves it on. *)
Definition M (A : Type) : Type := nat -> outcome (A * nat).

Definition ret {A} (a : A) : M A := fun k => Done (a, k).

Definition bind {A B} (m : M A) (f : A -> M B) : M B :=
  fun k =>
    match m k with
    | Done (a, k') => f a k'
    | Raised e => Raised e
    | Diverged => Diverged
    end.

Definition raise {A} (e : exn) : M A := fun _ => Raised e.
Definition diverge {A} : M A := fun _ => Diverged.

Notation "'do' v <- m ;; k" := (bind m (fun v => k))
  (at level 10, v name, m at level 100, k at level 200).

Section Engine.

(** The raw draws of the pseudo random generator. *)
Variable draws : nat -> Z.

(** [random.randint(a, b)]: an integer of [a..b]; [ValueError] on an empty
    range. *)
Definition randint (a b : Z) : M Z :=
  fun k =>
    if b <? a then Raised ValueError
    else Done (a + draws k mod (b - a + 1), S k).

(** ** The methods of [SnakeGame] *)

(** [generate_food]: rejection sampling, [while True] bounded by [fuel]
    iterations. *)
Fixpoint generate_food (fuel : nat) (cfg : GameConfig) (snk : list Position)
  : M Position :=
  match fuel with
  | O => diverge
  | S fuel' =>
      do fx <- randint 0 (board_width cfg - 1) ;;
      do fy <- randint 0 (board_height cfg - 1) ;;
      let food_pos := mkPosition fx fy in
      if negb (pos_in food_pos snk) then ret food_pos
      else generate_food fuel' cfg snk
  end.

(** [reset_game], run by [__init__]; [now] is the reading of
    [time.time()]. *)
Definition reset_game (fuel : nat) (cfg : GameConfig) (now : Q) : M SnakeGame :=
  let center_x := board_width cfg / 2 in
  let center_y := board_height cfg / 2 in
  let snk := [ mkPosition center_x center_y;
               mkPosition (center_x - 1) center_y;
               mkPosition (center_x - 2) center_y ] in
  do fd <- generate_food fuel cfg snk ;;
  ret (mkSnakeGame cfg snk RIGHT fd 0 0 now 0 PLAYING).

Definition is_valid_position (cfg : GameConfig) (pos : Position) : bool :=
  ((0 <=? x pos) && (x pos <? board_width cfg)) &&
  ((0 <=? y pos) && (y pos <? board_height cfg)).

(** [move_snake]: the returned boolean is [False] on a collision. *)
Definition move_snake (fuel : nat) (g : SnakeGame) : M (bool * SnakeGame) :=
  match snake g with
  | [] => raise IndexError
  | head :: _ =>
      let new_head := pos_add head (direction g) in
      if negb (is_valid_position (config g) new_head) then ret (false, g)
      else if pos_in new_head (snake g) then ret (false, g)
      else
        let snk := new_head :: snake g in
        let moves := moves_made g + 1 in
        if pos_eq new_head (food g) then
          do fd <- generate_food fuel (config g) snk ;;
          ret (true,
               mkSnakeGame (config g) snk (direction g) fd (score g + 10)
                 (food_eaten g + 1) (start_time g) moves (game_state g))
        else
          ret (true,
               mkSnakeGame (config g) (removelast snk) (direction g) (food g)
                 (score g) (food_eaten g) (start_time g) moves (game_state g))
  end.

Definition opposite (d : Direction) : Direction :=
  match d with
  | UP => DOWN
  | DOWN => UP
  | LEFT => RIGHT
  | RIGHT => LEFT
  end.

Definition change_direction (g : SnakeGame) (new_direction : Direction)
  : SnakeGame :=
  if negb (Direction_eqb new_direction (opposite (direction g)))
  then set_direction g new_direction
  else g.

(** [get_game_time]; [now] is the reading of [time.time()]. *)
Definition get_game_time (g : SnakeGame) (now : Q) : Q :=
  (now - start_time g)%Q.

(** ** The handlers of [main] *)

(** What [st.session_state] keeps between two runs of the script. *)
Record Session : Type := mkSession {
  game : SnakeGame;
  last_move_time : Q;
  game_stats : GameStats
}.

(** The "New Game" button (and the first run of the script). *)
Definition new_game (fuel : nat) (now : Q) (s : Session) : M Session :=
  do g <- reset_game fuel default_config now ;;
  ret (mkSession g now (game_stats s)).

(** The button of the second column: "Pause" while playing. *)
Definition pause (s : Session) : Session :=
  if GameState_eqb (game_state (game s)) PLAYING
  then mkSession (set_game_state (game s) PAUSED) (last_move_time s) (game_stats s)
  else s.

(** The button of the second column: "Resume" while paused. *)
Definition resume (now : Q) (s : Session) : Session :=
  if GameState_eqb (game_state (game s)) PAUSED
  then mkSession (set_game_state (game s) PLAYING) now (game_stats s)
  else s.

(** The statistics written when a game ends. *)
Definition update_stats (g : SnakeGame) (now : Q) (st : GameStats) : GameStats :=
  mkGameStats (stats_score st)
    (stats_food_eaten st + food_eaten g)
    (time_played st + get_game_time g now)%Q
    (stats_moves_made st + moves_made g)
    (if high_score st <? score g then score g else high_score st)
    (games_played st + 1).

(** One move of the game loop: [move_snake], and the end of the game when
    it reports a collision.  The readings of the clock within one move are
    taken at the same instant [now]. *)
Definition move (fuel : nat) (now : Q) (s : Session) : M Session :=
  do r <- move_snake fuel (game s) ;;
  let '(ok, g) := r in
  if negb ok then
    ret (mkSession (set_game_state g GAME_OVER) now (update_stats g now (game_stats s)))
  else
    ret (mkSession g now (game_stats s)).

(** The timed part of [main]: a move is made while playing once 80% of the
    interval [speed_ms] has passed since the last one. *)
Definition auto_move (fuel : nat) (speed_ms : Z) (now : Q) (s : Session)
  : M Session :=
  if GameState_eqb (game_state (game s)) PLAYING then
    let time_since_last_move := ((now - last_move_time s) * 1000)%Q in
    if Qle_bool (inject_Z speed_ms * (8 # 10))%Q time_since_last_move
    then move fuel now s
    else ret s
  else ret s.

(** A direction button: it reaches [change_direction] only while playing. *)
Definition press (d : Direction) (s : Session) : Session :=
  if GameState_eqb (game_state (game s)) PLAYING
  then mkSession (change_direction (game s) d) (last_move_time s) (game_stats s)
  else s.

(** ** Reachable games *)

(** The games a fresh [SnakeGame] evolves into under its methods and under
    the assignments [main] makes to [game_state]. *)
Inductive reachable : SnakeGame -> Prop :=
| reach_new fuel cfg now k g k' :
    reset_game fuel cfg now k = Done (g, k') -> reachable g
| reach_change_direction g d :
    reachable g -> reachable (change_direction g d)
| reach_move_snake fuel g k ok g' k' :
    reachable g -> move_snake fuel g k = Done ((ok, g'), k') -> reachable g'
| reach_game_state g st :
    reachable g -> reachable (set_game_state g st).

(** The cell [generate_food] tries when the cursor is at [k]. *)
Definition candidate (cfg : GameConfig) (k : nat) : Position :=
  mkPosition (0 + draws k mod (board_width cfg - 1 - 0 + 1))
             (0 + draws (S k) mod (board_height cfg - 1 - 0 + 1)).

(** Some later try of [generate_food] falls on a cell off the snake. *)
Definition eventually_free (cfg : GameConfig) (snk : list Position) (k : nat)
  : Prop :=
  exists n : nat, pos_in (candidate cfg (k + 2 * n)) snk = false.

(** Consecutive moves, one per clock reading of [times]. *)
Fixpoint moves (fuel : nat) (times : list Q) (s : Session) : M Session :=
  match times with
  | [] => ret s
  | now :: times' => do s' <- move fuel now s ;; moves fuel times' s'
  end.

(** ** The sessions of [main] *)

(** Consecutive timed moves, one per clock reading of [times]. *)
Fixpoint auto_moves (fuel : nat) (speed_ms : Z) (times : list Q) (s : Session)
  : M Session :=
  match times with
  | [] => ret s
  | now :: times' =>
      do s' <- auto_move fuel speed_ms now s ;; auto_moves fuel speed_ms times' s'
  end.

(** The sessions of a player: [main] starts with a fresh game and fresh
    statistics, and every later run of the script handles one of the
    buttons or the timed move. *)
Inductive session_step : Session -> Session -> Prop :=
| step_new_game fuel now s k s' k' :
    new_game fuel now s k = Done (s', k') -> session_step s s'
| step_pause s : session_step s (pause s)
| step_resume now s : session_step s (resume now s)
| step_press d s : session_step s (press d s)
| step_auto_move fuel speed_ms now s k s' k' :
    auto_move fuel speed_ms now s k = Done (s', k') -> session_step s s'.

Inductive session_reachable : Session -> Prop :=
| session_first fuel now k g k' :
    reset_game fuel default_config now k = Done (g, k') ->
    session_reachable (mkSession g now (mkGameStats 0 0 0 0 0 0))
| session_next s s' :
    session_reachable s -> session_step s s' -> session_reachable s'.

End Engine.

(** What every reachable game satisfies (see [reachable_well_formed]). *)
Definition well_formed (g : SnakeGame) : Prop :=
  NoDup (snake g) /\ ~ In (food g) (snake g) /\ snake g <> [] /\
  0 < board_width (config g) /\ 0 < board_height (config g).

(** The cells of the board, [0 <= x < width] and [0 <= y < height]. *)
Definition on_board (cfg : GameConfig) (p : Position) : Prop :=
  0 <= x p < board_width cfg /\ 0 <= y p < board_height cfg.

(** ** The rest of [main]: the board, the banner and the achievements *)

(** [range(n)]. *)
Definition range (n : Z) : list Z := map Z.of_nat (seq 0 (Z.to_nat n)).

(** The positions [render_game_board] visits, row by row:
    [for y in range(board_height): for x in range(board_width)]. *)
Definition board_positions (cfg : GameConfig) : list Position :=
  flat_map (fun py => map (fun px => mkPosition px py) (range (board_width cfg)))
    (range (board_height cfg)).

(** The class of a cell in [render_game_board]; [game.snake[0]] raises on
    an empty snake. *)
Definition cell_class (g : SnakeGame) (pos : Position) : outcome string :=
  match snake g with
  | [] => Raised IndexError
  | head :: body =>
      if pos_eq pos head then Done "snake-head"%string
      else if pos_in pos body then Done "snake-body"%string
      else if pos_eq pos (food g) then Done "food"%string
      else Done "empty"%string
  end.

(** The double quote. *)
Definition dquote : string := String "034"%char EmptyString.

(** [str(n)] for an integer. *)
Definition str (n : Z) : string := NilZero.string_of_int (Z.to_int n).

(** The loop of [render_game_board] over the cells, appending to
    [board_html]. *)
Fixpoint render_cells (g : SnakeGame) (cells : list Position)
  (board_html : string) : outcome string :=
  match cells with
  | [] => Done board_html
  | pos :: rest =>
      match cell_class g pos with
      | Done cls =>
          render_cells g rest
            (board_html ++ "<div class=" ++ dquote ++ "cell " ++ cls
               ++ dquote ++ "></div>")%string
      | Raised e => Raised e
      | Diverged => Diverged
      end
  end.

Definition render_game_board (g : SnakeGame) : outcome string :=
  let board_html :=
    ("<div class=" ++ dquote ++ "game-board" ++ dquote ++ " style=" ++ dquote
       ++ "grid-template-columns: repeat(" ++ str (board_width (config g))
       ++ ", 1fr);" ++ dquote ++ ">")%string in
  match render_cells g (board_positions (config g)) board_html with
  | Done html => Done (html ++ "</div>")%string
  | Raised e => Raised e
  | Diverged => Diverged
  end.

(** The test of [main] for the balloons and the "New High Score" message
    of the game-over screen. *)
Definition new_high_score_shown (s : Session) : bool :=
  GameState_eqb (game_state (game s)) GAME_OVER &&
  (high_score (game_stats s) <? score (game s)).

(** The messages of [show_achievements], in the order they are appended. *)
Inductive Achievement : Set :=
| FoodLover | SnakeMaster | CenturyClub | PersistentPlayer | MovementMaster.

Definition achievements (stats : GameStats) : list Achievement :=
  (if 10 <=? stats_food_eaten stats then [FoodLover] else []) ++
  (if 50 <=? stats_food_eaten stats then [SnakeMaster] else []) ++
  (if 100 <=? high_score stats then [CenturyClub] else []) ++
  (if 10 <=? games_played stats then [PersistentPlayer] else []) ++
  (if 1000 <=? stats_moves_made stats then [MovementMaster] else []).

(** [l[-3:]]. *)
Definition last_three {A : Type} (l : list A) : list A :=
  skipn (length l - 3) l.

(** The achievements [show_achievements] displays. *)
Definition shown_achievements (stats : GameStats) : list Achievement :=
  last_three (achievements stats).

(** The class of a cell, for a snake with a head. *)
Definition class_of (g : SnakeGame) (head : Position) (body : list Position)
  (pos : Position) : string :=
  if pos_eq pos head then "snake-head"
  else if pos_in pos body then "snake-body"
  else if pos_eq pos (food g) then "food"
  else "empty".

(** The strings of a list, one after the other. *)
Definition join (l : list string) : string := fold_right append EmptyString l.

(** The opening tag of the board and the tag of a cell. *)
Definition board_header (g : SnakeGame) : string :=
  ("<div class=" ++ dquote ++ "game-board" ++ dquote ++ " style=" ++ dquote
     ++ "grid-template-columns: repeat(" ++ str (board_width (config g))
     ++ ", 1fr);" ++ dquote ++ ">")%string.

Definition cell_html (cls : string) : string :=
  ("<div class=" ++ dquote ++ "cell " ++ cls ++ dquote ++ "></div>")%string.

(** ** Sample games *)

(** A generator whose [n]-th raw draw is [n]. *)
Definition counting_draws : nat -> Z := Z.of_nat.

Definition no_stats : GameStats := mkGameStats 0 0 0 0 0 0.

(** The game [SnakeGame(GameConfig())] under [counting_draws]: the first
    try for the food, [(0, 1)], is free. *)
Definition fresh_game : SnakeGame :=
  mkSnakeGame default_config
    [mkPosition 10 7; mkPosition 9 7; mkPosition 8 7]
    RIGHT (mkPosition 0 1) 0 0 0 0 PLAYING.

(** [fresh_game] after nine moves to the right: the head touches the right
    wall. *)
Definition game_at_wall : SnakeGame :=
  mkSnakeGame default_config
    [mkPosition 19 7; mkPosition 18 7; mkPosition 17 7]
    RIGHT (mkPosition 0 1) 0 0 0 9 PLAYING.

(** The default board with the food five cells ahead of the head. *)
Definition food_ahead_game (start : Q) : SnakeGame :=
  mkSnakeGame default_config
    [mkPosition 10 7; mkPosition 9 7; mkPosition 8 7]
    RIGHT (mkPosition 15 7) 0 0 start 0 PLAYING.

(** A generator that gives [15] then [7], for the food of
    [food_ahead_game], and counts from there. *)
Definition food_ahead_draws (n : nat) : Z :=
  match n with
  | O => 15
  | S O => 7
  | _ => Z.of_nat n
  end.

(** [food_ahead_game 0] after four moves to the right: the food is the
    next cell. *)
Definition game_before_food : SnakeGame :=
  mkSnakeGame default_config
    [mkPosition 14 7; mkPosition 13 7; mkPosition 12 7]
    RIGHT (mkPosition 15 7) 0 0 0 4 PLAYING.

Definition before_food_session : Session :=
  mkSession game_before_food 0 no_stats.

(** A session that plays [fresh_game], started at time 0. *)
Definition playing_session : Session := mkSession fresh_game 0 no_stats.

Definition wall_session : Session := mkSession game_at_wall 0 no_stats.

(** [game_before_food] after one more move under [food_ahead_draws]: the
    snake has eaten, and the new food is the first try, [(2, 3)]. *)
Definition game_after_food : SnakeGame :=
  mkSnakeGame default_config
    [mkPosition 15 7; mkPosition 14 7; mkPosition 13 7; mkPosition 12 7]
    RIGHT (mkPosition 2 3) 10 1 0 5 PLAYING.

(** [playing_session] after ten timed moves: the tenth ran into the right
    wall. *)
Definition over_session : Session :=
  mkSession (set_game_state game_at_wall GAME_OVER) 0
    (mkGameStats 0 0 0 9 0 1).

(** Statistics that earn all five achievements. *)
Definition veteran_stats : GameStats := mkGameStats 0 60 0 2000 300 12.

(** A board of two cells, and the snake [reset_game] lays on it: it covers
    both cells. *)
Definition tiny_config : GameConfig := mkGameConfig 2 1 3 [].

Definition tiny_snake : list Position :=
  [mkPosition 1 0; mkPosition 0 0; mkPosition (-1) 0].




(** ** Facts about the engine *)

Section EngineFacts.

Variable draws : nat -> Z.

(** *** Positions and lists *)

Lemma pos_eq_true (a b : Position) : pos_eq a b = true <-> a = b.
Proof.
  unfold pos_eq. destruct a as [ax ay], b as [bx by']. simpl.
  rewrite andb_true_iff, !Z.eqb_eq. split.
  - intros [-> ->]. reflexivity.
  - intros E. inversion E. split; reflexivity.
Qed.

Lemma pos_eq_refl (a : Position) : pos_eq a a = true.
Proof. apply pos_eq_true. reflexivity. Qed.

Lemma pos_in_true (p : Position) (l : list Position) :
  pos_in p l = true <-> In p l.
Proof.
  unfold pos_in. rewrite existsb_exists. split.
  - intros [q [Hq E]]. apply pos_eq_true in E. subst q. exact Hq.
  - intros Hp. exists p. split; [exact Hp | apply pos_eq_refl].
Qed.

Lemma pos_in_false (p : Position) (l : list Position) :
  pos_in p l = false <-> ~ In p l.
Proof.
  rewrite <- pos_in_true. destruct (pos_in p l); split; intros H;
    try reflexivity; try discriminate; try (intros E; discriminate).
  exfalso. apply H. reflexivity.
Qed.

Lemma is_valid_position_true cfg p :
  is_valid_position cfg p = true <-> on_board cfg p.
Proof.
  unfold is_valid_position, on_board.
  rewrite !andb_true_iff, !Z.leb_le, !Z.ltb_lt. tauto.
Qed.

Lemma is_valid_position_false cfg p :
  is_valid_position cfg p = false <-> ~ on_board cfg p.
Proof.
  rewrite <- is_valid_position_true.
  destruct (is_valid_position cfg p); split; intros H;
    try reflexivity; try discriminate; try (intros E; discriminate).
  exfalso. apply H. reflexivity.
Qed.

Lemma pos_eq_false (a b : Position) : pos_eq a b = false <-> a <> b.
Proof.
  rewrite <- pos_eq_true. destruct (pos_eq a b); split; intros H;
    try reflexivity; try discriminate; try (intros E; discriminate).
  exfalso. apply H. reflexivity.
Qed.

Lemma Direction_eqb_true (a b : Direction) : Direction_eqb a b = true <-> a = b.
Proof. destruct a, b; simpl; split; intros H; congruence. Qed.

Lemma GameState_eqb_true (a b : GameState) : GameState_eqb a b = true <-> a = b.
Proof. destruct a, b; simpl; split; intros H; congruence. Qed.

Lemma In_removelast (A : Type) (a : A) (l : list A) :
  In a (removelast l) -> In a l.
Proof.
  induction l as [| b l IH]; simpl; [tauto |].
  destruct l as [| c l]; simpl in *; [tauto |].
  intros [E | H]; [left; exact E | right; apply IH; exact H].
Qed.

Lemma NoDup_removelast (A : Type) (l : list A) :
  NoDup l -> NoDup (removelast l).
Proof.
  induction 1 as [| b l Hb Hl IH]; simpl; [constructor |].
  destruct l as [| c l]; [constructor |].
  constructor; [| exact IH].
  intros H. apply Hb. apply In_removelast. exact H.
Qed.

Lemma length_removelast_cons (A : Type) (a : A) (l : list A) :
  length (removelast (a :: l)) = length l.
Proof.
  revert a. induction l as [| b l IH]; intros a; [reflexivity |].
  change (removelast (a :: b :: l)) with (a :: removelast (b :: l)).
  cbn [length]. f_equal. apply IH.
Qed.

(** ** Facts about [generate_food] *)

(** One turn of the loop. *)
Lemma generate_food_step fuel cfg snk k :
  generate_food draws (S fuel) cfg snk k =
  if board_width cfg - 1 <? 0 then Raised ValueError
  else if board_height cfg - 1 <? 0 then Raised ValueError
  else if pos_in (candidate draws cfg k) snk
       then generate_food draws fuel cfg snk (S (S k))
       else Done (candidate draws cfg k, S (S k)).
Proof.
  simpl. unfold bind, randint, ret, candidate.
  destruct (board_width cfg - 1 <? 0); [reflexivity |].
  destruct (board_height cfg - 1 <? 0); [reflexivity |].
  destruct (pos_in _ snk); reflexivity.
Qed.

Lemma candidate_on_board cfg k :
  0 < board_width cfg -> 0 < board_height cfg ->
  is_valid_position cfg (candidate draws cfg k) = true.
Proof.
  intros Hw Hh. unfold is_valid_position, candidate. simpl.
  replace (board_width cfg - 1 - 0 + 1) with (board_width cfg) by lia.
  replace (board_height cfg - 1 - 0 + 1) with (board_height cfg) by lia.
  pose proof (Z.mod_pos_bound (draws k) (board_width cfg) Hw).
  pose proof (Z.mod_pos_bound (draws (S k)) (board_height cfg) Hh).
  rewrite !andb_true_iff, !Z.leb_le, !Z.ltb_lt. lia.
Qed.

(** What a returned food cell satisfies. *)
Lemma generate_food_sound fuel cfg snk : forall k p k',
  generate_food draws fuel cfg snk k = Done (p, k') ->
  pos_in p snk = false /\ is_valid_position cfg p = true /\
  0 < board_width cfg /\ 0 < board_height cfg.
Proof.
  induction fuel as [| fuel IH]; intros k p k' H; [discriminate |].
  rewrite generate_food_step in H.
  destruct (board_width cfg - 1 <? 0) eqn:Hw; [discriminate |].
  destruct (board_height cfg - 1 <? 0) eqn:Hh; [discriminate |].
  apply Z.ltb_ge in Hw, Hh.
  destruct (pos_in (candidate draws cfg k) snk) eqn:Hin.
  - apply IH in H. exact H.
  - inversion H; subst. repeat split; try lia; [exact Hin |].
    apply candidate_on_board; lia.
Qed.


(** More fuel does not change a result. *)
Lemma generate_food_more_fuel cfg snk : forall fuel fuel' k r,
  (fuel <= fuel')%nat ->
  generate_food draws fuel cfg snk k = Done r ->
  generate_food draws fuel' cfg snk k = Done r.
Proof.
  induction fuel as [| fuel IH]; intros fuel' k r Hle H; [discriminate |].
  destruct fuel' as [| fuel']; [lia |].
  rewrite generate_food_step in *.
  destruct (board_width cfg - 1 <? 0); [discriminate |].
  destruct (board_height cfg - 1 <? 0); [discriminate |].
  destruct (pos_in (candidate draws cfg k) snk); [| exact H].
  apply IH with (fuel' := fuel') in H; [exact H | lia].
Qed.

(** The first try that falls off the snake. *)
Lemma first_free_try cfg snk : forall n k,
  pos_in (candidate draws cfg (k + 2 * n)) snk = false ->
  exists m, (m <= n)%nat /\
    pos_in (candidate draws cfg (k + 2 * m)) snk = false /\
    forall j, (j < m)%nat -> pos_in (candidate draws cfg (k + 2 * j)) snk = true.
Proof.
  induction n as [| n IH]; intros k Hfree.
  - exists 0%nat. repeat split; [lia | exact Hfree | intros j Hj; lia].
  - destruct (pos_in (candidate draws cfg k) snk) eqn:Hk.
    + replace (k + 2 * S n)%nat with (S (S k) + 2 * n)%nat in Hfree by lia.
      destruct (IH _ Hfree) as [m [Hm [Hfm Hbefore]]].
      exists (S m). repeat split.
      * lia.
      * replace (k + 2 * S m)%nat with (S (S k) + 2 * m)%nat by lia. exact Hfm.
      * intros [| j] Hj.
        -- replace (k + 2 * 0)%nat with k by lia. exact Hk.
        -- replace (k + 2 * S j)%nat with (S (S k) + 2 * j)%nat by lia.
           apply Hbefore. lia.
    + exists 0%nat. repeat split; [lia | | intros j Hj; lia].
      replace (k + 2 * 0)%nat with k by lia. exact Hk.
Qed.

(** The loop returns the first free try, and moves the cursor past it. *)
Lemma generate_food_first_free cfg snk :
  0 < board_width cfg -> 0 < board_height cfg ->
  forall m k,
  pos_in (candidate draws cfg (k + 2 * m)) snk = false ->
  (forall j, (j < m)%nat -> pos_in (candidate draws cfg (k + 2 * j)) snk = true) ->
  forall fuel, (m < fuel)%nat ->
  generate_food draws fuel cfg snk k =
  Done (candidate draws cfg (k + 2 * m), (k + 2 * m + 2)%nat).
Proof.
  intros Hw Hh. induction m as [| m IH]; intros k Hfree Hbefore fuel Hfuel;
    (destruct fuel as [| fuel]; [lia |]);
    rewrite generate_food_step;
    destruct (board_width cfg - 1 <? 0) eqn:Ew; try (apply Z.ltb_lt in Ew; lia);
    destruct (board_height cfg - 1 <? 0) eqn:Eh; try (apply Z.ltb_lt in Eh; lia).
  - replace (k + 2 * 0)%nat with k in * by lia. rewrite Hfree.
    do 2 f_equal. lia.
  - specialize (Hbefore 0%nat ltac:(lia)) as H0.
    replace (k + 2 * 0)%nat with k in H0 by lia. rewrite H0.
    replace (k + 2 * S m)%nat with (S (S k) + 2 * m)%nat in * by lia.
    rewrite IH; [reflexivity | exact Hfree | | lia].
    intros j Hj. specialize (Hbefore (S j) ltac:(lia)).
    replace (k + 2 * S j)%nat with (S (S k) + 2 * j)%nat in Hbefore by lia.
    exact Hbefore.
Qed.

(** With no free cell to fall on, the loop runs for ever. *)
Lemma generate_food_never_returns cfg snk :
  0 < board_width cfg -> 0 < board_height cfg ->
  (forall k, pos_in (candidate draws cfg k) snk = true) ->
  forall fuel k, generate_food draws fuel cfg snk k = Diverged.
Proof.
  intros Hw Hh Hfull. induction fuel as [| fuel IH]; intros k; [reflexivity |].
  rewrite generate_food_step.
  destruct (board_width cfg - 1 <? 0) eqn:Ew; [apply Z.ltb_lt in Ew; lia |].
  destruct (board_height cfg - 1 <? 0) eqn:Eh; [apply Z.ltb_lt in Eh; lia |].
  rewrite Hfull. apply IH.
Qed.

Lemma tiny_board_is_full k :
  pos_in (candidate draws tiny_config k) tiny_snake = true.
Proof.
  apply pos_in_true. unfold candidate, tiny_config, tiny_snake.
  cbn [board_width board_height].
  replace (2 - 1 - 0 + 1) with 2 by reflexivity.
  replace (1 - 1 - 0 + 1) with 1 by reflexivity.
  rewrite Z.mod_1_r.
  pose proof (Z.mod_pos_bound (draws k) 2 ltac:(lia)) as Hb.
  assert (Hc : draws k mod 2 = 0 \/ draws k mod 2 = 1) by lia.
  destruct Hc as [-> | ->]; simpl; tauto.
Qed.


(** *** Facts about [move_snake] *)

(** The cases of [move_snake] on a snake with a head. *)
Lemma move_snake_collision fuel g head rest k :
  snake g = head :: rest ->
  is_valid_position (config g) (pos_add head (direction g)) = false \/
  pos_in (pos_add head (direction g)) (snake g) = true ->
  move_snake draws fuel g k = Done ((false, g), k).
Proof.
  intros Hs Hc. unfold move_snake. rewrite Hs. rewrite <- Hs.
  destruct (is_valid_position (config g) (pos_add head (direction g)));
    [| reflexivity].
  destruct Hc as [Hc | Hc]; [discriminate |]. rewrite Hc. reflexivity.
Qed.

Lemma move_snake_plain fuel g head rest k :
  snake g = head :: rest ->
  is_valid_position (config g) (pos_add head (direction g)) = true ->
  pos_in (pos_add head (direction g)) (snake g) = false ->
  pos_eq (pos_add head (direction g)) (food g) = false ->
  move_snake draws fuel g k =
  Done ((true,
         mkSnakeGame (config g)
           (removelast (pos_add head (direction g) :: snake g))
           (direction g) (food g) (score g) (food_eaten g) (start_time g)
           (moves_made g + 1) (game_state g)), k).
Proof.
  intros Hs Hv Hin Hf. unfold move_snake. rewrite Hs. rewrite <- Hs.
  rewrite Hv, Hin, Hf. reflexivity.
Qed.

Lemma move_snake_eat fuel g head rest k :
  snake g = head :: rest ->
  is_valid_position (config g) (pos_add head (direction g)) = true ->
  pos_in (pos_add head (direction g)) (snake g) = false ->
  pos_eq (pos_add head (direction g)) (food g) = true ->
  move_snake draws fuel g k =
  match generate_food draws fuel (config g)
          (pos_add head (direction g) :: snake g) k with
  | Done (fd, k') =>
      Done ((true,
             mkSnakeGame (config g) (pos_add head (direction g) :: snake g)
               (direction g) fd (score g + 10) (food_eaten g + 1)
               (start_time g) (moves_made g + 1) (game_state g)), k')
  | Raised e => Raised e
  | Diverged => Diverged
  end.
Proof.
  intros Hs Hv Hin Hf. unfold move_snake. rewrite Hs. rewrite <- Hs.
  rewrite Hv, Hin, Hf. simpl. unfold bind, ret.
  destruct (generate_food draws fuel (config g) _ k) as [[fd k'] | e |]; reflexivity.
Qed.

(** *** The invariant of reachable games *)

Lemma well_formed_fields cfg snk d fd sc fe st mv gs :
  NoDup snk -> ~ In fd snk -> snk <> [] ->
  0 < board_width cfg -> 0 < board_height cfg ->
  well_formed (mkSnakeGame cfg snk d fd sc fe st mv gs).
Proof. intros. unfold well_formed. simpl. tauto. Qed.

Lemma reset_game_well_formed fuel cfg now k g k' :
  reset_game draws fuel cfg now k = Done (g, k') -> well_formed g.
Proof.
  unfold reset_game, bind, ret.
  destruct (generate_food draws fuel cfg _ k) as [[fd k1] | e |] eqn:Hg;
    try discriminate.
  intros H. inversion H; subst; clear H.
  apply generate_food_sound in Hg. destruct Hg as [Hin [_ [Hw Hh]]].
  apply well_formed_fields; try assumption.
  - repeat constructor; simpl; intros H;
      repeat (destruct H as [H | H]; [inversion H; lia |]); exact H.
  - apply pos_in_false. exact Hin.
  - discriminate.
Qed.

Lemma change_direction_frame g d :
  config (change_direction g d) = config g /\
  snake (change_direction g d) = snake g /\
  food (change_direction g d) = food g /\
  score (change_direction g d) = score g /\
  food_eaten (change_direction g d) = food_eaten g /\
  start_time (change_direction g d) = start_time g /\
  moves_made (change_direction g d) = moves_made g /\
  game_state (change_direction g d) = game_state g.
Proof.
  unfold change_direction.
  destruct (negb (Direction_eqb d (opposite (direction g))));
    repeat split; reflexivity.
Qed.

Lemma move_snake_well_formed fuel g k ok g' k' :
  well_formed g -> move_snake draws fuel g k = Done ((ok, g'), k') ->
  well_formed g'.
Proof.
  intros [Hnd [Hfood [Hne [Hw Hh]]]] Hm.
  destruct (snake g) as [| head rest] eqn:Hs; [congruence |].
  destruct (is_valid_position (config g) (pos_add head (direction g))) eqn:Hv.
  2:{ rewrite (move_snake_collision fuel g head rest k Hs (or_introl Hv)) in Hm.
      inversion Hm; subst. unfold well_formed. rewrite Hs. tauto. }
  destruct (pos_in (pos_add head (direction g)) (snake g)) eqn:Hin.
  { rewrite (move_snake_collision fuel g head rest k Hs (or_intror Hin)) in Hm.
    inversion Hm; subst. unfold well_formed. rewrite Hs. tauto. }
  assert (Hnd' : NoDup (pos_add head (direction g) :: snake g)).
  { constructor; [apply pos_in_false; exact Hin | rewrite Hs; exact Hnd]. }
  destruct (pos_eq (pos_add head (direction g)) (food g)) eqn:Hf.
  - rewrite (move_snake_eat fuel g head rest k Hs Hv Hin Hf) in Hm.
    destruct (generate_food draws fuel (config g) _ k) as [[fd k1] | e |] eqn:Hg;
      try discriminate.
    inversion Hm; subst; clear Hm.
    apply generate_food_sound in Hg. destruct Hg as [Hfd _].
    apply well_formed_fields; try assumption.
    + apply pos_in_false. exact Hfd.
    + discriminate.
  - rewrite (move_snake_plain fuel g head rest k Hs Hv Hin Hf) in Hm.
    inversion Hm; subst; clear Hm.
    apply well_formed_fields; try assumption.
    + exact (NoDup_removelast _ _ Hnd').
    + intros H.
      apply (In_removelast _ _ (pos_add head (direction g) :: snake g)) in H.
      destruct H as [H | H].
      * rewrite <- H in Hf. rewrite pos_eq_refl in Hf. discriminate.
      * apply Hfood. rewrite Hs in H. exact H.
    + rewrite Hs. simpl. discriminate.
Qed.

Lemma reachable_well_formed g : reachable draws g -> well_formed g.
Proof.
  induction 1 as [fuel cfg now k g k' H | g d _ IH | fuel g k ok g' k' _ IH H
                 | g st _ IH].
  - eapply reset_game_well_formed. exact H.
  - unfold well_formed in *.
    destruct (change_direction_frame g d) as [-> [-> [-> _]]]. exact IH.
  - eapply move_snake_well_formed; eassumption.
  - exact IH.
Qed.

Lemma reachable_has_head g :
  reachable draws g -> exists head rest, snake g = head :: rest.
Proof.
  intros R. apply reachable_well_formed in R.
  destruct R as [_ [_ [Hne _]]].
  destruct (snake g) as [| head rest]; [congruence | eauto].
Qed.

(** *** Facts about the moves of the game loop *)

Lemma move_collision fuel now s head rest k :
  snake (game s) = head :: rest ->
  is_valid_position (config (game s)) (pos_add head (direction (game s))) = false \/
  pos_in (pos_add head (direction (game s))) (snake (game s)) = true ->
  move draws fuel now s k =
  Done (mkSession (set_game_state (game s) GAME_OVER) now
          (update_stats (game s) now (game_stats s)), k).
Proof.
  intros Hs Hc. unfold move, bind.
  rewrite (move_snake_collision fuel (game s) head rest k Hs Hc). reflexivity.
Qed.



Lemma moves_cons fuel now times s k :
  moves draws fuel (now :: times) s k =
  match move draws fuel now s k with
  | Done (s', k') => moves draws fuel times s' k'
  | Raised e => Raised e
  | Diverged => Diverged
  end.
Proof. reflexivity. Qed.

Lemma reachable_move fuel now s k s' k' :
  reachable draws (game s) -> move draws fuel now s k = Done (s', k') ->
  reachable draws (game s').
Proof.
  intros R. unfold move, bind.
  destruct (move_snake draws fuel (game s) k) as [[[ok g] k1] | e |] eqn:Hm;
    try discriminate.
  assert (Rg : reachable draws g) by (eapply reach_move_snake; eassumption).
  destruct ok; simpl; unfold ret; intros H; inversion H; subst; simpl.
  - exact Rg.
  - apply reach_game_state. exact Rg.
Qed.

Lemma reachable_moves fuel times : forall s k s' k',
  reachable draws (game s) -> moves draws fuel times s k = Done (s', k') ->
  reachable draws (game s').
Proof.
  induction times as [| now times IH]; intros s k s' k' R H.
  - inversion H; subst. exact R.
  - rewrite moves_cons in H.
    destruct (move draws fuel now s k) as [[s1 k1] | e |] eqn:Hm;
      try discriminate.
    eapply IH; [| exact H]. eapply reachable_move; eassumption.
Qed.

End EngineFacts.

Lemma fresh_game_reachable : reachable counting_draws fresh_game.
Proof.
  apply (reach_new counting_draws 1 default_config 0%Q 0 fresh_game 2).
  vm_compute. reflexivity.
Qed.

Lemma game_at_wall_reachable : reachable counting_draws game_at_wall.
Proof.
  apply (reachable_moves counting_draws 0
           [0%Q; 0%Q; 0%Q; 0%Q; 0%Q; 0%Q; 0%Q; 0%Q; 0%Q]
           (mkSession fresh_game 0 no_stats) 2
           (mkSession game_at_wall 0 no_stats) 2).
  - exact fresh_game_reachable.
  - vm_compute. reflexivity.
Qed.


Lemma food_ahead_game_reachable start :
  reachable food_ahead_draws (food_ahead_game start).
Proof.
  apply (reach_new food_ahead_draws 1 default_config start 0
           (food_ahead_game start) 2).
  reflexivity.
Qed.

Lemma game_before_food_reachable :
  reachable food_ahead_draws game_before_food.
Proof.
  apply (reachable_moves food_ahead_draws 0 [0%Q; 0%Q; 0%Q; 0%Q]
           (mkSession (food_ahead_game 0) 0 no_stats) 2
           before_food_session 2).
  - apply food_ahead_game_reachable.
  - vm_compute. reflexivity.
Qed.

(** ** The properties of the specification *)

(** C2. Snake well-formedness: in every game reachable from a fresh
    [SnakeGame] by [change_direction], [move_snake] and the assignments to
    [game_state], the snake holds no position twice and the food is not on
    the snake. *)
Theorem snake_has_no_duplicates_and_food_is_off_snake
  (draws : nat -> Z) (g : SnakeGame) :
  reachable draws g -> NoDup (snake g) /\ ~ In (food g) (snake g).
Proof.
  intros R. apply reachable_well_formed in R.
  destruct R as [Hnd [Hfood _]]. split; assumption.
Qed.

Lemma snake_at_wall_is_well_formed :
  reachable counting_draws game_at_wall /\
  NoDup (snake game_at_wall) /\ ~ In (food game_at_wall) (snake game_at_wall).
Proof.
  split.
  - exact game_at_wall_reachable.
  - exact (snake_has_no_duplicates_and_food_is_off_snake
             counting_draws game_at_wall game_at_wall_reachable).
Defined.

(** C3. Collision atomicity: in a reachable game that is playing, the snake
    has a head, and when the cell next to it in the current direction is off
    the board or on the snake, the move ends the game: the state becomes
    [GAME_OVER], the segments and the score stay as they were, and no random
    draw is consumed.  The timed move of [main] does the same once the
    interval has passed. *)
Theorem collision_ends_game_and_keeps_snake
  (draws : nat -> Z) (fuel : nat) (now : Q) (s : Session) (k : nat) :
  reachable draws (game s) -> game_state (game s) = PLAYING ->
  exists head, hd_error (snake (game s)) = Some head /\
    (~ on_board (config (game s)) (pos_add head (direction (game s))) \/
     In (pos_add head (direction (game s))) (snake (game s)) ->
     exists s', move draws fuel now s k = Done (s', k) /\
       game_state (game s') = GAME_OVER /\
       snake (game s') = snake (game s) /\
       score (game s') = score (game s) /\
       forall speed_ms,
         Qle_bool (inject_Z speed_ms * (8 # 10))
                  ((now - last_move_time s) * 1000) = true ->
         auto_move draws fuel speed_ms now s k = Done (s', k)).
Proof.
  intros R Hplay.
  destruct (reachable_has_head draws _ R) as [head [rest Hs]].
  exists head. split; [rewrite Hs; reflexivity |].
  intros Hc.
  assert (Hc' : is_valid_position (config (game s))
                  (pos_add head (direction (game s))) = false \/
                pos_in (pos_add head (direction (game s))) (snake (game s)) = true).
  { destruct Hc as [Hc | Hc];
      [left; apply is_valid_position_false | right; apply pos_in_true];
      exact Hc. }
  pose proof (move_collision draws fuel now s head rest k Hs Hc') as Hm.
  eexists. split; [exact Hm |].
  repeat split.
  intros speed_ms Hdue. unfold auto_move.
  rewrite Hplay. simpl GameState_eqb. cbv iota. rewrite Hdue. exact Hm.
Qed.

Lemma collision_at_right_wall :
  exists s', move counting_draws 0 1 wall_session 2%nat = Done (s', 2%nat) /\
    game_state (game s') = GAME_OVER /\
    snake (game s') = snake game_at_wall /\
    score (game s') = 0.
Proof.
  destruct (collision_ends_game_and_keeps_snake counting_draws 0 1
              wall_session 2 game_at_wall_reachable eq_refl)
    as [head [Hhead Hmove]].
  simpl in Hhead. injection Hhead as <-.
  destruct Hmove as [s' [Hm [Hst [Hsn [Hsc _]]]]].
  - left. unfold on_board. simpl. lia.
  - exists s'. repeat split; assumption.
Defined.






(** C7, as the code has it.  Food placement ends whenever some later try
    of the random generator falls on a cell off the snake: the loop returns
    the first such try, a cell of the board that is not on the snake, after
    as many turns as it took tries, and more fuel changes nothing.  The
    engine has no state for a win: [GameState] is [MENU], [PLAYING],
    [GAME_OVER] or [PAUSED]. *)
Theorem generate_food_returns_first_free_try
  (draws : nat -> Z) (cfg : GameConfig) (snk : list Position) (k : nat) :
  0 < board_width cfg -> 0 < board_height cfg ->
  eventually_free draws cfg snk k ->
  exists m : nat,
    (forall j, (j < m)%nat -> In (candidate draws cfg (k + 2 * j)) snk) /\
    ~ In (candidate draws cfg (k + 2 * m)) snk /\
    on_board cfg (candidate draws cfg (k + 2 * m)) /\
    forall fuel, (m < fuel)%nat ->
      generate_food draws fuel cfg snk k =
      Done (candidate draws cfg (k + 2 * m), (k + 2 * m + 2)%nat).
Proof.
  intros Hw Hh [n Hfree].
  destruct (first_free_try draws cfg snk n k Hfree) as [m [_ [Hm Hbefore]]].
  exists m. split; [| split; [| split]].
  - intros j Hj. apply pos_in_true. apply Hbefore. exact Hj.
  - apply pos_in_false. exact Hm.
  - apply is_valid_position_true. apply candidate_on_board; assumption.
  - intros fuel Hfuel.
    apply generate_food_first_free; assumption.
Qed.

Lemma first_food_of_fresh_game :
  exists m : nat,
    (forall j, (j < m)%nat ->
       In (candidate counting_draws default_config (0 + 2 * j)) (snake fresh_game)) /\
    ~ In (candidate counting_draws default_config (0 + 2 * m)) (snake fresh_game) /\
    on_board default_config (candidate counting_draws default_config (0 + 2 * m)) /\
    forall fuel, (m < fuel)%nat ->
      generate_food counting_draws fuel default_config (snake fresh_game) 0%nat =
      Done (candidate counting_draws default_config (0 + 2 * m),
            (0 + 2 * m + 2)%nat).
Proof.
  apply (generate_food_returns_first_free_try counting_draws default_config
           (snake fresh_game) 0).
  - reflexivity.
  - reflexivity.
  - exists 0%nat. reflexivity.
Defined.

(** C7, as the specification has it, fails: on a board of two cells the snake
    laid by [reset_game] covers every cell, and then neither
    [generate_food] nor the constructor ever returns, whatever the draws
    and however many turns the loop is given. *)
Lemma food_generation_hangs_on_full_board :
  (forall p, on_board tiny_config p -> In p tiny_snake) /\
  ~ (exists draws fuel k,
       generate_food draws fuel tiny_config tiny_snake k <> Diverged) /\
  ~ (exists draws fuel now k,
       reset_game draws fuel tiny_config now k <> Diverged).
Proof.
  split; [| split].
  - intros [px py] [Hx Hy]. simpl in Hx, Hy.
    assert (Hpy : py = 0) by lia. subst py.
    assert (Hpx : px = 0 \/ px = 1) by lia.
    destruct Hpx as [-> | ->]; simpl; tauto.
  - intros [draws [fuel [k H]]]. apply H.
    apply generate_food_never_returns;
      [reflexivity | reflexivity | apply tiny_board_is_full].
  - intros [draws [fuel [now [k H]]]]. apply H.
    unfold reset_game, bind.
    change (generate_food draws fuel tiny_config _ k)
      with (generate_food draws fuel tiny_config tiny_snake k).
    rewrite generate_food_never_returns;
      [reflexivity | reflexivity | reflexivity | apply tiny_board_is_full].
Qed.

(** C8. Direction-change guard: a direction button stores the requested
    direction exactly when the game is playing and the request is not the
    opposite of the current direction; in every other case the stored
    direction stays, and nothing else of the game ever changes.  (The test
    on the state is made by the button handlers of [main]; the method
    [change_direction] they call makes the test on the direction.) *)
Theorem direction_button_guard (s : Session) (d : Direction) :
  direction (game (press d s)) =
    (if GameState_eqb (game_state (game s)) PLAYING &&
        negb (Direction_eqb d (opposite (direction (game s))))
     then d else direction (game s)) /\
  direction (change_direction (game s) d) =
    (if negb (Direction_eqb d (opposite (direction (game s))))
     then d else direction (game s)) /\
  (game_state (game s) = PLAYING /\ d <> opposite (direction (game s)) ->
   direction (game (press d s)) = d) /\
  (~ (game_state (game s) = PLAYING /\ d <> opposite (direction (game s))) ->
   direction (game (press d s)) = direction (game s)) /\
  (d <> direction (game s) ->
   (direction (game (press d s)) = d <->
    game_state (game s) = PLAYING /\ d <> opposite (direction (game s)))) /\
  set_direction (game (press d s)) (direction (game s)) =
    set_direction (game s) (direction (game s)) /\
  last_move_time (press d s) = last_move_time s /\
  game_stats (press d s) = game_stats s.
Proof.
  unfold press, change_direction.
  destruct s as [g lm st]. cbn [game last_move_time game_stats].
  destruct (game_state g) eqn:Hst; cbn [GameState_eqb andb];
    cbn [game last_move_time game_stats];
    destruct (direction g) eqn:Hd, d; cbn [opposite Direction_eqb negb];
    unfold set_direction; cbn [direction config snake food score food_eaten
                                 start_time moves_made game_state];
    rewrite ?Hd;
    repeat split; try reflexivity; try congruence;
    try (intros [H1 H2]; congruence);
    try (intros H; exfalso; apply H; split; congruence);
    try (intros H; split; congruence).
Qed.

(** C9, as the code has it.  The reported time is the clock reading minus
    the time the game started.  Pausing and resuming leave the start time
    as it was, so a game started at [start], paused at [t1], resumed at
    [t2] and read at [t3] reports the time it was played plus the time it
    was paused. *)
Theorem game_time_is_time_since_start (s : Session) (t1 t2 t3 : Q) :
  start_time (game (pause s)) = start_time (game s) /\
  start_time (game (resume t2 s)) = start_time (game s) /\
  get_game_time (game (resume t2 (pause s))) t3 =
    (t3 - start_time (game s))%Q /\
  (get_game_time (game (resume t2 (pause s))) t3 ==
     (t1 - start_time (game s)) + (t2 - t1) + (t3 - t2))%Q.
Proof.
  assert (Hp : start_time (game (pause s)) = start_time (game s)).
  { unfold pause. destruct (GameState_eqb _ PLAYING); reflexivity. }
  assert (Hr : forall s0, start_time (game (resume t2 s0)) = start_time (game s0)).
  { intros s0. unfold resume. destruct (GameState_eqb _ PAUSED); reflexivity. }
  split; [exact Hp | split; [apply Hr | split]].
  - unfold get_game_time. rewrite Hr, Hp. reflexivity.
  - unfold get_game_time. rewrite Hr, Hp. ring.
Qed.

(** C9, as the specification has it, fails: a game started at time 0, paused
    from 1 to 11 and read at 12 was played for 2 seconds but reports 12;
    paused from 1 to 2 and read at 3 it was played for 2 seconds too, and
    reports 3. *)
Lemma game_time_counts_the_pause :
  game_state (game (pause playing_session)) = PAUSED /\
  game_state (game (resume 11 (pause playing_session))) = PLAYING /\
  (get_game_time (game (resume 11 (pause playing_session))) 12 == 12)%Q /\
  ~ (get_game_time (game (resume 11 (pause playing_session))) 12 ==
       (12 - 0) - (11 - 1))%Q /\
  ~ (get_game_time (game (resume 11 (pause playing_session))) 12 ==
     get_game_time (game (resume 2 (pause playing_session))) 3)%Q.
Proof.
  repeat split; try reflexivity; intros H; vm_compute in H; discriminate H.
Qed.

(** ** Further facts about the engine *)

Section MoreEngineFacts.

Variable draws : nat -> Z.

Lemma change_direction_cases g d :
  change_direction g d = g \/
  (d <> opposite (direction g) /\ change_direction g d = set_direction g d).
Proof.
  unfold change_direction.
  destruct (Direction_eqb d (opposite (direction g))) eqn:E; simpl;
    [left; reflexivity |].
  right. split; [| reflexivity].
  intros H. apply Direction_eqb_true in H. congruence.
Qed.

(** What [move_snake] returns, case by case. *)
Lemma move_snake_cases fuel g k ok g' k' :
  move_snake draws fuel g k = Done ((ok, g'), k') ->
  exists head rest, snake g = head :: rest /\
    ((ok = false /\ g' = g /\ k' = k /\
      (is_valid_position (config g) (pos_add head (direction g)) = false \/
       pos_in (pos_add head (direction g)) (snake g) = true)) \/
     (ok = true /\ k' = k /\
      is_valid_position (config g) (pos_add head (direction g)) = true /\
      pos_in (pos_add head (direction g)) (snake g) = false /\
      pos_eq (pos_add head (direction g)) (food g) = false /\
      g' = mkSnakeGame (config g)
             (removelast (pos_add head (direction g) :: snake g))
             (direction g) (food g) (score g) (food_eaten g) (start_time g)
             (moves_made g + 1) (game_state g)) \/
     (ok = true /\
      is_valid_position (config g) (pos_add head (direction g)) = true /\
      pos_in (pos_add head (direction g)) (snake g) = false /\
      pos_eq (pos_add head (direction g)) (food g) = true /\
      exists fd,
        generate_food draws fuel (config g)
          (pos_add head (direction g) :: snake g) k = Done (fd, k') /\
        g' = mkSnakeGame (config g) (pos_add head (direction g) :: snake g)
               (direction g) fd (score g + 10) (food_eaten g + 1)
               (start_time g) (moves_made g + 1) (game_state g))).
Proof.
  intros Hm.
  destruct (snake g) as [| head rest] eqn:Hs.
  { unfold move_snake in Hm. rewrite Hs in Hm. discriminate. }
  exists head, rest. split; [reflexivity |]. rewrite <- Hs.
  destruct (is_valid_position (config g) (pos_add head (direction g))) eqn:Hv.
  2:{ rewrite (move_snake_collision draws fuel g head rest k Hs (or_introl Hv))
        in Hm.
      inversion Hm; subst. left. auto. }
  destruct (pos_in (pos_add head (direction g)) (snake g)) eqn:Hin.
  { rewrite (move_snake_collision draws fuel g head rest k Hs (or_intror Hin))
      in Hm.
    inversion Hm; subst. left. auto. }
  destruct (pos_eq (pos_add head (direction g)) (food g)) eqn:Hf.
  - rewrite (move_snake_eat draws fuel g head rest k Hs Hv Hin Hf) in Hm.
    destruct (generate_food draws fuel (config g) _ k) as [[fd k1] | e |] eqn:Hg;
      try discriminate.
    inversion Hm; subst. right. right. repeat split. exists fd. auto.
  - rewrite (move_snake_plain draws fuel g head rest k Hs Hv Hin Hf) in Hm.
    inversion Hm; subst. right. left. repeat split.
Qed.

(** The counters of a reachable game. *)
Lemma reachable_counters g :
  reachable draws g ->
  Z.of_nat (length (snake g)) = 3 + food_eaten g /\
  score g = 10 * food_eaten g /\
  0 <= food_eaten g <= moves_made g.
Proof.
  induction 1 as [fuel cfg now k g k' H | g d _ IH | fuel g k ok g' k' _ IH H
                 | g st _ IH].
  - unfold reset_game, bind, ret in H.
    destruct (generate_food draws fuel cfg _ k) as [[fd k1] | e |];
      try discriminate.
    inversion H; subst. simpl. lia.
  - destruct (change_direction_cases g d) as [-> | [_ ->]]; exact IH.
  - apply move_snake_cases in H.
    destruct H as (head & rest & Hs &
                   [(_ & -> & _) | [(_ & _ & _ & _ & _ & ->)
                                   | (_ & _ & _ & _ & fd & _ & ->)]]).
    + exact IH.
    + cbn [snake score food_eaten moves_made].
      rewrite length_removelast_cons. lia.
    + cbn [snake score food_eaten moves_made length].
      rewrite Nat2Z.inj_succ. lia.
  - exact IH.
Qed.

Lemma removelast_head {A : Type} (a b : A) (l : list A) :
  removelast (a :: b :: l) = a :: removelast (b :: l).
Proof. reflexivity. Qed.

(** Where the segments of a reachable game are. *)
Lemma reachable_on_board g :
  reachable draws g ->
  (exists head rest, snake g = head :: rest /\ on_board (config g) head) /\
  on_board (config g) (food g) /\
  (4 <= board_width (config g) -> Forall (on_board (config g)) (snake g)).
Proof.
  induction 1 as [fuel cfg now k g k' H | g d _ IH | fuel g k ok g' k' R IH H
                 | g st _ IH].
  - unfold reset_game, bind, ret in H.
    destruct (generate_food draws fuel cfg _ k) as [[fd k1] | e |] eqn:Hg;
      try discriminate.
    inversion H; subst; clear H. cbn [snake config food].
    apply generate_food_sound in Hg. destruct Hg as (_ & Hfd & Hw & Hh).
    apply is_valid_position_true in Hfd.
    pose proof (Z.div_pos (board_width cfg) 2 ltac:(lia) ltac:(lia)).
    pose proof (Z.div_pos (board_height cfg) 2 ltac:(lia) ltac:(lia)).
    pose proof (Z.div_lt (board_width cfg) 2 Hw ltac:(lia)).
    pose proof (Z.div_lt (board_height cfg) 2 Hh ltac:(lia)).
    split; [| split; [exact Hfd |]].
    + eexists _, _. split; [reflexivity |]. unfold on_board. simpl. lia.
    + intros H4.
      pose proof (Z.div_le_lower_bound (board_width cfg) 2 2 ltac:(lia)
                    ltac:(lia)).
      repeat constructor; unfold on_board; simpl; lia.
  - destruct (change_direction_cases g d) as [-> | [_ ->]]; exact IH.
  - destruct IH as (Hhead & Hfood & Hall).
    apply move_snake_cases in H.
    destruct H as (head & rest & Hs &
                   [(_ & -> & _) | [(_ & _ & Hv & _ & _ & ->)
                                   | (_ & Hv & _ & _ & fd & Hg & ->)]]).
    + auto.
    + cbn [snake config food]. apply is_valid_position_true in Hv.
      split; [| split; [exact Hfood |]].
      * rewrite Hs, removelast_head. eexists _, _. split; [reflexivity |].
        exact Hv.
      * intros H4. apply Forall_forall. intros p Hp.
        apply In_removelast in Hp. destruct Hp as [<- | Hp]; [exact Hv |].
        specialize (Hall H4). rewrite Forall_forall in Hall. apply Hall.
        exact Hp.
    + cbn [snake config food]. apply is_valid_position_true in Hv.
      apply generate_food_sound in Hg. destruct Hg as (_ & Hfd & _).
      apply is_valid_position_true in Hfd.
      split; [| split; [exact Hfd |]].
      * eexists _, _. split; [reflexivity | exact Hv].
      * intros H4. constructor; [exact Hv | apply Hall; exact H4].
  - exact IH.
Qed.

End MoreEngineFacts.

Lemma game_after_food_reachable :
  reachable food_ahead_draws game_after_food.
Proof.
  apply (reach_move_snake food_ahead_draws 1 game_before_food 2 true
           game_after_food 4 game_before_food_reachable).
  vm_compute. reflexivity.
Qed.

Lemma pos_add_opposite (p : Position) (d : Direction) :
  pos_add (pos_add p d) (opposite d) = p.
Proof. destruct p as [px py], d; unfold pos_add; simpl; f_equal; lia. Qed.

Lemma pos_add_back (p : Position) (d d' : Direction) :
  pos_add (pos_add p d) d' = p -> d' = opposite d.
Proof.
  destruct p as [px py], d, d'; unfold pos_add; simpl; intros H;
    inversion H; try reflexivity; lia.
Qed.

Lemma opposite_involutive d : opposite (opposite d) = d.
Proof. destruct d; reflexivity. Qed.

Lemma opposite_differs d : opposite d <> d.
Proof. destruct d; discriminate. Qed.

Lemma press_playing (d : Direction) (s : Session) :
  game_state (game s) = PLAYING ->
  press d s =
  mkSession (change_direction (game s) d) (last_move_time s) (game_stats s).
Proof. intros H. unfold press. rewrite H. reflexivity. Qed.

(** ** Further properties of the engine *)

(** The counters of a game agree: in every reachable game the snake has
    three segments plus one per food eaten, whatever [initial_length] says,
    the score is ten times the food eaten, and no more food was eaten than
    moves were made. *)
Theorem snake_length_and_score_follow_food
  (draws : nat -> Z) (g : SnakeGame) :
  reachable draws g ->
  Z.of_nat (length (snake g)) = 3 + food_eaten g /\
  score g = 10 * food_eaten g /\
  0 <= food_eaten g <= moves_made g.
Proof. apply reachable_counters. Qed.

Lemma counters_after_food :
  Z.of_nat (length (snake game_after_food)) = 3 + food_eaten game_after_food /\
  score game_after_food = 10 * food_eaten game_after_food /\
  0 <= food_eaten game_after_food <= moves_made game_after_food.
Proof.
  exact (snake_length_and_score_follow_food food_ahead_draws game_after_food
           game_after_food_reachable).
Defined.

(** In every reachable game the head and the food are on the board, and on
    a board at least four cells wide so is every segment.  (On a narrower
    board the tail laid by [reset_game] sticks out on the left.) *)
Theorem head_and_food_are_on_board (draws : nat -> Z) (g : SnakeGame) :
  reachable draws g ->
  (exists head rest, snake g = head :: rest /\ on_board (config g) head) /\
  on_board (config g) (food g) /\
  (4 <= board_width (config g) -> Forall (on_board (config g)) (snake g)).
Proof. apply reachable_on_board. Qed.

Lemma game_after_food_is_on_board :
  on_board (config game_after_food) (food game_after_food) /\
  Forall (on_board (config game_after_food)) (snake game_after_food).
Proof.
  destruct (head_and_food_are_on_board food_ahead_draws game_after_food
              game_after_food_reachable) as (_ & Hfood & Hall).
  split; [exact Hfood | apply Hall; simpl; lia].
Defined.

(** The guard of [change_direction] works for one press between two moves:
    when the snake has just moved in its stored direction (the head is the
    cell after the neck), one press of a direction button never turns the
    next head back onto the neck. *)
Theorem one_press_cannot_reverse
  (s : Session) (d : Direction) (head neck : Position) (rest : list Position) :
  snake (game s) = head :: neck :: rest ->
  pos_add neck (direction (game s)) = head ->
  pos_add head (direction (game (press d s))) <> neck.
Proof.
  intros Hs Hhead Hback. rewrite <- Hhead in Hback.
  apply pos_add_back in Hback.
  unfold press in Hback.
  destruct (GameState_eqb (game_state (game s)) PLAYING);
    cbn [game] in Hback.
  - destruct (change_direction_cases (game s) d) as [E | [Hne E]];
      rewrite E in Hback.
    + symmetry in Hback. exact (opposite_differs _ Hback).
    + cbn [set_direction direction] in Hback. contradiction.
  - symmetry in Hback. exact (opposite_differs _ Hback).
Qed.

Lemma fresh_game_cannot_reverse :
  pos_add (mkPosition 10 7) (direction (game (press LEFT playing_session)))
  <> mkPosition 9 7.
Proof.
  apply (one_press_cannot_reverse playing_session LEFT (mkPosition 10 7)
           (mkPosition 9 7) [mkPosition 8 7]); reflexivity.
Defined.

(** Two presses between two moves get round the guard: it compares a
    request with the stored direction, not with the direction of the last
    move.  In a playing game whose head is the cell after the neck, a
    press of a direction across the current one followed by a press of the
    opposite of the current one stores the opposite, and the next move runs
    the head into the neck (or into a wall): the game is over, with the
    snake as it was. *)
Theorem two_presses_reverse_the_snake
  (draws : nat -> Z) (fuel : nat) (now : Q) (k : nat)
  (s : Session) (across : Direction) (head neck : Position)
  (rest : list Position) :
  game_state (game s) = PLAYING ->
  snake (game s) = head :: neck :: rest ->
  pos_add neck (direction (game s)) = head ->
  across <> direction (game s) -> across <> opposite (direction (game s)) ->
  let s2 := press (opposite (direction (game s))) (press across s) in
  direction (game s2) = opposite (direction (game s)) /\
  pos_add head (direction (game s2)) = neck /\
  exists s', move draws fuel now s2 k = Done (s', k) /\
    game_state (game s') = GAME_OVER /\ snake (game s') = snake (game s).
Proof.
  intros Hplay Hs Hhead Hne1 Hne2.
  assert (Hs2 : press (opposite (direction (game s))) (press across s) =
                mkSession (set_direction (game s) (opposite (direction (game s))))
                  (last_move_time s) (game_stats s)).
  { assert (E1 : change_direction (game s) across
                 = set_direction (game s) across).
    { destruct (change_direction_cases (game s) across) as [E | [_ E]];
        [| exact E].
      unfold change_direction in *.
      destruct (Direction_eqb across (opposite (direction (game s)))) eqn:Ed;
        [| reflexivity].
      apply Direction_eqb_true in Ed. contradiction. }
    assert (E2 : change_direction (set_direction (game s) across)
                   (opposite (direction (game s)))
                 = set_direction (game s) (opposite (direction (game s)))).
    { unfold change_direction. cbn [set_direction direction].
      destruct (Direction_eqb (opposite (direction (game s))) (opposite across))
        eqn:Ed; [| reflexivity].
      apply Direction_eqb_true in Ed.
      apply (f_equal opposite) in Ed. rewrite !opposite_involutive in Ed.
      congruence. }
    rewrite (press_playing across s Hplay).
    rewrite press_playing; cbn [game last_move_time game_stats];
      [| rewrite E1; exact Hplay].
    rewrite E1, E2. reflexivity. }
  cbn zeta. rewrite Hs2. cbn [game set_direction direction].
  split; [reflexivity |].
  assert (Hneck : pos_add head (opposite (direction (game s))) = neck).
  { rewrite <- Hhead. apply pos_add_opposite. }
  split; [exact Hneck |].
  eexists. split.
  - apply (move_collision draws fuel now _ head (neck :: rest) k).
    + exact Hs.
    + right. cbn [game set_direction direction snake config]. rewrite Hneck.
      apply pos_in_true. rewrite Hs. right. left. reflexivity.
  - split; reflexivity.
Qed.

Lemma fresh_game_can_be_reversed :
  exists s',
    move counting_draws 0 1 (press LEFT (press UP playing_session)) 2%nat
      = Done (s', 2%nat) /\
    game_state (game s') = GAME_OVER.
Proof.
  destruct (two_presses_reverse_the_snake counting_draws 0 1 2 playing_session
              UP (mkPosition 10 7) (mkPosition 9 7) [mkPosition 8 7]
              eq_refl eq_refl eq_refl ltac:(discriminate) ltac:(discriminate))
    as (_ & _ & s' & Hm & Hst & _).
  exists s'. split; assumption.
Defined.

Section SessionFacts.

Variable draws : nat -> Z.

Lemma move_keeps_score_below_high_score fuel now s k s' k' :
  move draws fuel now s k = Done (s', k') ->
  (game_state (game s') = GAME_OVER ->
   game_state (game s) <> GAME_OVER ->
   score (game s') <= high_score (game_stats s')) /\
  (game_state (game s') <> GAME_OVER ->
   game_state (game s') = game_state (game s)).
Proof.
  unfold move, bind.
  destruct (move_snake draws fuel (game s) k) as [[[ok g] k1] | e |] eqn:Hm;
    try discriminate.
  apply move_snake_cases in Hm.
  destruct Hm as (head & rest & Hs &
                  [(-> & -> & _) | [(-> & _ & _ & _ & _ & ->)
                                   | (-> & _ & _ & _ & fd & _ & ->)]]);
    simpl; unfold ret; intros H; inversion H; subst; clear H;
    cbn [game game_stats set_game_state game_state score update_stats high_score].
  - split; [| congruence]. intros _ _.
    destruct (high_score (game_stats s) <? score (game s)) eqn:E.
    + lia.
    + apply Z.ltb_ge in E. exact E.
  - split; [intros H1 H2; contradiction | reflexivity].
  - split; [intros H1 H2; contradiction | reflexivity].
Qed.

(** A finished game has been counted: its score is at most the high
    score. *)
Definition counted (s : Session) : Prop :=
  game_state (game s) = GAME_OVER ->
  score (game s) <= high_score (game_stats s).

Lemma session_step_counted s s' :
  session_step draws s s' -> counted s -> counted s'.
Proof.
  intros Hstep Hc. unfold counted in *.
  destruct Hstep as [fuel now s k s' k' H | s | now s | d s
                    | fuel speed_ms now s k s' k' H].
  - unfold new_game, reset_game, bind, ret in H.
    destruct (generate_food draws fuel default_config _ k) as [[fd k1] | e |];
      try discriminate.
    inversion H; subst. simpl. discriminate.
  - unfold pause. destruct (game_state (game s)) eqn:E; simpl;
      try rewrite E; try discriminate; exact Hc.
  - unfold resume. destruct (game_state (game s)) eqn:E; simpl;
      try rewrite E; try discriminate; exact Hc.
  - unfold press.
    destruct (GameState_eqb (game_state (game s)) PLAYING); [| exact Hc].
    cbn [game game_stats].
    destruct (change_direction_frame (game s) d)
      as (_ & _ & _ & Hsc & _ & _ & _ & Hst).
    rewrite Hsc, Hst. exact Hc.
  - unfold auto_move in H.
    destruct (GameState_eqb (game_state (game s)) PLAYING) eqn:E.
    + apply GameState_eqb_true in E.
      destruct (Qle_bool _ _).
      * apply move_keeps_score_below_high_score in H.
        destruct H as [H _]. intros Hover. apply H; [exact Hover | congruence].
      * inversion H; subst. exact Hc.
    + inversion H; subst. exact Hc.
Qed.

Lemma session_reachable_counted s : session_reachable draws s -> counted s.
Proof.
  induction 1 as [fuel now k g k' H | s s' _ IH Hstep].
  - unfold reset_game, bind, ret in H.
    destruct (generate_food draws fuel default_config _ k) as [[fd k1] | e |];
      try discriminate.
    inversion H; subst. unfold counted. simpl. discriminate.
  - exact (session_step_counted s s' Hstep IH).
Qed.

End SessionFacts.

(** The "New High Score" message of the game-over screen is never shown:
    the move that ends a game writes the high score before the screen
    compares the score with it.  In every session [main] can reach, the
    test for the message is false. *)
Theorem new_high_score_is_never_shown (draws : nat -> Z) (s : Session) :
  session_reachable draws s -> new_high_score_shown s = false.
Proof.
  intros R. apply session_reachable_counted in R. unfold counted in R.
  unfold new_high_score_shown.
  destruct (GameState_eqb (game_state (game s)) GAME_OVER) eqn:E;
    [| reflexivity].
  apply GameState_eqb_true in E. specialize (R E).
  simpl. apply Z.ltb_ge. exact R.
Qed.

(** A finished game stays as it is: when the game is over, "Pause",
    "Resume", the direction buttons and the timed move each leave the
    session exactly as it was, so the game is counted once in the
    statistics; only "New Game" leaves the state, for a game that is
    playing, with the statistics kept. *)
Theorem game_over_is_final (draws : nat -> Z) (s : Session) :
  game_state (game s) = GAME_OVER ->
  pause s = s /\
  (forall now, resume now s = s) /\
  (forall d, press d s = s) /\
  (forall fuel speed_ms now k,
     auto_move draws fuel speed_ms now s k = Done (s, k)) /\
  (forall fuel now k s' k',
     new_game draws fuel now s k = Done (s', k') ->
     game_state (game s') = PLAYING /\ game_stats s' = game_stats s) /\
  (forall s', session_step draws s s' ->
     s' = s \/
     exists fuel now k k', new_game draws fuel now s k = Done (s', k')).
Proof.
  intros Hover.
  assert (Hpause : pause s = s) by (unfold pause; rewrite Hover; reflexivity).
  assert (Hresume : forall now, resume now s = s)
    by (intros now; unfold resume; rewrite Hover; reflexivity).
  assert (Hpress : forall d, press d s = s)
    by (intros d; unfold press; rewrite Hover; reflexivity).
  assert (Hauto : forall fuel speed_ms now k,
            auto_move draws fuel speed_ms now s k = Done (s, k))
    by (intros fuel speed_ms now k; unfold auto_move; rewrite Hover;
        reflexivity).
  split; [exact Hpause |]. split; [exact Hresume |].
  split; [exact Hpress |]. split; [exact Hauto |]. split.
  - intros fuel now k s' k' H.
    unfold new_game, reset_game, bind, ret in H.
    destruct (generate_food draws fuel default_config _ k) as [[fd k1] | e |];
      try discriminate.
    inversion H; subst. split; reflexivity.
  - intros s' Hstep. remember s as s0 eqn:E in Hstep.
    destruct Hstep as [fuel now s1 k s' k' H | s1 | now s1 | d s1
                      | fuel speed_ms now s1 k s' k' H]; subst s1.
    + right. exists fuel, now, k, k'. exact H.
    + left. exact Hpause.
    + left. apply Hresume.
    + left. apply Hpress.
    + left. rewrite Hauto in H. inversion H. reflexivity.
Qed.

(** ** Facts about the board *)

Lemma map_NoDup_injective {A B : Type} (f : A -> B) (l : list A) :
  (forall a b, f a = f b -> a = b) -> NoDup l -> NoDup (map f l).
Proof.
  intros Hinj. induction 1 as [| h t Hh Ht IH]; simpl; constructor;
    [| exact IH].
  intros Hin. apply in_map_iff in Hin. destruct Hin as [a [E Ha]].
  apply Hinj in E. subst a. contradiction.
Qed.

Lemma append_nil_r (s : string) : (s ++ EmptyString)%string = s.
Proof. induction s as [| c s IH]; simpl; [reflexivity | rewrite IH; reflexivity]. Qed.

Lemma append_assoc (a b c : string) :
  ((a ++ b) ++ c)%string = (a ++ (b ++ c))%string.
Proof. induction a as [| ch a IH]; simpl; [reflexivity | rewrite IH; reflexivity]. Qed.

Lemma range_In (n z : Z) : In z (range n) <-> 0 <= z < n.
Proof.
  unfold range. rewrite in_map_iff. split.
  - intros [i [<- Hi]]. apply in_seq in Hi. lia.
  - intros H. exists (Z.to_nat z). split; [lia |]. apply in_seq. lia.
Qed.

Lemma range_NoDup (n : Z) : NoDup (range n).
Proof.
  unfold range. apply map_NoDup_injective; [| apply seq_NoDup].
  intros a b H. lia.
Qed.

Lemma range_length (n : Z) : length (range n) = Z.to_nat n.
Proof. unfold range. rewrite length_map, length_seq. reflexivity. Qed.

Lemma board_positions_In (cfg : GameConfig) (p : Position) :
  In p (board_positions cfg) <-> on_board cfg p.
Proof.
  unfold board_positions, on_board. rewrite in_flat_map. split.
  - intros [py [Hy Hp]]. apply in_map_iff in Hp. destruct Hp as [px [<- Hx]].
    apply range_In in Hx, Hy. simpl. lia.
  - intros [Hx Hy]. exists (y p). split; [apply range_In; exact Hy |].
    apply in_map_iff. exists (x p). split; [destruct p; reflexivity |].
    apply range_In. exact Hx.
Qed.

Lemma rows_NoDup (w : Z) (rows : list Z) :
  NoDup rows ->
  NoDup (flat_map (fun py => map (fun px => mkPosition px py) (range w)) rows).
Proof.
  induction 1 as [| r rows Hr Hrows IH]; simpl; [constructor |].
  apply NoDup_app.
  - apply map_NoDup_injective; [| apply range_NoDup].
    intros a b H. inversion H. reflexivity.
  - exact IH.
  - intros p Hp Hq. apply in_map_iff in Hp. destruct Hp as [px [<- _]].
    apply in_flat_map in Hq. destruct Hq as [py [Hpy Hq]].
    apply in_map_iff in Hq. destruct Hq as [px' [E _]].
    inversion E; subst. contradiction.
Qed.

Lemma board_positions_NoDup (cfg : GameConfig) : NoDup (board_positions cfg).
Proof. apply rows_NoDup. apply range_NoDup. Qed.

Lemma board_positions_length (cfg : GameConfig) :
  length (board_positions cfg)
  = (Z.to_nat (board_height cfg) * Z.to_nat (board_width cfg))%nat.
Proof.
  unfold board_positions. rewrite <- (range_length (board_height cfg)).
  induction (range (board_height cfg)) as [| r rows IH]; simpl; [reflexivity |].
  rewrite length_app, length_map, range_length, IH. reflexivity.
Qed.

(** One element of a list without repetition is the only one of its
    image. *)
Lemma count_occ_unique {A : Type} (f : A -> string) (c : string) (a : A)
  (l : list A) :
  NoDup l -> In a l -> (forall p, In p l -> (f p = c <-> p = a)) ->
  count_occ string_dec (map f l) c = 1%nat.
Proof.
  induction 1 as [| h t Hh Ht IH]; intros Hin Hf; [destruct Hin |].
  simpl. destruct (string_dec (f h) c) as [E | E].
  - apply (Hf h (or_introl eq_refl)) in E. subst h. f_equal.
    apply count_occ_not_In. intros Hc. apply in_map_iff in Hc.
    destruct Hc as [p [Hp Hpin]].
    apply (Hf p (or_intror Hpin)) in Hp. subst p. contradiction.
  - destruct Hin as [-> | Hin].
    + exfalso. apply E. apply (Hf a (or_introl eq_refl)). reflexivity.
    + apply IH; [exact Hin |]. intros p Hp. apply Hf. right. exact Hp.
Qed.

Lemma render_cells_classes g head body :
  snake g = head :: body ->
  forall cells board_html,
  render_cells g cells board_html =
  Done (board_html ++
        join (map (fun pos => "<div class=" ++ dquote ++ "cell "
                                ++ class_of g head body pos ++ dquote
                                ++ "></div>") cells))%string.
Proof.
  intros Hs. induction cells as [| pos rest IH]; intros html; simpl.
  - rewrite append_nil_r. reflexivity.
  - cbn [join fold_right]. unfold cell_class. rewrite Hs. fold (class_of g head body pos).
    assert (E : (if pos_eq pos head then Done "snake-head"%string
                 else if pos_in pos body then Done "snake-body"%string
                 else if pos_eq pos (food g) then Done "food"%string
                 else Done "empty"%string)
                = Done (class_of g head body pos)).
    { unfold class_of. destruct (pos_eq pos head); [reflexivity |].
      destruct (pos_in pos body); [reflexivity |].
      destruct (pos_eq pos (food g)); reflexivity. }
    rewrite E, IH. rewrite (append_assoc html). reflexivity.
Qed.

Lemma session_reachable_auto_moves draws fuel speed_ms times :
  forall s k s' k',
  session_reachable draws s ->
  auto_moves draws fuel speed_ms times s k = Done (s', k') ->
  session_reachable draws s'.
Proof.
  induction times as [| now times IH]; intros s k s' k' R H; simpl in H.
  - inversion H; subst. exact R.
  - unfold bind in H.
    destruct (auto_move draws fuel speed_ms now s k) as [[s1 k1] | e |] eqn:E;
      try discriminate.
    apply (IH s1 k1 s' k'); [| exact H].
    apply (session_next draws s s1 R).
    apply (step_auto_move draws fuel speed_ms now s k s1 k1 E).
Qed.

Lemma over_session_reachable : session_reachable counting_draws over_session.
Proof.
  apply (session_reachable_auto_moves counting_draws 0 0
           [0%Q; 0%Q; 0%Q; 0%Q; 0%Q; 0%Q; 0%Q; 0%Q; 0%Q; 0%Q]
           playing_session 2 over_session 2).
  - apply (session_first counting_draws 1 0 0 fresh_game 2).
    vm_compute. reflexivity.
  - vm_compute. reflexivity.
Qed.

Lemma no_message_at_the_wall : new_high_score_shown over_session = false.
Proof.
  exact (new_high_score_is_never_shown counting_draws over_session
           over_session_reachable).
Defined.

Lemma over_session_stays :
  pause over_session = over_session /\
  forall d, press d over_session = over_session.
Proof.
  destruct (game_over_is_final counting_draws over_session eq_refl)
    as (Hpause & _ & Hpress & _).
  split; [exact Hpause | exact Hpress].
Defined.

(** The board of a reachable game: [render_game_board] returns the opening
    tag, one cell per position of the board, row by row, and the closing
    tag.  Exactly one cell is the head and exactly one is the food, which
    the snake never hides; the cells of the body are those of the other
    segments. *)
Theorem board_shows_head_and_food (draws : nat -> Z) (g : SnakeGame) :
  reachable draws g ->
  exists head body,
    snake g = head :: body /\
    render_game_board g =
      Done (board_header g
            ++ join (map (fun pos => cell_html (class_of g head body pos))
                       (board_positions (config g)))
            ++ "</div>")%string /\
    length (board_positions (config g))
      = (Z.to_nat (board_height (config g))
         * Z.to_nat (board_width (config g)))%nat /\
    (forall pos, class_of g head body pos = "snake-head"%string <-> pos = head) /\
    (forall pos, class_of g head body pos = "snake-body"%string <-> In pos body) /\
    (forall pos, class_of g head body pos = "food"%string <-> pos = food g) /\
    count_occ string_dec
      (map (class_of g head body) (board_positions (config g)))
      "snake-head"%string = 1%nat /\
    count_occ string_dec
      (map (class_of g head body) (board_positions (config g)))
      "food"%string = 1%nat.
Proof.
  intros R.
  destruct (reachable_on_board draws g R) as ((head & body & Hs & Hhead) & Hfood & _).
  destruct (reachable_well_formed draws g R) as (Hnd & Hfs & _).
  rewrite Hs in Hnd, Hfs. inversion Hnd as [| ? ? Hhb Hbody]; subst.
  assert (Hfh : food g <> head) by (intros E; apply Hfs; left; auto).
  assert (Hfb : ~ In (food g) body) by (intros E; apply Hfs; right; exact E).
  assert (Hclass_head : forall pos,
            class_of g head body pos = "snake-head"%string <-> pos = head).
  { intros pos. unfold class_of.
    destruct (pos_eq pos head) eqn:E1.
    - apply pos_eq_true in E1. tauto.
    - apply pos_eq_false in E1.
      destruct (pos_in pos body); [split; [discriminate | tauto] |].
      destruct (pos_eq pos (food g)); split; (discriminate || tauto). }
  assert (Hclass_body : forall pos,
            class_of g head body pos = "snake-body"%string <-> In pos body).
  { intros pos. unfold class_of.
    destruct (pos_eq pos head) eqn:E1.
    - apply pos_eq_true in E1. subst pos. split; [discriminate | contradiction].
    - destruct (pos_in pos body) eqn:E2.
      + apply pos_in_true in E2. tauto.
      + apply pos_in_false in E2.
        destruct (pos_eq pos (food g)); split; (discriminate || tauto). }
  assert (Hclass_food : forall pos,
            class_of g head body pos = "food"%string <-> pos = food g).
  { intros pos. unfold class_of.
    destruct (pos_eq pos head) eqn:E1.
    - apply pos_eq_true in E1. subst pos. split; [discriminate | congruence].
    - destruct (pos_in pos body) eqn:E2.
      + apply pos_in_true in E2. split; [discriminate | congruence].
      + destruct (pos_eq pos (food g)) eqn:E3.
        * apply pos_eq_true in E3. tauto.
        * apply pos_eq_false in E3. split; [discriminate | tauto]. }
  exists head, body. split; [exact Hs |].
  split; [| split; [apply board_positions_length |
            split; [exact Hclass_head |
            split; [exact Hclass_body | split; [exact Hclass_food | split]]]]].
  - unfold render_game_board. fold (board_header g).
    rewrite (render_cells_classes g head body Hs).
    rewrite append_assoc. reflexivity.
  - apply (count_occ_unique _ _ head).
    + apply board_positions_NoDup.
    + apply board_positions_In. exact Hhead.
    + intros p _. apply Hclass_head.
  - apply (count_occ_unique _ _ (food g)).
    + apply board_positions_NoDup.
    + apply board_positions_In. exact Hfood.
    + intros p _. apply Hclass_food.
Qed.

Lemma board_after_food :
  exists head body,
    snake game_after_food = head :: body /\
    count_occ string_dec
      (map (class_of game_after_food head body)
         (board_positions (config game_after_food)))
      "food"%string = 1%nat.
Proof.
  destruct (board_shows_head_and_food food_ahead_draws game_after_food
              game_after_food_reachable)
    as (head & body & Hs & _ & _ & _ & _ & _ & _ & Hfood).
  exists head, body. split; assumption.
Defined.

(** [show_achievements] displays the last three achievements earned, in
    the order Food Lover, Snake Master, Century Club, Persistent Player,
    Movement Master: Snake Master comes with Food Lover, Movement Master is
    displayed whenever it is earned, and Food Lover is displayed only
    while at most three achievements are earned. *)
Theorem last_three_achievements_are_shown (stats : GameStats) :
  (forall a, In a (shown_achievements stats) -> In a (achievements stats)) /\
  length (shown_achievements stats)
    = Nat.min 3 (length (achievements stats)) /\
  (In SnakeMaster (achievements stats) -> In FoodLover (achievements stats)) /\
  (In MovementMaster (achievements stats) ->
   In MovementMaster (shown_achievements stats)) /\
  (In FoodLover (shown_achievements stats) <->
   In FoodLover (achievements stats) /\
   (length (achievements stats) <= 3)%nat).
Proof.
  unfold shown_achievements, last_three, achievements.
  destruct (10 <=? stats_food_eaten stats) eqn:E1;
    destruct (50 <=? stats_food_eaten stats) eqn:E2;
    destruct (100 <=? high_score stats);
    destruct (10 <=? games_played stats);
    destruct (1000 <=? stats_moves_made stats);
    try (apply Z.leb_gt in E1; apply Z.leb_le in E2; lia);
    simpl; repeat split; intros; simpl in *;
    intuition (try discriminate; try lia).
Qed.

Lemma veteran_does_not_see_food_lover :
  In FoodLover (achievements veteran_stats) /\
  ~ In FoodLover (shown_achievements veteran_stats).
Proof.
  split; [left; reflexivity |].
  intros H.
  apply (proj1 (proj2 (proj2 (proj2 (proj2
           (last_three_achievements_are_shown veteran_stats)))))) in H.
  destruct H as [_ H]. vm_compute in H. lia.
Defined.

End Snake.

(* ===================================================================== *)
(** * The expense-settlement optimizer *)
(* ===================================================================== *)

Module Splitter.

Open Scope Q_scope.

(** ** Data model *)

(** The literal [0.01] of the two thresholds. *)
Definition eps : Q := 1 # 100.

(** [a < b] on rationals, as a boolean. *)
Definition Qltb (a b : Q) : bool :=
  (Qnum a * QDen b <? Qnum b * QDen a)%Z.

(** The argument [results]: a dict from a participant's name to the data of
    the participant, of which only the entry ['balance'] is read.  It is
    kept as the list of its items in insertion order, the order in which
    [results.items()] yields them; the keys of a dict are distinct. *)
Definition results_dict : Type := list (string * Q).

Definition keys (results : results_dict) : list string := map fst results.

(** An element of [debtors] or [creditors]: [{'name': .., 'amount': ..}]. *)
Record entry : Type := mkEntry { name : string; amount : Q }.

(** An element of [transactions]: [{'from': .., 'to': .., 'amount': ..}]. *)
Record transaction : Type := mkTransaction {
  txn_from : string;
  txn_to : string;
  txn_amount : Q
}.

(** ** [optimize_payments] *)

(** The first loop: every item is appended to [debtors], to [creditors] or
    to neither. *)
Definition classify_step (acc : list entry * list entry) (item : string * Q)
  : list entry * list entry :=
  let '(debtors, creditors) := acc in
  let '(nm, bal) := item in
  if Qltb bal (- eps) then (debtors ++ [mkEntry nm (- bal)], creditors)
  else if Qltb eps bal then (debtors, creditors ++ [mkEntry nm bal])
  else (debtors, creditors).

Definition classify (results : results_dict) : list entry * list entry :=
  fold_left classify_step results ([], []).

(** [l.sort(key=lambda x: x['amount'], reverse=True)]: a stable sort by
    decreasing amount, as an insertion sort. *)
Fixpoint insert_desc (e : entry) (l : list entry) : list entry :=
  match l with
  | [] => [e]
  | h :: t =>
      if Qltb (amount e) (amount h) then h :: insert_desc e t
      else e :: h :: t
  end.

Definition sort_desc (l : list entry) : list entry :=
  fold_right insert_desc [] l.

(** The second loop.  The entries at the indices [i] and [j] are the heads
    of the two lists; an assignment to [debtors[i]['amount']] or
    [creditors[j]['amount']] replaces the head. *)
Equations? settle (debtors creditors : list entry) : list transaction
  by wf (length debtors + length creditors)%nat lt :=
  settle [] _ := [];
  settle (_ :: _) [] := [];
  settle (d :: ds) (c :: cs) with Qltb (amount d) (amount c) := {
    | true :=
        mkTransaction (name d) (name c) (amount d)
        :: settle ds (mkEntry (name c) (amount c - amount d) :: cs);
    | false with Qltb (amount c) (amount d) := {
      | true :=
          mkTransaction (name d) (name c) (amount c)
          :: settle (mkEntry (name d) (amount d - amount c) :: ds) cs;
      | false :=
          mkTransaction (name d) (name c) (amount d) :: settle ds cs } }.
Proof. all: simpl; lia. Qed.

Definition optimize_payments (results : results_dict) : list transaction :=
  let '(debtors, creditors) := classify results in
  settle (sort_desc debtors) (sort_desc creditors).

(** ** What a settlement does to the balances *)

(** Adding [delta] to the balance of [who]. *)
Definition adjust (who : string) (delta : Q) (balances : results_dict)
  : results_dict :=
  map (fun item => if String.eqb who (fst item)
                   then (fst item, snd item + delta) else item) balances.

(** Carrying out a transfer: the sender has paid [amount] more, the
    receiver has got [amount] back.  A balance is what was paid minus what
    was due, so the sender's balance rises and the receiver's falls. *)
Definition pay (balances : results_dict) (t : transaction) : results_dict :=
  adjust (txn_to t) (- txn_amount t) (adjust (txn_from t) (txn_amount t) balances).

Definition apply_transfers (balances : results_dict) (txns : list transaction)
  : results_dict :=
  fold_left pay txns balances.



(** Sums. *)
Fixpoint sum_balances (balances : results_dict) : Q :=
  match balances with
  | [] => 0
  | item :: rest => snd item + sum_balances rest
  end.

Fixpoint total (l : list entry) : Q :=
  match l with
  | [] => 0
  | e :: rest => amount e + total rest
  end.

(** What the entries named [n] amount to. *)
Fixpoint owed (n : string) (l : list entry) : Q :=
  match l with
  | [] => 0
  | e :: rest =>
      if String.eqb (name e) n then amount e + owed n rest else owed n rest
  end.

Fixpoint transferred (txns : list transaction) : Q :=
  match txns with
  | [] => 0
  | t :: rest => txn_amount t + transferred rest
  end.

(** What [n] pays, and what [n] receives, over a list of transfers. *)
Fixpoint paid_by (n : string) (txns : list transaction) : Q :=
  match txns with
  | [] => 0
  | t :: rest =>
      if String.eqb (txn_from t) n then txn_amount t + paid_by n rest
      else paid_by n rest
  end.

Fixpoint received_by (n : string) (txns : list transaction) : Q :=
  match txns with
  | [] => 0
  | t :: rest =>
      if String.eqb (txn_to t) n then txn_amount t + received_by n rest
      else received_by n rest
  end.

(** The sum of the balances that the first loop passes over: those within
    [0.01] of zero. *)
Fixpoint small_balances (balances : results_dict) : Q :=
  match balances with
  | [] => 0
  | item :: rest =>
      if Qltb (snd item) (- eps) then small_balances rest
      else if Qltb eps (snd item) then small_balances rest
      else snd item + small_balances rest
  end.

(** Every amount of a list of entries is positive. *)
Definition positive (l : list entry) : Prop :=
  Forall (fun e => 0 < amount e) l.

(** The two lists of the first loop, and what they add up to. *)
Definition debtors_of (results : results_dict) : list entry :=
  fst (classify results).

Definition creditors_of (results : results_dict) : list entry :=
  snd (classify results).

Definition total_debt (results : results_dict) : Q := total (debtors_of results).
Definition total_credit (results : results_dict) : Q := total (creditors_of results).

(** The two lists of the first loop, item by item. *)
Fixpoint debtor_entries (results : results_dict) : list entry :=
  match results with
  | [] => []
  | (nm, bal) :: rest =>
      if Qltb bal (- eps) then mkEntry nm (- bal) :: debtor_entries rest
      else debtor_entries rest
  end.

Fixpoint creditor_entries (results : results_dict) : list entry :=
  match results with
  | [] => []
  | (nm, bal) :: rest =>
      if Qltb bal (- eps) then creditor_entries rest
      else if Qltb eps bal then mkEntry nm bal :: creditor_entries rest
      else creditor_entries rest
  end.

Open Scope string_scope.

(** ** [calculate_advanced_split] *)

(** An element of [expenses]. *)
Record expense : Type := mkExpense {
  description : string;
  expense_amount : Q;
  payer : string;
  timestamp : string
}.

(** An element of [people]: the name, and the keys ['capacity'] and
    ['percentage'] when the dict has them. *)
Record person : Type := mkPerson {
  person_name : string;
  capacity : option Q;
  percentage : option Q
}.

(** A value of the dict [calculate_advanced_split] returns; ['proportion']
    is set by the proportional split and ['percentage'] by the custom one. *)
Record split_data : Type := mkSplitData {
  paid : Q;
  should_pay : Q;
  balance : Q;
  owes : Q;
  gets_back : Q;
  data_proportion : option Q;
  data_percentage : option Q
}.

Inductive split_error : Type :=
| ZeroDivisionError
| KeyError (key : string).

(** A value or a raised exception. *)
Inductive result (A : Type) : Type :=
| Ok (a : A)
| Raise (e : split_error).
Arguments Ok {A} a.
Arguments Raise {A} e.

(** [d[k] = v] on a dict kept as the list of its items: the value of an
    existing key is replaced where it is, a new key goes to the end. *)
Fixpoint dict_set {V : Type} (k : string) (v : V) (d : list (string * V))
  : list (string * V) :=
  match d with
  | [] => [(k, v)]
  | (k', v') :: rest =>
      if String.eqb k' k then (k', v) :: rest
      else (k', v') :: dict_set k v rest
  end.

(** A [for] loop whose body may raise. *)
Fixpoint for_each {A S : Type} (body : S -> A -> result S) (l : list A) (s : S)
  : result S :=
  match l with
  | [] => Ok s
  | a :: rest =>
      match body s a with
      | Ok s' => for_each body rest s'
      | Raise e => Raise e
      end
  end.

(** [sum([exp['amount'] for exp in expenses])]. *)
Fixpoint sum_amounts (expenses : list expense) : Q :=
  match expenses with
  | [] => 0
  | e :: rest => expense_amount e + sum_amounts rest
  end.

(** [sum([exp['amount'] for exp in expenses if exp['payer'] == name])]. *)
Fixpoint paid_for (nm : string) (expenses : list expense) : Q :=
  match expenses with
  | [] => 0
  | e :: rest =>
      if String.eqb (payer e) nm then expense_amount e + paid_for nm rest
      else paid_for nm rest
  end.

(** [sum([person['capacity'] for person in people])]. *)
Fixpoint sum_capacities (people : list person) : result Q :=
  match people with
  | [] => Ok 0
  | p :: rest =>
      match capacity p with
      | None => Raise (KeyError "capacity")
      | Some c =>
          match sum_capacities rest with
          | Ok s => Ok (c + s)
          | Raise e => Raise e
          end
      end
  end.

(** [max(0, v)]. *)
Definition max0 (v : Q) : Q := if Qltb 0 v then v else 0.

(** The dict stored for one person. *)
Definition make_data (paid_ should_pay_ : Q) (prop pct : option Q) : split_data :=
  let bal := paid_ - should_pay_ in
  mkSplitData paid_ should_pay_ bal (max0 (- bal)) (max0 bal) prop pct.

Definition results_t : Type := list (string * split_data).

Definition equal_split (expenses : list expense) (people : list person)
  : result results_t :=
  let total := sum_amounts expenses in
  match people with
  | [] => Raise ZeroDivisionError
  | _ :: _ =>
      let per_person := total / inject_Z (Z.of_nat (length people)) in
      for_each
        (fun results p =>
           let paid_ := paid_for (person_name p) expenses in
           Ok (dict_set (person_name p) (make_data paid_ per_person None None)
                 results))
        people []
  end.

Definition proportional_split (expenses : list expense) (people : list person)
  : result results_t :=
  let total_amount := sum_amounts expenses in
  match sum_capacities people with
  | Raise e => Raise e
  | Ok total_capacity =>
      for_each
        (fun results p =>
           match capacity p with
           | None => Raise (KeyError "capacity")
           | Some c =>
               if Qeq_bool total_capacity 0 then Raise ZeroDivisionError
               else
                 let proportion := c / total_capacity in
                 let should_pay_ := total_amount * proportion in
                 let paid_ := paid_for (person_name p) expenses in
                 Ok (dict_set (person_name p)
                       (make_data paid_ should_pay_ (Some (proportion * 100)) None)
                       results)
           end)
        people []
  end.

Definition custom_split (expenses : list expense) (people : list person)
  : result results_t :=
  let total_amount := sum_amounts expenses in
  for_each
    (fun results p =>
       match percentage p with
       | None => Raise (KeyError "percentage")
       | Some pct =>
           let should_pay_ := total_amount * (pct / 100) in
           let paid_ := paid_for (person_name p) expenses in
           Ok (dict_set (person_name p)
                 (make_data paid_ should_pay_ None (Some pct)) results)
       end)
    people [].

Definition calculate_advanced_split (expenses : list expense)
  (people : list person) (split_method : string) : result results_t :=
  if String.eqb split_method "equal" then equal_split expenses people
  else if String.eqb split_method "proportional"
       then proportional_split expenses people
  else if String.eqb split_method "custom" then custom_split expenses people
  else Ok [].

(** What [optimize_payments] reads of the results: [data['balance']]. *)
Definition balances_of (results : results_t) : results_dict :=
  map (fun item => (fst item, balance (snd item))) results.

(** Sums over a list, for the statements below. *)
Fixpoint sum_over {A : Type} (f : A -> Q) (l : list A) : Q :=
  match l with
  | [] => 0
  | a :: rest => f a + sum_over f rest
  end.

(** What the expenses paid by one of [names] amount to. *)
Fixpoint paid_by_listed (names : list string) (expenses : list expense) : Q :=
  match expenses with
  | [] => 0
  | e :: rest =>
      if existsb (String.eqb (payer e)) names
      then expense_amount e + paid_by_listed names rest
      else paid_by_listed names rest
  end.

Definition capacity_of (p : person) : Q :=
  match capacity p with Some c => c | None => 0 end.

Definition percentage_of (p : person) : Q :=
  match percentage p with Some c => c | None => 0 end.




(** ** The Analytics page and the list of people *)

(** [sorted(l, key=lambda x: x['amount'], reverse=True)] on expenses: a
    stable sort by decreasing amount. *)
Fixpoint insert_expense (e : expense) (l : list expense) : list expense :=
  match l with
  | [] => [e]
  | h :: t =>
      if Qltb (expense_amount e) (expense_amount h)
      then h :: insert_expense e t
      else e :: h :: t
  end.

Definition sorted_expenses (l : list expense) : list expense :=
  fold_right insert_expense [] l.

(** [top_expenses]: the slice [[:5]] of the sorted expenses. *)
Definition top_expenses (expenses : list expense) : list expense :=
  firstn 5 (sorted_expenses expenses).

(** The "Add Person" button, for the name typed and the split method
    selected. *)
Definition add_person (new_person_name split_method : string)
  (people : list person) : list person :=
  if negb (String.eqb new_person_name EmptyString) &&
     negb (existsb (String.eqb new_person_name) (map person_name people))
  then
    people ++
    [mkPerson new_person_name
       (if String.eqb split_method "proportional" then Some 1 else None)
       (if String.eqb split_method "proportional" then None
        else if String.eqb split_method "custom" then Some 0 else None)]
  else people.

(** [l.pop(idx)]; [None] stands for the [IndexError] of an index beyond the
    list. *)
Fixpoint pop {A : Type} (idx : nat) (l : list A) : option (list A) :=
  match l, idx with
  | [], _ => None
  | _ :: rest, O => Some rest
  | a :: rest, S i =>
      match pop i rest with
      | Some rest' => Some (a :: rest')
      | None => None
      end
  end.

(** The removal loop: [for idx in reversed(people_to_remove)]. *)
Fixpoint pop_each {A : Type} (indices : list nat) (l : list A)
  : option (list A) :=
  match indices with
  | [] => Some l
  | idx :: rest =>
      match pop idx l with
      | Some l' => pop_each rest l'
      | None => None
      end
  end.

Definition remove_people (people_to_remove : list nat) (people : list person)
  : option (list person) :=
  pop_each (rev people_to_remove) people.

Close Scope string_scope.

(** ** The program in binary64 *)

(** The amounts are Python floats.  The definitions above take them for
    the numbers they stand for; that is enough for what rests on the
    comparisons and on the order of the loops.  What rests on the results
    of additions, subtractions, multiplications and divisions is stated of
    the program as it runs, on binary64 floats, which this module gives.
    Names and structure are those of the definitions above. *)
Module Binary64.

(** *** Floats as numbers *)

(** Whether a float is a number: neither an infinity nor NaN. *)
Definition finite (x : float) : bool :=
  match Prim2SF x with
  | S754_zero _ | S754_finite _ _ _ => true
  | _ => false
  end.

(** The number a float stands for: the signed mantissa times a power of
    two.  (An infinity and NaN are given 0; the statements are about
    finite floats.) *)
Definition value (x : float) : Q :=
  match Prim2SF x with
  | S754_finite s m e => inject_Z (if s then Zneg m else Zpos m) * 2 ^ e
  | _ => 0
  end.

(** The float [x] is a number, the number [q].  Said of the result of an
    operation and of what the operation gives on numbers, it says that the
    operation did not round. *)
Definition exact (x : float) (q : Q) : Prop :=
  finite x = true /\ value x == q.

(** A subtraction [x - y], given as the pair [(x, y)], that does not
    round. *)
Definition exact_sub (p : float * float) : Prop :=
  exact (fst p - snd p)%float (value (fst p) - value (snd p)).

(** The literal [0.01]: the float nearest to one hundredth, which is
    [5764607523034235 * 2^-59], a little more than one hundredth. *)
#[local] Set Warnings "-inexact-float".
Definition cent : float := 0.01.
#[local] Set Warnings "+inexact-float".

(** The threshold as a number. *)
Definition eps : Q := value cent.

(** *** [optimize_payments] *)

Definition results_dict : Type := list (string * float).

Definition keys (results : results_dict) : list string := map fst results.

Record entry : Type := mkEntry { name : string; amount : float }.

Record transaction : Type := mkTransaction {
  txn_from : string;
  txn_to : string;
  txn_amount : float
}.

(** The first loop.  NaN fails both tests, so every amount of [debtors]
    and [creditors] compares with every other. *)
Definition classify_step (acc : list entry * list entry) (item : string * float)
  : list entry * list entry :=
  let '(debtors, creditors) := acc in
  let '(nm, bal) := item in
  if (bal <? - cent)%float then (debtors ++ [mkEntry nm (- bal)%float], creditors)
  else if (cent <? bal)%float then (debtors, creditors ++ [mkEntry nm bal])
  else (debtors, creditors).

Definition classify (results : results_dict) : list entry * list entry :=
  fold_left classify_step results ([], []).

Fixpoint insert_desc (e : entry) (l : list entry) : list entry :=
  match l with
  | [] => [e]
  | h :: t =>
      if (amount e <? amount h)%float then h :: insert_desc e t
      else e :: h :: t
  end.

Definition sort_desc (l : list entry) : list entry :=
  fold_right insert_desc [] l.

(** The second loop: [-=] subtracts floats, and rounds. *)
Equations? settle (debtors creditors : list entry) : list transaction
  by wf (length debtors + length creditors)%nat lt :=
  settle [] _ := [];
  settle (_ :: _) [] := [];
  settle (d :: ds) (c :: cs) with (amount d <? amount c)%float := {
    | true :=
        mkTransaction (name d) (name c) (amount d)
        :: settle ds (mkEntry (name c) (amount c - amount d)%float :: cs);
    | false with (amount c <? amount d)%float := {
      | true :=
          mkTransaction (name d) (name c) (amount c)
          :: settle (mkEntry (name d) (amount d - amount c)%float :: ds) cs;
      | false :=
          mkTransaction (name d) (name c) (amount d) :: settle ds cs } }.
Proof. all: simpl; lia. Qed.

Definition optimize_payments (results : results_dict) : list transaction :=
  let '(debtors, creditors) := classify results in
  settle (sort_desc debtors) (sort_desc creditors).

(** The subtractions the second loop makes on its way, in order: the pair
    [(x, y)] stands for [x - y]. *)
Equations? subtractions (debtors creditors : list entry) : list (float * float)
  by wf (length debtors + length creditors)%nat lt :=
  subtractions [] _ := [];
  subtractions (_ :: _) [] := [];
  subtractions (d :: ds) (c :: cs) with (amount d <? amount c)%float := {
    | true :=
        (amount c, amount d)
        :: subtractions ds (mkEntry (name c) (amount c - amount d)%float :: cs);
    | false with (amount c <? amount d)%float := {
      | true :=
          (amount d, amount c)
          :: subtractions (mkEntry (name d) (amount d - amount c)%float :: ds) cs;
      | false := subtractions ds cs } }.
Proof. all: simpl; lia. Qed.

(** The balances are numbers. *)
Definition all_finite (results : results_dict) : Prop :=
  Forall (fun item => finite (snd item) = true) results.

(** No subtraction of the second loop rounds. *)
Definition rounds_nowhere (results : results_dict) : Prop :=
  Forall exact_sub
    (subtractions (sort_desc (fst (classify results)))
                  (sort_desc (snd (classify results)))).

(** The balances, the entries and the transfers as numbers. *)
Definition balances (results : results_dict) : Splitter.results_dict :=
  map (fun item => (fst item, value (snd item))) results.

Definition entries (l : list entry) : list Splitter.entry :=
  map (fun e => Splitter.mkEntry (name e) (value (amount e))) l.

Definition transfers (txns : list transaction) : list Splitter.transaction :=
  map (fun t => Splitter.mkTransaction (txn_from t) (txn_to t)
                  (value (txn_amount t))) txns.

(** What the debtors owe and what the creditors are due, as the first loop
    has them. *)
Definition total_debt (results : results_dict) : Q :=
  Splitter.total (entries (fst (classify results))).

Definition total_credit (results : results_dict) : Q :=
  Splitter.total (entries (snd (classify results))).

(** *** [calculate_advanced_split] *)

Open Scope string_scope.

Record expense : Type := mkExpense {
  description : string;
  expense_amount : float;
  payer : string;
  timestamp : string
}.

Record person : Type := mkPerson {
  person_name : string;
  capacity : option float;
  percentage : option float
}.

Record split_data : Type := mkSplitData {
  paid : float;
  should_pay : float;
  balance : float;
  owes : float;
  gets_back : float;
  data_proportion : option float;
  data_percentage : option float
}.

Definition results_t : Type := list (string * split_data).

(** [max(0, v)]: [v] when [v > 0], and [0] otherwise. *)
Definition max0 (v : float) : float := if (0 <? v)%float then v else 0%float.

(** The dict stored for one person. *)
Definition make_data (paid_ should_pay_ : float) (prop pct : option float)
  : split_data :=
  let bal := (paid_ - should_pay_)%float in
  mkSplitData paid_ should_pay_ bal (max0 (- bal)) (max0 bal) prop pct.

(** [len(people)] as the divisor of a float: the integer as a float,
    rounded to the nearest. *)
Definition float_of_nat (n : nat) : float :=
  SF2Prim (binary_normalize prec emax (Z.of_nat n) 0 false).

(** The amounts of the expenses paid by [nm], in the order of the list:
    [[exp['amount'] for exp in expenses if exp['payer'] == nm]]. *)
Definition amounts_paid_by (nm : string) (expenses : list expense) : list float :=
  map expense_amount (filter (fun e => String.eqb (payer e) nm) expenses).

Definition capacity_of (p : person) : float :=
  match capacity p with Some c => c | None => 0%float end.

Definition percentage_of (p : person) : float :=
  match percentage p with Some c => c | None => 0%float end.

(** [[person['capacity'] for person in people]]. *)
Fixpoint capacities (people : list person) : result (list float) :=
  match people with
  | [] => Ok []
  | p :: rest =>
      match capacity p with
      | None => Raise (KeyError "capacity")
      | Some c =>
          match capacities rest with
          | Ok l => Ok (c :: l)
          | Raise e => Raise e
          end
      end
  end.

(** A [sum] that adds the items from left to right, starting from 0. *)
Definition left_to_right_sum (l : list float) : float :=
  fold_left PrimFloat.add l 0%float.

Section Sum.

(** The builtin [sum] on a list of floats.  It adds the items from left
    to right, as [left_to_right_sum] does; since CPython 3.12 it also
    carries a correction for the rounding errors made on the way, and
    gives other floats.  The splits are given for whichever [sum] the
    interpreter has. *)
Variable sum : list float -> float.

Definition sum_amounts (expenses : list expense) : float :=
  sum (map expense_amount expenses).

Definition paid_for (nm : string) (expenses : list expense) : float :=
  sum (amounts_paid_by nm expenses).

Definition equal_split (expenses : list expense) (people : list person)
  : result results_t :=
  let total := sum_amounts expenses in
  match people with
  | [] => Raise ZeroDivisionError
  | _ :: _ =>
      let per_person := (total / float_of_nat (length people))%float in
      for_each
        (fun results p =>
           let paid_ := paid_for (person_name p) expenses in
           Ok (dict_set (person_name p) (make_data paid_ per_person None None)
                 results))
        people []
  end.

Definition proportional_split (expenses : list expense) (people : list person)
  : result results_t :=
  let total_amount := sum_amounts expenses in
  match capacities people with
  | Raise e => Raise e
  | Ok l =>
      let total_capacity := sum l in
      for_each
        (fun results p =>
           match capacity p with
           | None => Raise (KeyError "capacity")
           | Some c =>
               if (total_capacity =? 0)%float then Raise ZeroDivisionError
               else
                 let proportion := (c / total_capacity)%float in
                 let should_pay_ := (total_amount * proportion)%float in
                 let paid_ := paid_for (person_name p) expenses in
                 Ok (dict_set (person_name p)
                       (make_data paid_ should_pay_
                          (Some (proportion * 100)%float) None)
                       results)
           end)
        people []
  end.

Definition custom_split (expenses : list expense) (people : list person)
  : result results_t :=
  let total_amount := sum_amounts expenses in
  for_each
    (fun results p =>
       match percentage p with
       | None => Raise (KeyError "percentage")
       | Some pct =>
           let should_pay_ := (total_amount * (pct / 100))%float in
           let paid_ := paid_for (person_name p) expenses in
           Ok (dict_set (person_name p)
                 (make_data paid_ should_pay_ None (Some pct)) results)
       end)
    people [].

Definition calculate_advanced_split (expenses : list expense)
  (people : list person) (split_method : string) : result results_t :=
  if String.eqb split_method "equal" then equal_split expenses people
  else if String.eqb split_method "proportional"
       then proportional_split expenses people
  else if String.eqb split_method "custom" then custom_split expenses people
  else Ok [].

End Sum.

(** What [optimize_payments] reads of the results: [data['balance']]. *)
Definition balances_of (results : results_t) : results_dict :=
  map (fun item => (fst item, balance (snd item))) results.

(** The expenses with their amounts as numbers. *)
Definition expense_values (expenses : list expense) : list Splitter.expense :=
  map (fun e => Splitter.mkExpense (description e) (value (expense_amount e))
                  (payer e) (timestamp e))
    expenses.

(** The floats of a list as numbers, added up. *)
Fixpoint total_value (l : list float) : Q :=
  match l with
  | [] => 0
  | x :: rest => value x + total_value rest
  end.

(** No operation of the equal split rounds: the amounts are numbers, and
    every sum, quotient and difference the split makes is a number, the
    one the operation gives on numbers. *)
Definition equal_rounds_nowhere (sum : list float -> float)
  (expenses : list expense) (people : list person) : Prop :=
  let total := sum_amounts sum expenses in
  let n := float_of_nat (length people) in
  let per_person := (total / n)%float in
  Forall (fun e => finite (expense_amount e) = true) expenses /\
  exact total (total_value (map expense_amount expenses)) /\
  exact n (inject_Z (Z.of_nat (length people))) /\
  exact per_person (value total / value n) /\
  Forall (fun p =>
            let paid_ := paid_for sum (person_name p) expenses in
            exact paid_ (total_value (amounts_paid_by (person_name p) expenses)) /\
            exact (paid_ - per_person)%float (value paid_ - value per_person))
    people.

(** No operation of the proportional split rounds. *)
Definition proportional_rounds_nowhere (sum : list float -> float)
  (expenses : list expense) (people : list person) : Prop :=
  let total := sum_amounts sum expenses in
  let total_capacity := sum (map capacity_of people) in
  Forall (fun e => finite (expense_amount e) = true) expenses /\
  exact total (total_value (map expense_amount expenses)) /\
  exact total_capacity (total_value (map capacity_of people)) /\
  Forall (fun p =>
            let proportion := (capacity_of p / total_capacity)%float in
            let should_pay_ := (total * proportion)%float in
            let paid_ := paid_for sum (person_name p) expenses in
            exact proportion (value (capacity_of p) / value total_capacity) /\
            exact should_pay_ (value total * value proportion) /\
            exact paid_ (total_value (amounts_paid_by (person_name p) expenses)) /\
            exact (paid_ - should_pay_)%float (value paid_ - value should_pay_))
    people.

(** No operation of the custom split rounds. *)
Definition custom_rounds_nowhere (sum : list float -> float)
  (expenses : list expense) (people : list person) : Prop :=
  let total := sum_amounts sum expenses in
  Forall (fun e => finite (expense_amount e) = true) expenses /\
  exact total (total_value (map expense_amount expenses)) /\
  Forall (fun p =>
            let share := (percentage_of p / 100)%float in
            let should_pay_ := (total * share)%float in
            let paid_ := paid_for sum (person_name p) expenses in
            exact share (value (percentage_of p) / 100) /\
            exact should_pay_ (value total * value share) /\
            exact paid_ (total_value (amounts_paid_by (person_name p) expenses)) /\
            exact (paid_ - should_pay_)%float (value paid_ - value should_pay_))
    people.

Definition split_rounds_nowhere (sum : list float -> float)
  (expenses : list expense) (people : list person) (split_method : string)
  : Prop :=
  if String.eqb split_method "equal" then equal_rounds_nowhere sum expenses people
  else if String.eqb split_method "proportional"
       then proportional_rounds_nowhere sum expenses people
  else if String.eqb split_method "custom"
       then custom_rounds_nowhere sum expenses people
  else True.

(** *** The Analytics page *)

(** [d[k] += a] on a [defaultdict(float)]: a missing key starts from
    [0.0]. *)
Fixpoint dict_add (k : string) (a : float) (d : list (string * float))
  : list (string * float) :=
  match d with
  | [] => [(k, (0 + a)%float)]
  | (k', v') :: rest =>
      if String.eqb k' k then (k', (v' + a)%float) :: rest
      else (k', v') :: dict_add k a rest
  end.

(** The loop that fills [payer_totals]. *)
Definition payer_totals (expenses : list expense) : list (string * float) :=
  fold_left (fun d e => dict_add (payer e) (expense_amount e) d) expenses [].

Close Scope string_scope.

End Binary64.

(** ** Sample inputs *)

Open Scope string_scope.




Definition one_creditor : results_dict := [("A", 30); ("B", -10); ("C", -20)].
Definition one_debtor : results_dict := [("A", 15); ("B", 15); ("C", -30)].
Definition unbalanced : results_dict := [("A", 30); ("B", -10)].

(** The same balances as floats, and the balances [one_creditor64] is left
    with. *)
Definition one_creditor64 : Binary64.results_dict :=
  [("A", 30%float); ("B", (-10)%float); ("C", (-20)%float)].

Definition settled64 : Binary64.results_dict :=
  [("A", 0%float); ("B", 0%float); ("C", 0%float)].

Definition unbalanced64 : Binary64.results_dict :=
  [("A", 30%float); ("B", (-10)%float)].


(** Balances on which it rounds the other way: [2^54 - (2^53 - 3)] is
    [2^53 + 3], and the loop goes on with [2^53 + 4]. *)
Definition overpaid64 : Binary64.results_dict :=
  [("C0", 9007199254740989%float); ("C1", 9007199254740989%float);
   ("C2", 7%float); ("D0", (-18014398509481984)%float); ("D1", (-1)%float)].

(** Expenses and people on which no split rounds. *)
Definition dinner64 : list Binary64.expense :=
  [Binary64.mkExpense "dinner" 90 "A" "2024-01-01 20:00:00";
   Binary64.mkExpense "cab" 30 "B" "2024-01-01 23:00:00"].

Definition three_people64 : list Binary64.person :=
  [Binary64.mkPerson "A" (Some 2%float) (Some 50%float);
   Binary64.mkPerson "B" (Some 1%float) (Some 25%float);
   Binary64.mkPerson "C" (Some 1%float) (Some 25%float)].

Example optimize_one_creditor :
  optimize_payments one_creditor =
  [mkTransaction "C" "A" 20; mkTransaction "B" "A" 10].
Proof. reflexivity. Qed.

Example optimize_one_debtor :
  optimize_payments one_debtor =
  [mkTransaction "C" "A" 15; mkTransaction "C" "B" 15].
Proof. reflexivity. Qed.

Close Scope string_scope.

(** ** Facts about the optimizer *)

Lemma Qltb_true (a b : Q) : Qltb a b = true <-> a < b.
Proof. unfold Qltb, Qlt. apply Z.ltb_lt. Qed.

Lemma Qltb_false (a b : Q) : Qltb a b = false <-> b <= a.
Proof. unfold Qltb, Qle. apply Z.ltb_ge. Qed.

Ltac qltb_hyps :=
  repeat match goal with
  | H : Qltb _ _ = true |- _ => apply Qltb_true in H
  | H : Qltb _ _ = false |- _ => apply Qltb_false in H
  end.

Lemma eps_pos : 0 < eps.
Proof. reflexivity. Qed.

(** *** The first loop *)

Lemma classify_from debtors creditors (results : results_dict) :
  fold_left classify_step results (debtors, creditors) =
  (debtors ++ debtor_entries results, creditors ++ creditor_entries results).
Proof.
  revert debtors creditors.
  induction results as [| [nm bal] rest IH]; intros debtors creditors.
  - simpl. rewrite !app_nil_r. reflexivity.
  - cbn [fold_left classify_step debtor_entries creditor_entries].
    destruct (Qltb bal (- eps)).
    + rewrite IH, <- app_assoc. reflexivity.
    + destruct (Qltb eps bal); rewrite IH, <- ?app_assoc; reflexivity.
Qed.

Lemma classify_entries (results : results_dict) :
  classify results = (debtor_entries results, creditor_entries results).
Proof. unfold classify. rewrite classify_from. reflexivity. Qed.

Lemma optimize_payments_unfold (results : results_dict) :
  optimize_payments results =
  settle (sort_desc (debtor_entries results))
         (sort_desc (creditor_entries results)).
Proof. unfold optimize_payments. rewrite classify_entries. reflexivity. Qed.

Lemma debtor_entries_In (results : results_dict) e :
  In e (debtor_entries results) <->
  exists bal, In (name e, bal) results /\ bal < - eps /\ amount e = - bal.
Proof.
  induction results as [| [nm bal] rest IH]; simpl.
  - split; [tauto | intros [b [[] _]]].
  - destruct (Qltb bal (- eps)) eqn:Hlt.
    + simpl. rewrite IH. split.
      * intros [<- | [b [Hin Hb]]].
        -- exists bal. simpl. apply Qltb_true in Hlt. auto.
        -- exists b. tauto.
      * intros [b [[E | Hin] [Hb Ha]]].
        -- inversion E; subst. left. destruct e; simpl in *. congruence.
        -- right. exists b. tauto.
    + rewrite IH. split.
      * intros [b [Hin Hb]]. exists b. tauto.
      * intros [b [[E | Hin] [Hb Ha]]].
        -- inversion E; subst. apply Qltb_false in Hlt. lra.
        -- exists b. tauto.
Qed.

Lemma creditor_entries_In (results : results_dict) e :
  In e (creditor_entries results) <->
  exists bal, In (name e, bal) results /\ eps < bal /\ amount e = bal.
Proof.
  pose proof eps_pos as Heps.
  induction results as [| [nm bal] rest IH]; simpl.
  - split; [tauto | intros [b [[] _]]].
  - destruct (Qltb bal (- eps)) eqn:Hlt.
    + rewrite IH. split.
      * intros [b [Hin Hb]]. exists b. tauto.
      * intros [b [[E | Hin] [Hb Ha]]].
        -- inversion E; subst. apply Qltb_true in Hlt. lra.
        -- exists b. tauto.
    + destruct (Qltb eps bal) eqn:Hgt.
      * simpl. rewrite IH. split.
        -- intros [<- | [b [Hin Hb]]].
           ++ exists bal. simpl. apply Qltb_true in Hgt. auto.
           ++ exists b. tauto.
        -- intros [b [[E | Hin] [Hb Ha]]].
           ++ inversion E; subst. left. destruct e; simpl in *. congruence.
           ++ right. exists b. tauto.
      * rewrite IH. split.
        -- intros [b [Hin Hb]]. exists b. tauto.
        -- intros [b [[E | Hin] [Hb Ha]]].
           ++ inversion E; subst. apply Qltb_false in Hgt. lra.
           ++ exists b. tauto.
Qed.


(** The balances are the credits, minus the debts, plus the balances that
    are passed over. *)
Lemma sum_balances_split (results : results_dict) :
  sum_balances results ==
  total_credit results - total_debt results + small_balances results.
Proof.
  unfold total_credit, total_debt, creditors_of, debtors_of.
  rewrite classify_entries. cbn [fst snd].
  induction results as [| [nm bal] rest IH]; simpl; [reflexivity |].
  destruct (Qltb bal (- eps)); [simpl; lra |].
  destruct (Qltb eps bal); simpl; lra.
Qed.

Lemma small_balances_zero (results : results_dict) :
  (forall n b, In (n, b) results -> - eps <= b <= eps -> b == 0) ->
  small_balances results == 0.
Proof.
  induction results as [| [nm bal] rest IH]; intros Hz; simpl; [reflexivity |].
  assert (IH' : small_balances rest == 0).
  { apply IH. intros n b Hin Hb. apply (Hz n b); [right; exact Hin | exact Hb]. }
  destruct (Qltb bal (- eps)) eqn:E1; [exact IH' |].
  destruct (Qltb eps bal) eqn:E2; [exact IH' |].
  qltb_hyps.
  rewrite IH', (Hz nm bal (or_introl eq_refl) (conj E1 E2)). reflexivity.
Qed.

(** *** The sort *)

Lemma insert_desc_In e x l : In e (insert_desc x l) <-> e = x \/ In e l.
Proof.
  induction l as [| h t IH]; simpl.
  - split; intros [H | H]; auto.
  - destruct (Qltb (amount x) (amount h)); simpl; rewrite ?IH;
      intuition auto.
Qed.

Lemma sort_desc_In e l : In e (sort_desc l) <-> In e l.
Proof.
  induction l as [| h t IH]; simpl; [tauto |].
  rewrite insert_desc_In, IH. intuition auto.
Qed.



Lemma insert_desc_total x l : total (insert_desc x l) == amount x + total l.
Proof.
  induction l as [| h t IH]; simpl; [reflexivity |].
  destruct (Qltb (amount x) (amount h)); simpl; rewrite ?IH; ring.
Qed.

Lemma sort_desc_total l : total (sort_desc l) == total l.
Proof.
  induction l as [| h t IH]; simpl; [reflexivity |].
  rewrite insert_desc_total, IH. reflexivity.
Qed.

Lemma insert_desc_owed n x l :
  owed n (insert_desc x l) == owed n (x :: l).
Proof.
  induction l as [| h t IH]; simpl; [reflexivity |].
  destruct (Qltb (amount x) (amount h)); simpl; [| reflexivity].
  simpl in IH.
  destruct (String.eqb (name h) n), (String.eqb (name x) n);
    rewrite IH; ring.
Qed.

Lemma sort_desc_owed n l : owed n (sort_desc l) == owed n l.
Proof.
  induction l as [| h t IH]; simpl; [reflexivity |].
  rewrite insert_desc_owed. simpl.
  destruct (String.eqb (name h) n); rewrite IH; reflexivity.
Qed.

Lemma sort_desc_Forall (P : entry -> Prop) l :
  Forall P l -> Forall P (sort_desc l).
Proof.
  rewrite !Forall_forall. intros H e He. apply H. apply sort_desc_In. exact He.
Qed.

(** *** The second loop *)

(** Discharges the premises of the hypotheses on totals that follow from
    the context, and drops the others. *)
Ltac use_totals :=
  repeat match goal with
  | H : ?a <= ?b -> _ |- _ =>
      first [ let P := fresh in assert (P : a <= b) by lra; specialize (H P)
            | clear H ]
  end.

(** One turn of the second loop, in [settle_facts]. *)
Ltac settle_case IH :=
  cbn [paid_by received_by owed total transferred
       txn_from txn_to txn_amount name amount] in *;
  revert IH;
  match goal with
  | |- context [String.eqb (name ?d) ?n] =>
      destruct (String.eqb (name d) n)
  end;
  match goal with
  | |- context [String.eqb (name ?c) ?n] =>
      destruct (String.eqb (name c) n)
  | _ => idtac
  end;
  intros (Hp & Hr & Hrd & Hrc & Hta & Htb);
  (split; [lra | split; [lra | split; [lra | split; [lra |
     split; intros Hle; use_totals; lra]]]]).

Lemma owed_bounds n l : positive l -> 0 <= owed n l <= total l.
Proof.
  induction 1 as [| e l He Hl IH]; simpl; [lra |].
  destruct (String.eqb (name e) n); lra.
Qed.

(** What the transfers of the second loop add up to, for the lists as a
    whole and for each name: nobody pays more than they owe or receives
    more than they are due, what is left with one participant is at most
    what is left on their side, and the smaller side is paid in full. *)
Lemma settle_facts n debtors creditors :
  positive debtors -> positive creditors ->
  (0 <= paid_by n (settle debtors creditors) <= owed n debtors) /\
  (0 <= received_by n (settle debtors creditors) <= owed n creditors) /\
  (owed n debtors - paid_by n (settle debtors creditors)
   <= total debtors - transferred (settle debtors creditors)) /\
  (owed n creditors - received_by n (settle debtors creditors)
   <= total creditors - transferred (settle debtors creditors)) /\
  (total debtors <= total creditors ->
   transferred (settle debtors creditors) == total debtors) /\
  (total creditors <= total debtors ->
   transferred (settle debtors creditors) == total creditors).
Proof.
  funelim (settle debtors creditors); intros Hd Hc; qltb_hyps.
  - pose proof (owed_bounds n _ Hc). simpl. lra.
  - pose proof (owed_bounds n _ Hd) as Hb.
    inversion Hd as [| ? ? Hd1 Hd2]; subst.
    pose proof (owed_bounds n _ Hd2). simpl in *.
    destruct (String.eqb (name e) n); lra.
  - inversion Hd as [| ? ? Hd1 Hd2]; inversion Hc as [| ? ? Hc1 Hc2]; subst.
    assert (Hc' : positive (mkEntry (name c) (amount c - amount d) :: cs))
      by (apply Forall_cons; [simpl; lra | assumption]).
    specialize (H n Hd2 Hc'). settle_case H.
  - inversion Hd as [| ? ? Hd1 Hd2]; inversion Hc as [| ? ? Hc1 Hc2]; subst.
    assert (Hd' : positive (mkEntry (name d) (amount d - amount c) :: ds))
      by (apply Forall_cons; [simpl; lra | assumption]).
    specialize (H n Hd' Hc2). settle_case H.
  - inversion Hd as [| ? ? Hd1 Hd2]; inversion Hc as [| ? ? Hc1 Hc2]; subst.
    specialize (H n Hd2 Hc2). settle_case H.
Qed.

(** The sender of a transfer is a debtor, the receiver a creditor. *)
Lemma settle_names debtors creditors t :
  In t (settle debtors creditors) ->
  In (txn_from t) (map name debtors) /\ In (txn_to t) (map name creditors).
Proof.
  funelim (settle debtors creditors); simpl; try tauto;
    (intros [<- | Hin]; [simpl; tauto |]);
    match goal with IH : forall t, In t _ -> _ |- _ =>
      destruct (IH _ Hin) as [Hf Ht] end;
    simpl in *; tauto.
Qed.


(** *** The entries of one participant *)

Lemma debtor_entries_positive results : positive (debtor_entries results).
Proof.
  pose proof eps_pos.
  induction results as [| [nm bal] rest IH]; simpl; [constructor |].
  destruct (Qltb bal (- eps)) eqn:Hlt; [| exact IH].
  apply Forall_cons; [| exact IH]. apply Qltb_true in Hlt. simpl. lra.
Qed.

Lemma creditor_entries_positive results : positive (creditor_entries results).
Proof.
  pose proof eps_pos.
  induction results as [| [nm bal] rest IH]; simpl; [constructor |].
  destruct (Qltb bal (- eps)); [exact IH |].
  destruct (Qltb eps bal) eqn:Hgt; [| exact IH].
  apply Forall_cons; [| exact IH]. apply Qltb_true in Hgt. simpl. lra.
Qed.

Lemma owed_absent n (results : results_dict) :
  ~ In n (keys results) ->
  owed n (debtor_entries results) = 0 /\ owed n (creditor_entries results) = 0.
Proof.
  induction results as [| [nm bal] rest IH]; simpl; [tauto |].
  intros Hn.
  assert (Hne : String.eqb nm n = false) by (apply String.eqb_neq; tauto).
  destruct IH as [IHd IHc]; [tauto |].
  destruct (Qltb bal (- eps)); [simpl; rewrite Hne; tauto |].
  destruct (Qltb eps bal); simpl; rewrite ?Hne; tauto.
Qed.

(** With distinct keys, the entries named [n] are the one made from the
    balance of [n], if any. *)
Lemma owed_of_participant n bal (results : results_dict) :
  NoDup (keys results) -> In (n, bal) results ->
  owed n (debtor_entries results) == (if Qltb bal (- eps) then - bal else 0) /\
  owed n (creditor_entries results) ==
    (if Qltb bal (- eps) then 0 else if Qltb eps bal then bal else 0).
Proof.
  induction results as [| [nm b] rest IH]; simpl; [tauto |].
  intros Hnd [E | Hin]; inversion Hnd as [| ? ? Hnm Hrest]; subst.
  - inversion E; subst nm b.
    destruct (owed_absent n rest Hnm) as [Hd Hc].
    destruct (Qltb bal (- eps)); [simpl; rewrite String.eqb_refl, Hd, Hc; lra |].
    destruct (Qltb eps bal); simpl; rewrite ?String.eqb_refl, Hd, Hc; lra.
  - assert (Hne : String.eqb nm n = false).
    { apply String.eqb_neq. intros ->. apply Hnm.
      apply (in_map fst) in Hin. exact Hin. }
    destruct (IH Hrest Hin) as [IHd IHc].
    destruct (Qltb b (- eps)); [simpl; rewrite Hne; tauto |].
    destruct (Qltb eps b); simpl; rewrite ?Hne; tauto.
Qed.

(** *** Carrying out transfers *)

Lemma adjust_In who delta (balances : results_dict) n b' :
  In (n, b') (adjust who delta balances) ->
  exists b, In (n, b) balances /\
    b' = (if String.eqb who n then b + delta else b).
Proof.
  unfold adjust. rewrite in_map_iff. intros [[k v] [E Hin]]. simpl in E.
  exists v.
  destruct (String.eqb who k) eqn:Hk; inversion E; subst;
    rewrite Hk; split; (assumption || reflexivity).
Qed.

Lemma adjust_keys who delta (balances : results_dict) :
  keys (adjust who delta balances) = keys balances.
Proof.
  unfold keys, adjust. rewrite map_map. apply map_ext.
  intros [k v]. simpl. destruct (String.eqb who k); reflexivity.
Qed.

Lemma pay_keys (balances : results_dict) t : keys (pay balances t) = keys balances.
Proof. unfold pay. rewrite !adjust_keys. reflexivity. Qed.

Lemma apply_transfers_keys txns : forall balances : results_dict,
  keys (apply_transfers balances txns) = keys balances.
Proof.
  induction txns as [| t txns IH]; intros balances; [reflexivity |].
  simpl. rewrite IH. apply pay_keys.
Qed.

(** The balance of a participant after the transfers: what it was, plus
    what the participant paid, minus what the participant received. *)
Lemma apply_transfers_In txns : forall (balances : results_dict) n b',
  In (n, b') (apply_transfers balances txns) ->
  exists b, In (n, b) balances /\
    b' == b + paid_by n txns - received_by n txns.
Proof.
  induction txns as [| t txns IH]; intros balances n b' Hin; simpl in Hin.
  - exists b'. split; [exact Hin | simpl; ring].
  - destruct (IH _ _ _ Hin) as [b1 [Hin1 Hb1]].
    unfold pay in Hin1.
    apply adjust_In in Hin1. destruct Hin1 as [b2 [Hin2 Hb2]].
    apply adjust_In in Hin2. destruct Hin2 as [b [Hin3 Hb3]].
    exists b. split; [exact Hin3 |].
    rewrite Hb1, Hb2, Hb3. cbn [paid_by received_by].
    destruct (String.eqb (txn_to t) n), (String.eqb (txn_from t) n); ring.
Qed.

Lemma adjust_absent who delta (balances : results_dict) :
  ~ In who (keys balances) -> adjust who delta balances = balances.
Proof.
  induction balances as [| [k v] rest IH]; simpl; [reflexivity |].
  intros Hn. rewrite IH by tauto.
  assert (Hne : String.eqb who k = false) by (apply String.eqb_neq; intuition).
  rewrite Hne. reflexivity.
Qed.

Lemma adjust_sum who delta (balances : results_dict) :
  NoDup (keys balances) -> In who (keys balances) ->
  sum_balances (adjust who delta balances) == sum_balances balances + delta.
Proof.
  induction balances as [| [k v] rest IH]; simpl; [tauto |].
  intros Hnd Hin. inversion Hnd as [| ? ? Hk Hrest]; subst.
  destruct (String.eqb who k) eqn:Hwk.
  - apply String.eqb_eq in Hwk. subst k.
    change (map _ rest) with (adjust who delta rest).
    rewrite adjust_absent by exact Hk. simpl. ring.
  - change (map _ rest) with (adjust who delta rest).
    apply String.eqb_neq in Hwk.
    destruct Hin as [E | Hin]; [congruence |].
    simpl. rewrite IH by assumption. ring.
Qed.

Lemma pay_sum (balances : results_dict) t :
  NoDup (keys balances) ->
  In (txn_from t) (keys balances) -> In (txn_to t) (keys balances) ->
  sum_balances (pay balances t) == sum_balances balances.
Proof.
  intros Hnd Hf Ht. unfold pay.
  rewrite adjust_sum; rewrite ?adjust_keys; try assumption.
  rewrite adjust_sum by assumption. ring.
Qed.

(** Transfers between participants move money and make none. *)
Lemma apply_transfers_sum txns : forall balances : results_dict,
  NoDup (keys balances) ->
  (forall t, In t txns ->
     In (txn_from t) (keys balances) /\ In (txn_to t) (keys balances)) ->
  sum_balances (apply_transfers balances txns) == sum_balances balances.
Proof.
  induction txns as [| t txns IH]; intros balances Hnd Hin; [reflexivity |].
  simpl. rewrite IH.
  - apply pay_sum; [exact Hnd | apply Hin; left; reflexivity
                    | apply Hin; left; reflexivity].
  - rewrite pay_keys. exact Hnd.
  - intros t' Ht'. rewrite pay_keys. apply Hin. right. exact Ht'.
Qed.

(** *** The transfers of [optimize_payments] *)

(** Who sends and who receives. *)
Lemma optimize_payments_roles (results : results_dict) t :
  In t (optimize_payments results) ->
  (exists bal, In (txn_from t, bal) results /\ bal < - eps) /\
  (exists bal, In (txn_to t, bal) results /\ eps < bal).
Proof.
  rewrite optimize_payments_unfold. intros Hin.
  apply settle_names in Hin. destruct Hin as [Hf Ht].
  apply in_map_iff in Hf. destruct Hf as [d [Hd Hind]].
  apply in_map_iff in Ht. destruct Ht as [c [Hc Hinc]].
  apply (proj1 (sort_desc_In _ _)) in Hind.
  apply (proj1 (sort_desc_In _ _)) in Hinc.
  apply (proj1 (debtor_entries_In _ _)) in Hind.
  destruct Hind as [b1 [Hb1 [Hlt _]]].
  apply (proj1 (creditor_entries_In _ _)) in Hinc.
  destruct Hinc as [b2 [Hb2 [Hgt _]]].
  rewrite <- Hd, <- Hc. split; eauto.
Qed.

(** The balance of each participant before and after the transfers of
    [optimize_payments]. *)
Lemma optimize_payments_effect (results : results_dict) n b' :
  NoDup (keys results) ->
  In (n, b') (apply_transfers results (optimize_payments results)) ->
  exists b paid received,
    In (n, b) results /\ b' == b + paid - received /\
    (b < - eps ->
       received == 0 /\ 0 <= paid <= - b /\
       - b - paid <= total_debt results - transferred (optimize_payments results)) /\
    (eps < b ->
       paid == 0 /\ 0 <= received <= b /\
       b - received <= total_credit results - transferred (optimize_payments results)) /\
    (- eps <= b <= eps -> paid == 0 /\ received == 0).
Proof.
  intros Hnd Hin. pose proof eps_pos as Heps.
  apply apply_transfers_In in Hin. destruct Hin as [b [Hb Hb']].
  exists b, (paid_by n (optimize_payments results)),
         (received_by n (optimize_payments results)).
  split; [exact Hb | split; [exact Hb' |]].
  unfold total_debt, total_credit, debtors_of, creditors_of.
  rewrite classify_entries. cbn [fst snd].
  rewrite optimize_payments_unfold.
  pose proof (settle_facts n _ _
                (sort_desc_Forall _ _ (debtor_entries_positive results))
                (sort_desc_Forall _ _ (creditor_entries_positive results)))
    as (Hp & Hr & Hrd & Hrc & _ & _).
  rewrite !sort_desc_owed in Hp, Hr, Hrd, Hrc.
  rewrite !sort_desc_total in Hrd, Hrc.
  destruct (owed_of_participant n b results Hnd Hb) as [Hod Hoc].
  rewrite Hod in Hp, Hrd. rewrite Hoc in Hr, Hrc.
  destruct (Qltb b (- eps)) eqn:E1; qltb_hyps.
  - repeat split; intros; lra.
  - destruct (Qltb eps b) eqn:E2; qltb_hyps; repeat split; intros; lra.
Qed.

Lemma optimize_payments_transferred (results : results_dict) :
  (total_debt results <= total_credit results ->
   transferred (optimize_payments results) == total_debt results) /\
  (total_credit results <= total_debt results ->
   transferred (optimize_payments results) == total_credit results).
Proof.
  unfold total_debt, total_credit, debtors_of, creditors_of.
  rewrite classify_entries. cbn [fst snd].
  rewrite optimize_payments_unfold.
  pose proof (settle_facts EmptyString _ _
                (sort_desc_Forall _ _ (debtor_entries_positive results))
                (sort_desc_Forall _ _ (creditor_entries_positive results)))
    as (_ & _ & _ & _ & Ha & Hb).
  rewrite !sort_desc_total in Ha, Hb. split; assumption.
Qed.

Lemma balance_unique (results : results_dict) n b1 b2 :
  NoDup (keys results) -> In (n, b1) results -> In (n, b2) results -> b1 = b2.
Proof.
  induction results as [| [k v] rest IH]; simpl; [tauto |].
  intros Hnd H1 H2. inversion Hnd as [| ? ? Hk Hrest]; subst.
  destruct H1 as [E1 | H1], H2 as [E2 | H2].
  - congruence.
  - inversion E1; subst. exfalso. apply Hk.
    apply (in_map fst) in H2. exact H2.
  - inversion E2; subst. exfalso. apply Hk.
    apply (in_map fst) in H1. exact H1.
  - apply IH; assumption.
Qed.


(** ** The settlement on numbers *)

(** The unfolding of the second loop. *)
Lemma settle_cons d ds c cs :
  settle (d :: ds) (c :: cs) =
  if Qltb (amount d) (amount c) then
    mkTransaction (name d) (name c) (amount d)
    :: settle ds (mkEntry (name c) (amount c - amount d) :: cs)
  else if Qltb (amount c) (amount d) then
    mkTransaction (name d) (name c) (amount c)
    :: settle (mkEntry (name d) (amount d - amount c) :: ds) cs
  else mkTransaction (name d) (name c) (amount d) :: settle ds cs.
Proof.
  simp settle.
  destruct (Qltb (amount d) (amount c)); simpl; [reflexivity |].
  destruct (Qltb (amount c) (amount d)); reflexivity.
Qed.


(** With exact arithmetic: the transfers keep the sum of the balances,
    take nobody past zero, leave balances within [0.01] alone, and pay the
    smaller of the two sides in full. *)
Lemma exact_partial_settlement (results : results_dict) :
  NoDup (keys results) ->
  sum_balances (apply_transfers results (optimize_payments results))
    == sum_balances results /\
  (forall n b',
     In (n, b') (apply_transfers results (optimize_payments results)) ->
     exists b, In (n, b) results /\
       (b < - eps -> b <= b' <= 0) /\
       (eps < b -> 0 <= b' <= b) /\
       (- eps <= b <= eps -> b' == b)) /\
  (total_debt results <= total_credit results ->
   transferred (optimize_payments results) == total_debt results) /\
  (total_credit results <= total_debt results ->
   transferred (optimize_payments results) == total_credit results).
Proof.
  intros Hnd. split; [| split].
  - apply apply_transfers_sum; [exact Hnd |].
    intros t Ht. apply optimize_payments_roles in Ht.
    destruct Ht as [[b1 [H1 _]] [b2 [H2 _]]].
    split; [apply (in_map fst) in H1; exact H1
           | apply (in_map fst) in H2; exact H2].
  - intros n b' Hin.
    destruct (optimize_payments_effect results n b' Hnd Hin)
      as (b & paid & received & Hb & Hb' & Hdebt & Hcred & Hnone).
    exists b. split; [exact Hb |].
    split; [| split]; intros H;
      [specialize (Hdebt H) | specialize (Hcred H) | specialize (Hnone H)];
      lra.
  - apply optimize_payments_transferred.
Qed.

(** ** Facts about binary64 *)

(** The value of a float in units of [2^-1074], the smallest positive
    float: an integer. *)
Definition scaled (f : spec_float) : Z :=
  match f with
  | S754_finite s m e => (if s then Zneg m else Zpos m) * 2 ^ (e + 1074)
  | _ => 0
  end.

Lemma digits2_pos_bounds m :
  (2 ^ (Zpos (digits2_pos m) - 1) <= Zpos m < 2 ^ Zpos (digits2_pos m))%Z.
Proof.
  induction m as [m IH | m IH |]; cbn [digits2_pos].
  - rewrite Pos2Z.inj_succ.
    replace (Z.succ (Zpos (digits2_pos m)) - 1)%Z
      with (Z.succ (Zpos (digits2_pos m) - 1))%Z by lia.
    rewrite !Z.pow_succ_r by lia. lia.
  - rewrite Pos2Z.inj_succ.
    replace (Z.succ (Zpos (digits2_pos m)) - 1)%Z
      with (Z.succ (Zpos (digits2_pos m) - 1))%Z by lia.
    rewrite !Z.pow_succ_r by lia. lia.
  - simpl. lia.
Qed.

(** What [valid_binary] says of a Binary64.finite float: the exponent is at least
    -1074, the mantissa is below 2^53, and it is at least 2^52 unless the
    exponent is -1074. *)
Lemma bounded_facts m (e : Z) :
  bounded prec emax m e = true ->
  (-1074 <= e)%Z /\ (Zpos m < 2 ^ 53)%Z /\ (e = -1074 \/ 2 ^ 52 <= Zpos m)%Z.
Proof.
  unfold bounded, canonical_mantissa, fexp, SpecFloat.emin, prec, emax.
  intros H. apply andb_prop in H. destruct H as [H _].
  apply Z.eqb_eq in H.
  pose proof (digits2_pos_bounds m) as [Hlo Hhi].
  set (d := Zpos (digits2_pos m)) in *.
  assert (Hd : (d <= 53)%Z) by lia.
  split; [lia |]. split.
  - apply Z.lt_le_trans with (1 := Hhi). apply Z.pow_le_mono_r; lia.
  - destruct (Z.eq_dec e (-1074)) as [He | He]; [left; exact He | right].
    assert (d = 53)%Z by lia.
    replace 52%Z with (d - 1)%Z by lia. exact Hlo.
Qed.

Lemma pow2_pos (n : Z) : (0 < 2 ^ n)%Q.
Proof. apply Qpower_0_lt. reflexivity. Qed.

Lemma value_scaled (x : float) :
  Binary64.finite x = true ->
  Binary64.value x == inject_Z (scaled (Prim2SF x)) * 2 ^ (-1074).
Proof.
  unfold Binary64.finite, Binary64.value. pose proof (Prim2SF_valid x) as Hv.
  destruct (Prim2SF x) as [s | s | | s m e]; try discriminate; intros _.
  - simpl. ring.
  - simpl in Hv. apply bounded_facts in Hv. destruct Hv as [He _].
    unfold scaled. rewrite inject_Z_mult.
    rewrite (Zpower_Qpower 2 (e + 1074)) by lia.
    change (inject_Z 2) with 2.
    rewrite <- Qmult_assoc. rewrite <- Qpower_plus by discriminate.
    replace (e + 1074 + -1074)%Z with e by lia. reflexivity.
Qed.

Lemma value_lt (x y : float) :
  Binary64.finite x = true -> Binary64.finite y = true ->
  (Binary64.value x < Binary64.value y <-> (scaled (Prim2SF x) < scaled (Prim2SF y))%Z).
Proof.
  intros Hx Hy. rewrite (value_scaled x Hx), (value_scaled y Hy).
  rewrite Zlt_Qlt. split; intros H.
  - apply Qmult_lt_r in H; [exact H | apply pow2_pos].
  - apply Qmult_lt_r; [apply pow2_pos | exact H].
Qed.

Lemma scaled_compare m1 m2 (e1 e2 : Z) :
  bounded prec emax m1 e1 = true -> bounded prec emax m2 e2 = true ->
  (e1 < e2)%Z ->
  (Zpos m1 * 2 ^ (e1 + 1074) < Zpos m2 * 2 ^ (e2 + 1074))%Z.
Proof.
  intros H1 H2 He.
  apply bounded_facts in H1, H2.
  destruct H1 as (He1 & Hm1 & _). destruct H2 as (He2 & _ & Hm2).
  destruct Hm2 as [Hm2 | Hm2]; [lia |].
  assert (Hp1 : (0 < 2 ^ (e1 + 1074))%Z) by (apply Z.pow_pos_nonneg; lia).
  assert (Hp2 : (2 ^ (e2 + 1074) = 2 ^ (e2 - e1 - 1) * 2 * 2 ^ (e1 + 1074))%Z).
  { replace (e2 + 1074)%Z with ((e2 - e1 - 1) + 1 + (e1 + 1074))%Z by lia.
    rewrite !Z.pow_add_r by lia. reflexivity. }
  assert (Hp3 : (1 <= 2 ^ (e2 - e1 - 1))%Z).
  { change 1%Z with (2 ^ 0)%Z at 1. apply Z.pow_le_mono_r; lia. }
  rewrite Hp2.
  change (2 ^ 53)%Z with (2 ^ 52 * 2)%Z in Hm1.
  nia.
Qed.

Ltac compare_case :=
  cbv beta iota;
  rewrite <- ?Pos2Z.opp_pos;
  split;
  [ first [ discriminate | intros _; nia ]
  | first [ reflexivity | intros; exfalso; nia ] ].

(** The comparison of binary64 is the comparison of the values. *)
Lemma ltb_value (x y : float) :
  Binary64.finite x = true -> Binary64.finite y = true ->
  PrimFloat.ltb x y = Qltb (Binary64.value x) (Binary64.value y).
Proof.
  intros Hx Hy.
  assert (H : PrimFloat.ltb x y = true <-> Binary64.value x < Binary64.value y).
  { rewrite (value_lt x y Hx Hy). rewrite ltb_spec.
    unfold Binary64.finite in Hx, Hy.
    pose proof (Prim2SF_valid x) as Vx. pose proof (Prim2SF_valid y) as Vy.
    destruct (Prim2SF x) as [s1 | s1 | | s1 m1 e1]; try discriminate;
      destruct (Prim2SF y) as [s2 | s2 | | s2 m2 e2]; try discriminate;
      unfold SFltb, SFcompare, scaled; simpl in Vx, Vy.
    - split; [discriminate | lia].
    - assert (0 < 2 ^ (e2 + 1074))%Z
        by (apply Z.pow_pos_nonneg; [lia | apply bounded_facts in Vy; lia]).
      destruct s2; compare_case.
    - assert (0 < 2 ^ (e1 + 1074))%Z
        by (apply Z.pow_pos_nonneg; [lia | apply bounded_facts in Vx; lia]).
      destruct s1; compare_case.
    - assert (P1 : (0 < 2 ^ (e1 + 1074))%Z)
        by (apply Z.pow_pos_nonneg; [lia | apply bounded_facts in Vx; lia]).
      assert (P2 : (0 < 2 ^ (e2 + 1074))%Z)
        by (apply Z.pow_pos_nonneg; [lia | apply bounded_facts in Vy; lia]).
      pose proof (scaled_compare m1 m2 e1 e2 Vx Vy) as L12.
      pose proof (scaled_compare m2 m1 e2 e1 Vy Vx) as L21.
      destruct s1, s2; try compare_case;
        (destruct (Z.compare_spec e1 e2) as [E | E | E];
         [ subst e2; rewrite Pos.compare_cont_spec; unfold Pos.switch_Eq;
           destruct (Pos.compare_spec m1 m2) as [E | E | E];
           unfold CompOpp; try subst m2; compare_case
         | specialize (L12 E); compare_case
         | specialize (L21 E); compare_case ]). }
  destruct (PrimFloat.ltb x y) eqn:E1; symmetry.
  - apply Qltb_true. apply H. reflexivity.
  - apply Qltb_false. apply Qnot_lt_le. intros C. apply H in C. discriminate.
Qed.

Lemma opp_finite (x : float) : Binary64.finite (- x) = Binary64.finite x.
Proof. unfold Binary64.finite. rewrite opp_spec. destruct (Prim2SF x); reflexivity. Qed.

Lemma opp_value (x : float) : Binary64.value (- x) == - Binary64.value x.
Proof.
  unfold Binary64.value. rewrite opp_spec.
  destruct (Prim2SF x) as [s | s | | s m e]; simpl; try reflexivity.
  destruct s; simpl.
  - change (inject_Z (Zneg m)) with (- inject_Z (Zpos m)). ring.
  - change (inject_Z (Zneg m)) with (- inject_Z (Zpos m)). ring.
Qed.

(** ** The optimizer in binary64 and the optimizer on numbers *)

(** The numbers are measured in the unit that makes the float [0.01] one
    hundredth: the tests of the float program are then the tests of
    [Splitter.optimize_payments]. *)
Definition rescale (q : Q) : Q := q * (eps / Binary64.eps).

Lemma unit_pos : 0 < eps / Binary64.eps.
Proof. vm_compute. reflexivity. Qed.

Lemma rescale_eps : rescale Binary64.eps == eps.
Proof. vm_compute. reflexivity. Qed.

Lemma rescale_plus (a b : Q) : rescale (a + b) == rescale a + rescale b.
Proof. unfold rescale. ring. Qed.

Lemma rescale_minus (a b : Q) : rescale (a - b) == rescale a - rescale b.
Proof. unfold rescale. ring. Qed.

Lemma rescale_opp (a : Q) : rescale (- a) == - rescale a.
Proof. unfold rescale. ring. Qed.

Lemma rescale_zero : rescale 0 == 0.
Proof. unfold rescale. ring. Qed.

#[local] Instance rescale_compat : Proper (Qeq ==> Qeq) rescale.
Proof. intros a b H. unfold rescale. rewrite H. reflexivity. Qed.

Lemma rescale_lt (a b : Q) : rescale a < rescale b <-> a < b.
Proof.
  unfold rescale. pose proof unit_pos as Hu. split; intros H.
  - apply Qmult_lt_r in H; assumption.
  - apply Qmult_lt_r; assumption.
Qed.

Lemma rescale_le (a b : Q) : rescale a <= rescale b <-> a <= b.
Proof.
  unfold rescale. pose proof unit_pos as Hu. split; intros H.
  - apply Qmult_le_r in H; assumption.
  - apply Qmult_le_r; assumption.
Qed.

Lemma rescale_abs (a : Q) : Qabs (rescale a) == rescale (Qabs a).
Proof.
  unfold rescale. rewrite Qabs_Qmult.
  rewrite (Qabs_pos (eps / Binary64.eps)); [reflexivity |].
  apply Qlt_le_weak. exact unit_pos.
Qed.

Lemma Qltb_compat (a a' b b' : Q) :
  a == a' -> b == b' -> Qltb a b = Qltb a' b'.
Proof.
  intros Ha Hb. destruct (Qltb a' b') eqn:E.
  - apply Qltb_true. apply Qltb_true in E. rewrite Ha, Hb. exact E.
  - apply Qltb_false. apply Qltb_false in E. rewrite Ha, Hb. exact E.
Qed.

(** The tests of the float program, on the numbers. *)
Lemma ltb_rescale (x y : float) (a b : Q) :
  Binary64.finite x = true -> Binary64.finite y = true ->
  rescale (Binary64.value x) == a -> rescale (Binary64.value y) == b ->
  PrimFloat.ltb x y = Qltb a b.
Proof.
  intros Hx Hy Ha Hb. rewrite (ltb_value x y Hx Hy).
  rewrite <- (Qltb_compat _ _ _ _ Ha Hb).
  destruct (Qltb (rescale (Binary64.value x)) (rescale (Binary64.value y))) eqn:E.
  - apply Qltb_true. apply Qltb_true in E. apply rescale_lt. exact E.
  - apply Qltb_false. apply Qltb_false in E. apply rescale_le. exact E.
Qed.

Lemma cent_finite : Binary64.finite Binary64.cent = true.
Proof. reflexivity. Qed.

Lemma below_threshold (x : float) (a : Q) :
  Binary64.finite x = true -> rescale (Binary64.value x) == a ->
  PrimFloat.ltb x (- Binary64.cent) = Qltb a (- eps).
Proof.
  intros Hx Ha. apply ltb_rescale; try assumption.
  - rewrite opp_finite. exact cent_finite.
  - rewrite opp_value, rescale_opp.
    change (Binary64.value Binary64.cent) with Binary64.eps.
    rewrite rescale_eps. reflexivity.
Qed.

Lemma above_threshold (x : float) (a : Q) :
  Binary64.finite x = true -> rescale (Binary64.value x) == a ->
  PrimFloat.ltb Binary64.cent x = Qltb eps a.
Proof.
  intros Hx Ha. apply ltb_rescale; try assumption.
  - exact cent_finite.
  - change (Binary64.value Binary64.cent) with Binary64.eps.
    apply rescale_eps.
Qed.

(** The balances in the unit of [rescale]. *)
Definition rescaled (results : Binary64.results_dict) : results_dict :=
  map (fun item => (fst item, rescale (Binary64.value (snd item)))) results.

(** A float entry and the entry it stands for; likewise for transfers. *)
Definition entry_sim (e : Binary64.entry) (q : entry) : Prop :=
  Binary64.name e = name q /\ Binary64.finite (Binary64.amount e) = true /\
  rescale (Binary64.value (Binary64.amount e)) == amount q.

Definition transfer_sim (t : Binary64.transaction) (q : transaction) : Prop :=
  Binary64.txn_from t = txn_from q /\ Binary64.txn_to t = txn_to q /\
  rescale (Binary64.value (Binary64.txn_amount t)) == txn_amount q.

Lemma classify_sim (results : Binary64.results_dict) :
  Binary64.all_finite results ->
  forall d c dq cq,
    Forall2 entry_sim d dq -> Forall2 entry_sim c cq ->
    Forall2 entry_sim
      (fst (fold_left Binary64.classify_step results (d, c)))
      (fst (fold_left classify_step (rescaled results) (dq, cq))) /\
    Forall2 entry_sim
      (snd (fold_left Binary64.classify_step results (d, c)))
      (snd (fold_left classify_step (rescaled results) (dq, cq))).
Proof.
  induction 1 as [| [nm bal] rest Hfin Hrest IH]; intros d c dq cq Hd Hc.
  - simpl. split; assumption.
  - cbn [rescaled map fold_left Binary64.classify_step classify_step fst snd].
    simpl in Hfin.
    rewrite (below_threshold bal _ Hfin (Qeq_refl _)).
    rewrite (above_threshold bal _ Hfin (Qeq_refl _)).
    destruct (Qltb (rescale (Binary64.value bal)) (- eps)).
    + apply IH; [| exact Hc].
      apply Forall2_app; [exact Hd |]. constructor; [| constructor].
      split; [reflexivity | split]; simpl.
      * rewrite opp_finite. exact Hfin.
      * rewrite opp_value, rescale_opp. reflexivity.
    + destruct (Qltb eps (rescale (Binary64.value bal))).
      * apply IH; [exact Hd |].
        apply Forall2_app; [exact Hc |]. constructor; [| constructor].
        split; [reflexivity | split]; simpl; [exact Hfin | reflexivity].
      * apply IH; assumption.
Qed.

Lemma insert_desc_sim e q l lq :
  entry_sim e q -> Forall2 entry_sim l lq ->
  Forall2 entry_sim (Binary64.insert_desc e l) (insert_desc q lq).
Proof.
  intros He. induction 1 as [| h hq t tq Hh Ht IH]; simpl.
  - constructor; [exact He | constructor].
  - destruct He as (Hn & Hf & Hv). destruct Hh as (Hn' & Hf' & Hv').
    rewrite (ltb_rescale _ _ _ _ Hf Hf' Hv Hv').
    pose proof (conj Hn (conj Hf Hv)) as He.
    pose proof (conj Hn' (conj Hf' Hv')) as Hh.
    destruct (Qltb (amount q) (amount hq)).
    + constructor; [exact Hh | exact IH].
    + constructor; [exact He | constructor; [exact Hh | exact Ht]].
Qed.

Lemma sort_desc_sim l lq :
  Forall2 entry_sim l lq ->
  Forall2 entry_sim (Binary64.sort_desc l) (sort_desc lq).
Proof.
  induction 1 as [| h hq t tq Hh Ht IH]; simpl; [constructor |].
  apply insert_desc_sim; assumption.
Qed.

Lemma settle64_cons d ds c cs :
  Binary64.settle (d :: ds) (c :: cs) =
  if PrimFloat.ltb (Binary64.amount d) (Binary64.amount c) then
    Binary64.mkTransaction (Binary64.name d) (Binary64.name c) (Binary64.amount d)
    :: Binary64.settle ds
         (Binary64.mkEntry (Binary64.name c)
            (Binary64.amount c - Binary64.amount d)%float :: cs)
  else if PrimFloat.ltb (Binary64.amount c) (Binary64.amount d) then
    Binary64.mkTransaction (Binary64.name d) (Binary64.name c) (Binary64.amount c)
    :: Binary64.settle
         (Binary64.mkEntry (Binary64.name d)
            (Binary64.amount d - Binary64.amount c)%float :: ds) cs
  else Binary64.mkTransaction (Binary64.name d) (Binary64.name c) (Binary64.amount d)
       :: Binary64.settle ds cs.
Proof.
  simp settle.
  destruct (PrimFloat.ltb (Binary64.amount d) (Binary64.amount c)); simpl;
    [reflexivity |].
  destruct (PrimFloat.ltb (Binary64.amount c) (Binary64.amount d)); reflexivity.
Qed.

Lemma subtractions_cons d ds c cs :
  Binary64.subtractions (d :: ds) (c :: cs) =
  if PrimFloat.ltb (Binary64.amount d) (Binary64.amount c) then
    (Binary64.amount c, Binary64.amount d)
    :: Binary64.subtractions ds
         (Binary64.mkEntry (Binary64.name c)
            (Binary64.amount c - Binary64.amount d)%float :: cs)
  else if PrimFloat.ltb (Binary64.amount c) (Binary64.amount d) then
    (Binary64.amount d, Binary64.amount c)
    :: Binary64.subtractions
         (Binary64.mkEntry (Binary64.name d)
            (Binary64.amount d - Binary64.amount c)%float :: ds) cs
  else Binary64.subtractions ds cs.
Proof.
  simp subtractions.
  destruct (PrimFloat.ltb (Binary64.amount d) (Binary64.amount c)); simpl;
    [reflexivity |].
  destruct (PrimFloat.ltb (Binary64.amount c) (Binary64.amount d)); reflexivity.
Qed.

(** While no subtraction rounds, the float loop makes the transfers of
    the loop on numbers. *)
Lemma settle_sim (n : nat) : forall ds cs dq cq,
  (length ds + length cs <= n)%nat ->
  Forall2 entry_sim ds dq -> Forall2 entry_sim cs cq ->
  Forall Binary64.exact_sub (Binary64.subtractions ds cs) ->
  Forall2 transfer_sim (Binary64.settle ds cs) (settle dq cq).
Proof.
  induction n as [| n IH]; intros ds cs dq cq Hlen Hd Hc Hex.
  - destruct ds; [| simpl in Hlen; lia]. inversion Hd; subst.
    simp settle. constructor.
  - destruct Hd as [| d q ds dq Hd Hds].
    { simp settle. constructor. }
    destruct Hc as [| c p cs cq Hc Hcs].
    { simp settle. constructor. }
    simpl in Hlen.
    rewrite settle64_cons, settle_cons. rewrite subtractions_cons in Hex.
    destruct Hd as (Hdn & Hdf & Hdv). destruct Hc as (Hcn & Hcf & Hcv).
    rewrite (ltb_rescale _ _ _ _ Hdf Hcf Hdv Hcv) in *.
    rewrite (ltb_rescale _ _ _ _ Hcf Hdf Hcv Hdv) in *.
    destruct (Qltb (amount q) (amount p)).
    + inversion Hex as [| ? ? [Hf He] Hex']; subst. simpl in Hf, He.
      constructor; [repeat split; assumption |].
      apply IH; [simpl; lia | exact Hds | | exact Hex'].
      constructor; [| exact Hcs].
      split; [exact Hcn | split; [exact Hf |]]. simpl.
      rewrite He, rescale_minus, Hcv, Hdv. reflexivity.
    + destruct (Qltb (amount p) (amount q)).
      * inversion Hex as [| ? ? [Hf He] Hex']; subst. simpl in Hf, He.
        constructor; [repeat split; assumption |].
        apply IH; [simpl; lia | | exact Hcs | exact Hex'].
        constructor; [| exact Hds].
        split; [exact Hdn | split; [exact Hf |]]. simpl.
        rewrite He, rescale_minus, Hcv, Hdv. reflexivity.
      * constructor; [repeat split; assumption |].
        apply IH; [lia | exact Hds | exact Hcs | exact Hex].
Qed.

(** The transfers of the float program are those of the program on
    numbers, for balances that are numbers and a run that does not round. *)
Lemma optimize_payments_sim (results : Binary64.results_dict) :
  Binary64.all_finite results -> Binary64.rounds_nowhere results ->
  Forall2 transfer_sim (Binary64.optimize_payments results)
    (optimize_payments (rescaled results)).
Proof.
  intros Hfin Hex.
  destruct (classify_sim results Hfin [] [] [] [] (Forall2_nil _) (Forall2_nil _))
    as [Hd Hc].
  unfold Binary64.rounds_nowhere in Hex.
  unfold Binary64.optimize_payments, optimize_payments,
    Binary64.classify, classify in *.
  destruct (fold_left Binary64.classify_step results ([], [])) as [d c].
  destruct (fold_left classify_step (rescaled results) ([], [])) as [dq cq].
  cbn [fst snd] in *.
  apply (settle_sim (length (Binary64.sort_desc d) + length (Binary64.sort_desc c)));
    [lia | apply sort_desc_sim; exact Hd | apply sort_desc_sim; exact Hc
    | exact Hex].
Qed.

(** *** Sums on the two sides *)

Lemma transfers_sim_sums ts tq :
  Forall2 transfer_sim ts tq ->
  transferred tq == rescale (transferred (Binary64.transfers ts)) /\
  forall n,
    paid_by n tq == rescale (paid_by n (Binary64.transfers ts)) /\
    received_by n tq == rescale (received_by n (Binary64.transfers ts)).
Proof.
  induction 1 as [| t q ts tq (Hf & Ht & Hv) Hrest [IHt IH]];
    cbn [Binary64.transfers map transferred paid_by received_by
         txn_from txn_to txn_amount].
  - split; [| intros n; split]; rewrite rescale_zero; reflexivity.
  - fold (Binary64.transfers ts). split.
    + rewrite rescale_plus, IHt, Hv. reflexivity.
    + intros n. destruct (IH n) as [IHp IHr]. rewrite <- Hf, <- Ht.
      split.
      * destruct (String.eqb (Binary64.txn_from t) n);
          rewrite ?rescale_plus, IHp, ?Hv; reflexivity.
      * destruct (String.eqb (Binary64.txn_to t) n);
          rewrite ?rescale_plus, IHr, ?Hv; reflexivity.
Qed.

Lemma entries_sim_total l lq :
  Forall2 entry_sim l lq -> total lq == rescale (total (Binary64.entries l)).
Proof.
  induction 1 as [| e q l lq (_ & _ & Hv) Hrest IH];
    cbn [Binary64.entries map total amount].
  - rewrite rescale_zero. reflexivity.
  - fold (Binary64.entries l). rewrite rescale_plus, IH, Hv. reflexivity.
Qed.

Lemma totals_sim (results : Binary64.results_dict) :
  Binary64.all_finite results ->
  total_debt (rescaled results) == rescale (Binary64.total_debt results) /\
  total_credit (rescaled results) == rescale (Binary64.total_credit results).
Proof.
  intros Hfin.
  destruct (classify_sim results Hfin [] [] [] [] (Forall2_nil _) (Forall2_nil _))
    as [Hd Hc].
  unfold total_debt, total_credit, debtors_of, creditors_of,
    Binary64.total_debt, Binary64.total_credit, classify, Binary64.classify.
  split; apply entries_sim_total; assumption.
Qed.

Lemma rescaled_keys (results : Binary64.results_dict) :
  keys (rescaled results) = Binary64.keys results.
Proof.
  unfold keys, rescaled, Binary64.keys. rewrite map_map. reflexivity.
Qed.

Lemma balances_keys (results : Binary64.results_dict) :
  keys (Binary64.balances results) = Binary64.keys results.
Proof.
  unfold keys, Binary64.balances, Binary64.keys. rewrite map_map. reflexivity.
Qed.

Lemma rescaled_sum (results : Binary64.results_dict) :
  sum_balances (rescaled results)
  == rescale (sum_balances (Binary64.balances results)).
Proof.
  induction results as [| [nm bal] rest IH]; simpl.
  - rewrite rescale_zero. reflexivity.
  - rewrite rescale_plus, <- IH. reflexivity.
Qed.

Lemma balances_In (results : Binary64.results_dict) n b :
  In (n, b) (Binary64.balances results) ->
  In (n, rescale b) (rescaled results).
Proof.
  unfold Binary64.balances, rescaled. rewrite !in_map_iff.
  intros [[k x] [E Hin]]. simpl in E. injection E as E1 E2. subst n b.
  exists (k, x). split; [reflexivity | exact Hin].
Qed.

Lemma rescaled_In (results : Binary64.results_dict) n bq :
  In (n, bq) (rescaled results) ->
  exists b, In (n, b) (Binary64.balances results) /\ bq = rescale b.
Proof.
  unfold Binary64.balances, rescaled. rewrite in_map_iff.
  intros [[k x] [E Hin]]. simpl in E. injection E as E1 E2. subst n bq.
  exists (Binary64.value x). split; [| reflexivity].
  apply in_map_iff. exists (k, x). split; [reflexivity | exact Hin].
Qed.

Lemma keys_In (balances : results_dict) n :
  In n (keys balances) -> exists b, In (n, b) balances.
Proof.
  unfold keys. rewrite in_map_iff. intros [[k v] [E Hin]]. simpl in E. subst.
  exists v. exact Hin.
Qed.

Lemma rescale_injective (a b : Q) : rescale a == rescale b -> a == b.
Proof.
  intros H. apply Qle_antisym; apply rescale_le; rewrite H; apply Qle_refl.
Qed.

(** A balance after the transfers of the float program, and the balance of
    the same participant after the transfers of the program on numbers. *)
Lemma settled_balance_sim (results : Binary64.results_dict) n b' :
  NoDup (Binary64.keys results) ->
  Binary64.all_finite results -> Binary64.rounds_nowhere results ->
  In (n, b') (apply_transfers (Binary64.balances results)
                (Binary64.transfers (Binary64.optimize_payments results))) ->
  exists bq,
    In (n, bq) (apply_transfers (rescaled results)
                  (optimize_payments (rescaled results))) /\
    bq == rescale b'.
Proof.
  intros Hnd Hfin Hex Hin.
  pose proof (optimize_payments_sim results Hfin Hex) as Hsim.
  apply transfers_sim_sums in Hsim. destruct Hsim as [_ Hsums].
  destruct (Hsums n) as [Hp Hr].
  apply apply_transfers_In in Hin. destruct Hin as (b & Hb & Hb').
  assert (Hk : In n (keys (apply_transfers (rescaled results)
                             (optimize_payments (rescaled results))))).
  { rewrite apply_transfers_keys, rescaled_keys, <- balances_keys.
    apply (in_map fst) in Hb. exact Hb. }
  apply keys_In in Hk. destruct Hk as [bq Hbq].
  exists bq. split; [exact Hbq |].
  apply apply_transfers_In in Hbq. destruct Hbq as (b0 & Hb0 & Hbq).
  assert (E : b0 = rescale b).
  { apply (balance_unique (rescaled results) n); [| exact Hb0 |].
    - rewrite rescaled_keys. exact Hnd.
    - apply balances_In. exact Hb. }
  subst b0. rewrite Hbq, Hb', Hp, Hr, !rescale_minus, rescale_plus. reflexivity.
Qed.

Lemma within_eps_rescaled (b : Q) :
  Qabs (rescale b) <= eps <-> Qabs b <= Binary64.eps.
Proof.
  rewrite rescale_abs. rewrite <- rescale_eps. apply rescale_le.
Qed.

(** *** Who sends and who receives, whatever the rounding *)

Lemma insert_desc64_In e x l :
  In e (Binary64.insert_desc x l) <-> e = x \/ In e l.
Proof.
  induction l as [| h t IH]; simpl.
  - split; intros [H | H]; auto.
  - destruct (PrimFloat.ltb (Binary64.amount x) (Binary64.amount h)); simpl;
      rewrite ?IH; intuition auto.
Qed.

Lemma sort_desc64_In e l : In e (Binary64.sort_desc l) <-> In e l.
Proof.
  induction l as [| h t IH]; simpl; [tauto |].
  rewrite insert_desc64_In, IH. intuition auto.
Qed.

Lemma classify64_names (results : Binary64.results_dict) : forall d c,
  (forall e, In e (fst (fold_left Binary64.classify_step results (d, c))) ->
     In e d \/ In (Binary64.name e) (Binary64.keys results)) /\
  (forall e, In e (snd (fold_left Binary64.classify_step results (d, c))) ->
     In e c \/ In (Binary64.name e) (Binary64.keys results)).
Proof.
  induction results as [| [nm bal] rest IH]; intros d c.
  - simpl. split; intros e H; left; exact H.
  - cbn [fold_left Binary64.classify_step Binary64.keys map fst].
    fold (Binary64.keys rest).
    destruct (PrimFloat.ltb bal (- Binary64.cent)).
    + destruct (IH (d ++ [Binary64.mkEntry nm (- bal)%float]) c) as [Hd Hc].
      split; intros e H.
      * apply Hd in H. destruct H as [H | H]; [| right; right; exact H].
        apply in_app_or in H. destruct H as [H | [<- | []]];
          [left; exact H | right; left; reflexivity].
      * apply Hc in H. destruct H as [H | H]; [left | right; right]; exact H.
    + destruct (PrimFloat.ltb Binary64.cent bal).
      * destruct (IH d (c ++ [Binary64.mkEntry nm bal])) as [Hd Hc].
        split; intros e H.
        -- apply Hd in H. destruct H as [H | H]; [left | right; right]; exact H.
        -- apply Hc in H. destruct H as [H | H]; [| right; right; exact H].
           apply in_app_or in H. destruct H as [H | [<- | []]];
             [left; exact H | right; left; reflexivity].
      * destruct (IH d c) as [Hd Hc].
        split; intros e H; [apply Hd in H | apply Hc in H];
          (destruct H as [H | H]; [left | right; right]; exact H).
Qed.

Lemma settle64_names debtors creditors t :
  In t (Binary64.settle debtors creditors) ->
  In (Binary64.txn_from t) (map Binary64.name debtors) /\
  In (Binary64.txn_to t) (map Binary64.name creditors).
Proof.
  funelim (Binary64.settle debtors creditors); simpl; try tauto;
    (intros [<- | Hin]; [simpl; tauto |]);
    match goal with IH : forall t, In t _ -> _ |- _ =>
      destruct (IH _ Hin) as [Hf Ht] end;
    simpl in *; tauto.
Qed.

(** The sender and the receiver of a transfer are participants. *)
Lemma optimize_payments64_names (results : Binary64.results_dict) t :
  In t (Binary64.optimize_payments results) ->
  In (Binary64.txn_from t) (Binary64.keys results) /\
  In (Binary64.txn_to t) (Binary64.keys results).
Proof.
  unfold Binary64.optimize_payments, Binary64.classify.
  destruct (classify64_names results [] []) as [Hd Hc].
  destruct (fold_left Binary64.classify_step results ([], [])) as [d c].
  cbn [fst snd] in *. intros Hin.
  apply settle64_names in Hin. destruct Hin as [Hf Ht].
  apply in_map_iff in Hf. destruct Hf as (e1 & E1 & H1).
  apply in_map_iff in Ht. destruct Ht as (e2 & E2 & H2).
  apply (proj1 (sort_desc64_In _ _)) in H1.
  apply (proj1 (sort_desc64_In _ _)) in H2.
  apply Hd in H1. apply Hc in H2.
  destruct H1 as [[] | H1], H2 as [[] | H2].
  rewrite <- E1, <- E2. split; assumption.
Qed.

Lemma transfers_names (results : Binary64.results_dict) t :
  In t (Binary64.transfers (Binary64.optimize_payments results)) ->
  In (txn_from t) (keys (Binary64.balances results)) /\
  In (txn_to t) (keys (Binary64.balances results)).
Proof.
  unfold Binary64.transfers. rewrite in_map_iff. intros (t0 & E & Hin).
  subst t. simpl. rewrite balances_keys.
  apply optimize_payments64_names. exact Hin.
Qed.

Lemma rescale_thresholds (b : Q) :
  (b < - Binary64.eps <-> rescale b < - eps) /\
  (Binary64.eps < b <-> eps < rescale b) /\
  (- Binary64.eps <= b <-> - eps <= rescale b) /\
  (b <= Binary64.eps <-> rescale b <= eps).
Proof.
  pose proof (rescale_lt b (- Binary64.eps)) as H1.
  pose proof (rescale_lt Binary64.eps b) as H2.
  pose proof (rescale_le (- Binary64.eps) b) as H3.
  pose proof (rescale_le b Binary64.eps) as H4.
  rewrite rescale_opp in H1, H3. rewrite rescale_eps in H1, H2, H3, H4.
  tauto.
Qed.

Lemma rescale_sign (b : Q) :
  (rescale b <= 0 <-> b <= 0) /\ (0 <= rescale b <-> 0 <= b).
Proof.
  pose proof (rescale_le b 0) as H1. pose proof (rescale_le 0 b) as H2.
  rewrite rescale_zero in H1, H2. tauto.
Qed.

Lemma debt_credit_rescaled (results : Binary64.results_dict) :
  Binary64.all_finite results ->
  total_debt (rescaled results) - total_credit (rescaled results)
  == rescale (Binary64.total_debt results - Binary64.total_credit results).
Proof.
  intros Hfin. destruct (totals_sim results Hfin) as [Hd Hc].
  rewrite Hd, Hc, rescale_minus. reflexivity.
Qed.

(** *** The sample balances *)

Lemma one_creditor64_keys : NoDup (Binary64.keys one_creditor64).
Proof.
  repeat constructor; simpl; intros H;
    repeat (destruct H as [H | H]; [discriminate H |]); exact H.
Qed.

Lemma one_creditor64_finite : Binary64.all_finite one_creditor64.
Proof. repeat constructor. Qed.

Lemma one_creditor64_exact : Binary64.rounds_nowhere one_creditor64.
Proof.
  unfold Binary64.rounds_nowhere.
  replace (Binary64.subtractions _ _) with [(30%float, 20%float)]
    by (vm_compute; reflexivity).
  repeat constructor.
Qed.

Lemma unbalanced64_keys : NoDup (Binary64.keys unbalanced64).
Proof.
  repeat constructor; simpl; intros H;
    repeat (destruct H as [H | H]; [discriminate H |]); exact H.
Qed.

Lemma unbalanced64_finite : Binary64.all_finite unbalanced64.
Proof. repeat constructor. Qed.

Lemma unbalanced64_exact : Binary64.rounds_nowhere unbalanced64.
Proof.
  unfold Binary64.rounds_nowhere.
  replace (Binary64.subtractions _ _) with [(30%float, 10%float)]
    by (vm_compute; reflexivity).
  repeat constructor.
Qed.

(** ** The properties of the specification *)




(** The comparisons behind the second half of [settlement_counterexamples]
    give the same answers on binary64 floats: [-0.01 < -0.01] is false,
    [0.02 > 0.01] is true, and [0.02 + -0.01 + -0.01] is zero. *)
#[local] Set Warnings "-inexact-float".
Example small_debts_in_binary64 :
  (PrimFloat.ltb (-0.01) (-0.01) = false /\
   PrimFloat.ltb 0.01 0.02 = true /\
   PrimFloat.eqb (0.02 + (-0.01) + (-0.01)) 0 = true)%float.
Proof. repeat split. Qed.
#[local] Set Warnings "+inexact-float".




(** C6, as the code has it.  [optimize_payments] checks nothing: whatever
    the balances sum to, it returns the transfers of the greedy loop.  They
    move money without making any, so the balances sum after them to what
    they summed before.  If no subtraction of the second loop rounds,
    nobody is taken past zero, balances within [0.01] are left alone, and
    the smaller of the two sides is paid in full. *)
Theorem unbalanced_input_is_settled_partially
  (results : Binary64.results_dict) :
  NoDup (Binary64.keys results) ->
  Binary64.all_finite results ->
  sum_balances (apply_transfers (Binary64.balances results)
                  (Binary64.transfers (Binary64.optimize_payments results)))
    == sum_balances (Binary64.balances results) /\
  (Binary64.rounds_nowhere results ->
   (forall n b',
      In (n, b') (apply_transfers (Binary64.balances results)
                    (Binary64.transfers (Binary64.optimize_payments results))) ->
      exists b, In (n, b) (Binary64.balances results) /\
        (b < - Binary64.eps -> b <= b' <= 0) /\
        (Binary64.eps < b -> 0 <= b' <= b) /\
        (- Binary64.eps <= b <= Binary64.eps -> b' == b)) /\
   (Binary64.total_debt results <= Binary64.total_credit results ->
    transferred (Binary64.transfers (Binary64.optimize_payments results))
      == Binary64.total_debt results) /\
   (Binary64.total_credit results <= Binary64.total_debt results ->
    transferred (Binary64.transfers (Binary64.optimize_payments results))
      == Binary64.total_credit results)).
Proof.
  intros Hnd Hfin. split.
  - apply apply_transfers_sum.
    + rewrite balances_keys. exact Hnd.
    + intros t Ht. apply transfers_names. exact Ht.
  - intros Hex.
    assert (Hndq : NoDup (keys (rescaled results)))
      by (rewrite rescaled_keys; exact Hnd).
    destruct (exact_partial_settlement (rescaled results) Hndq)
      as (_ & H2 & H3 & H4).
    destruct (totals_sim results Hfin) as [Htd Htc].
    pose proof (optimize_payments_sim results Hfin Hex) as Hsim.
    apply transfers_sim_sums in Hsim. destruct Hsim as [Htr _].
    split; [| split].
    + intros n b' Hin.
      destruct (settled_balance_sim results n b' Hnd Hfin Hex Hin)
        as (bq & Hbq & Eq).
      destruct (H2 n bq Hbq) as (c & Hc & Hdebt & Hcred & Hnone).
      apply rescaled_In in Hc. destruct Hc as (b & Hb & ->).
      exists b. split; [exact Hb |].
      pose proof (rescale_thresholds b) as (T1 & T2 & T3 & T4).
      pose proof (rescale_sign b') as [S1 S2].
      pose proof (rescale_le b b') as L1. pose proof (rescale_le b' b) as L2.
      rewrite Eq in Hdebt, Hcred, Hnone.
      split; [| split].
      * intros H. apply T1 in H. specialize (Hdebt H). tauto.
      * intros H. apply T2 in H. specialize (Hcred H). tauto.
      * intros H. apply rescale_injective. apply Hnone. tauto.
    + intros Hle. apply rescale_injective. rewrite <- Htr, <- Htd.
      apply H3. rewrite Htd, Htc. apply rescale_le. exact Hle.
    + intros Hle. apply rescale_injective. rewrite <- Htr, <- Htc.
      apply H4. rewrite Htd, Htc. apply rescale_le. exact Hle.
Qed.

Lemma unbalanced_sum_is_kept :
  sum_balances
    (apply_transfers (Binary64.balances unbalanced64)
       (Binary64.transfers (Binary64.optimize_payments unbalanced64)))
    == sum_balances (Binary64.balances unbalanced64).
Proof.
  exact (proj1 (unbalanced_input_is_settled_partially unbalanced64
                  unbalanced64_keys unbalanced64_finite)).
Defined.

(** C6, as the specification has it, fails: the balances A: +30, B: -10 sum
    to 20, and [optimize_payments] returns the transfer of 10 from B to A,
    which leaves A at +20. *)
Lemma unbalanced_input_gets_transfers :
  ~ Qabs (sum_balances unbalanced) <= eps /\
  optimize_payments unbalanced = [mkTransaction "B" "A" 10] /\
  apply_transfers unbalanced (optimize_payments unbalanced) =
    [("A"%string, 20); ("B"%string, 0)].
Proof.
  split; [| split]; try reflexivity.
  intros H. vm_compute in H. apply H. reflexivity.
Qed.

(** Where a subtraction rounds, a debtor can be taken past zero: the
    balances of [overpaid64] sum to zero, and D0, who owes [2^54], pays
    [2^54 + 1] and ends at +1. *)
Example rounding_overpays :
  sum_balances (Binary64.balances overpaid64) == 0 /\
  ~ Binary64.rounds_nowhere overpaid64 /\
  In ("D0"%string, 1)
    (map (fun item => (fst item, Qred (snd item)))
       (apply_transfers (Binary64.balances overpaid64)
          (Binary64.transfers (Binary64.optimize_payments overpaid64)))).
Proof.
  split; [vm_compute; reflexivity | split].
  - unfold Binary64.rounds_nowhere.
    replace (Binary64.subtractions _ _)
      with [(18014398509481984%float, 9007199254740989%float);
            (9007199254740996%float, 9007199254740989%float)]
      by (vm_compute; reflexivity).
    intros H. apply Forall_inv in H. destruct H as [_ H].
    vm_compute in H. discriminate H.
  - vm_compute. tauto.
Qed.



(** ** Facts about [calculate_advanced_split] *)

(** *** Dicts *)


Lemma existsb_eqb_In (k : string) (l : list string) :
  existsb (String.eqb k) l = true <-> In k l.
Proof.
  rewrite existsb_exists. split.
  - intros [x [Hx E]]. apply String.eqb_eq in E. subst. exact Hx.
  - intros H. exists k. split; [exact H | apply String.eqb_refl].
Qed.


Lemma dict_set_fresh {V : Type} (k : string) (v : V) (d : list (string * V)) :
  ~ In k (map fst d) -> dict_set k v d = d ++ [(k, v)].
Proof.
  induction d as [| [k' v'] rest IH]; simpl; [reflexivity |].
  intros Hn.
  assert (Hne : String.eqb k' k = false) by (apply String.eqb_neq; intuition).
  rewrite Hne, IH by tauto. reflexivity.
Qed.


(** *** Loops *)


(** A loop that stores one value per element, under distinct keys, builds
    the dict of these values in the order of the list. *)
Lemma for_each_stores {A V : Type} (key : A -> string) (val : A -> V)
  (body : list (string * V) -> A -> result (list (string * V))) (l : list A) :
  forall acc,
  (forall a s, In a l -> body s a = Ok (dict_set (key a) (val a) s)) ->
  NoDup (map fst acc ++ map key l) ->
  for_each body l acc = Ok (acc ++ map (fun a => (key a, val a)) l).
Proof.
  induction l as [| a rest IH]; intros acc Hbody Hnd; simpl.
  - rewrite app_nil_r. reflexivity.
  - rewrite Hbody by (left; reflexivity).
    rewrite dict_set_fresh.
    + rewrite IH.
      * rewrite <- app_assoc. reflexivity.
      * intros a0 s Hin. apply Hbody. right. exact Hin.
      * rewrite map_app. simpl. rewrite <- app_assoc. exact Hnd.
    + intros Hin. simpl in Hnd. apply NoDup_remove_2 in Hnd.
      apply Hnd. apply in_or_app. left. exact Hin.
Qed.

(** A loop raises the exception of the first element whose turn raises. *)
Lemma for_each_raises {A S : Type} (body : S -> A -> result S) (l : list A) :
  forall s e,
  for_each body l s = Raise e ->
  exists a s', In a l /\ body s' a = Raise e.
Proof.
  induction l as [| a rest IH]; intros s e H; simpl in H; [discriminate |].
  destruct (body s a) as [s' | e'] eqn:Hb.
  - destruct (IH s' e H) as [a0 [s0 [Hin Hr]]]. exists a0, s0.
    split; [right; exact Hin | exact Hr].
  - inversion H; subst. exists a, s. split; [left; reflexivity | exact Hb].
Qed.

(** *** Sums *)

Lemma sum_over_const {A : Type} (c : Q) (l : list A) :
  sum_over (fun _ => c) l == inject_Z (Z.of_nat (length l)) * c.
Proof.
  induction l as [| a rest IH].
  - simpl. ring.
  - cbn [sum_over length]. rewrite IH, Nat2Z.inj_succ.
    unfold Z.succ. rewrite inject_Z_plus. ring.
Qed.

Lemma sum_over_scaled {A : Type} (f : A -> Q) (c d : Q) (l : list A) :
  sum_over (fun a => c * (f a / d)) l == c * (sum_over f l / d).
Proof.
  induction l as [| a rest IH]; simpl.
  - unfold Qdiv. ring.
  - rewrite IH. unfold Qdiv. ring.
Qed.

Lemma paid_for_cons nm e rest :
  paid_for nm (e :: rest) ==
  (if String.eqb (payer e) nm then expense_amount e else 0) + paid_for nm rest.
Proof. simpl. destruct (String.eqb (payer e) nm); ring. Qed.

(** Over distinct names, one name at most is the payer of an expense. *)
Lemma sum_over_payer (k : string) (a : Q) (people : list person) :
  NoDup (map person_name people) ->
  sum_over (fun p => if String.eqb k (person_name p) then a else 0) people ==
  (if existsb (String.eqb k) (map person_name people) then a else 0).
Proof.
  induction people as [| p rest IH]; intros Hnd; simpl; [reflexivity |].
  inversion Hnd as [| ? ? Hp Hrest]; subst.
  destruct (String.eqb k (person_name p)) eqn:E; simpl.
  - apply String.eqb_eq in E. subst k.
    rewrite IH by exact Hrest.
    destruct (existsb (String.eqb (person_name p)) (map person_name rest)) eqn:Hx.
    + apply existsb_eqb_In in Hx. contradiction.
    + ring.
  - rewrite IH by exact Hrest. ring.
Qed.

(** What the people of a list of distinct names paid is what the expenses
    of a listed payer amount to. *)
Lemma sum_over_paid_for (expenses : list expense) (people : list person) :
  NoDup (map person_name people) ->
  sum_over (fun p => paid_for (person_name p) expenses) people ==
  paid_by_listed (map person_name people) expenses.
Proof.
  intros Hnd. induction expenses as [| e rest IH].
  - simpl. clear Hnd. induction people as [| p ps IHp]; simpl; [reflexivity |].
    rewrite IHp. ring.
  - assert (Hsplit :
      sum_over (fun p => paid_for (person_name p) (e :: rest)) people ==
      sum_over (fun p => if String.eqb (payer e) (person_name p)
                         then expense_amount e else 0) people +
      sum_over (fun p => paid_for (person_name p) rest) people).
    { clear. induction people as [| p ps IHp]; [simpl; ring |].
      cbn [sum_over]. rewrite IHp, paid_for_cons. ring. }
    rewrite Hsplit, IH, sum_over_payer by exact Hnd. simpl.
    destruct (existsb (String.eqb (payer e)) (map person_name people)); ring.
Qed.

Lemma paid_by_listed_all (names : list string) (expenses : list expense) :
  (forall e, In e expenses -> In (payer e) names) ->
  paid_by_listed names expenses == sum_amounts expenses.
Proof.
  induction expenses as [| e rest IH]; intros Hall; simpl; [reflexivity |].
  assert (Hx : existsb (String.eqb (payer e)) names = true).
  { apply existsb_eqb_In. apply Hall. left. reflexivity. }
  rewrite Hx, IH; [reflexivity |].
  intros e' He'. apply Hall. right. exact He'.
Qed.

(** *** The three splits over distinct names *)






(** *** When the splits raise *)

Lemma for_each_returns {A S : Type} (body : S -> A -> result S) (l : list A) :
  (forall a s, In a l -> exists s', body s a = Ok s') ->
  forall s, exists r, for_each body l s = Ok r.
Proof.
  induction l as [| a rest IH]; intros Hbody s; simpl; [eauto |].
  destruct (Hbody a s (or_introl eq_refl)) as [s' Hs']. rewrite Hs'.
  apply IH. intros a0 s0 Hin. apply Hbody. right. exact Hin.
Qed.

Lemma for_each_raises_first {A S : Type} (body : S -> A -> result S)
  (e : split_error) (l : list A) :
  (forall a s, In a l -> (exists s', body s a = Ok s') \/ body s a = Raise e) ->
  Exists (fun a => forall s, body s a = Raise e) l ->
  forall s, for_each body l s = Raise e.
Proof.
  induction l as [| a rest IH]; intros Hbody Hex s; [inversion Hex |].
  simpl. destruct (Hbody a s (or_introl eq_refl)) as [[s' Hs'] | Hr].
  - rewrite Hs'. apply IH.
    + intros a0 s0 Hin. apply Hbody. right. exact Hin.
    + inversion Hex as [? ? Ha | ? ? Hrest]; subst; [| exact Hrest].
      rewrite Ha in Hs'. discriminate.
  - rewrite Hr. reflexivity.
Qed.

Lemma present_or_missing {A B : Type} (f : A -> option B) (l : list A) :
  Forall (fun a => f a <> None) l \/ Exists (fun a => f a = None) l.
Proof.
  induction l as [| a rest [IH | IH]].
  - left. constructor.
  - destruct (f a) eqn:E.
    + left. constructor; [congruence | exact IH].
    + right. left. exact E.
  - right. right. exact IH.
Qed.






(** ** Further facts about the optimizer *)














(** ** Facts about the Analytics page and the list of people *)

Lemma insert_expense_permutation e l : Permutation (insert_expense e l) (e :: l).
Proof.
  induction l as [| h t IH]; simpl; [apply Permutation_refl |].
  destruct (Qltb (expense_amount e) (expense_amount h));
    [| apply Permutation_refl].
  apply perm_trans with (h :: e :: t); [| apply perm_swap].
  apply perm_skip. exact IH.
Qed.

Lemma sorted_expenses_permutation l : Permutation (sorted_expenses l) l.
Proof.
  induction l as [| h t IH]; simpl; [apply perm_nil |].
  apply perm_trans with (h :: sorted_expenses t);
    [apply insert_expense_permutation | apply perm_skip; exact IH].
Qed.

Lemma insert_expense_sorted e l :
  StronglySorted (fun a b => expense_amount b <= expense_amount a) l ->
  StronglySorted (fun a b => expense_amount b <= expense_amount a)
    (insert_expense e l).
Proof.
  induction 1 as [| h t Ht IH Hh]; simpl.
  - repeat constructor.
  - destruct (Qltb (expense_amount e) (expense_amount h)) eqn:E; qltb_hyps.
    + constructor; [exact IH |].
      apply Forall_forall. intros x Hx.
      apply (Permutation_in _ (insert_expense_permutation e t)) in Hx.
      destruct Hx as [<- | Hx]; [lra |].
      rewrite Forall_forall in Hh. apply Hh. exact Hx.
    + constructor; [constructor; assumption |].
      constructor; [exact E |].
      apply Forall_forall. intros x Hx. rewrite Forall_forall in Hh.
      specialize (Hh x Hx). lra.
Qed.

Lemma sorted_expenses_sorted l :
  StronglySorted (fun a b => expense_amount b <= expense_amount a)
    (sorted_expenses l).
Proof.
  induction l as [| h t IH]; simpl; [constructor |].
  apply insert_expense_sorted. exact IH.
Qed.

Lemma StronglySorted_app_cross {A : Type} (R : A -> A -> Prop) (l1 l2 : list A) :
  StronglySorted R (l1 ++ l2) ->
  StronglySorted R l1 /\ forall a b, In a l1 -> In b l2 -> R a b.
Proof.
  induction l1 as [| x l1 IH]; simpl; intros H.
  - split; [constructor | intros a b []].
  - apply StronglySorted_inv in H. destruct H as [Hs Hx].
    destruct (IH Hs) as [Hs1 Hcross]. split.
    + constructor; [exact Hs1 |].
      apply Forall_forall. intros y Hy. rewrite Forall_forall in Hx.
      apply Hx. apply in_or_app. left. exact Hy.
    + intros a b [<- | Ha] Hb.
      * rewrite Forall_forall in Hx. apply Hx. apply in_or_app. right. exact Hb.
      * apply Hcross; assumption.
Qed.

Lemma pop_names (idx : nat) : forall (people people' : list person),
  pop idx people = Some people' ->
  length people = S (length people') /\
  (forall p, In p people' -> In p people) /\
  (NoDup (map person_name people) -> NoDup (map person_name people')).
Proof.
  induction idx as [| i IH]; intros [| a rest] people' H; simpl in H;
    try discriminate.
  - inversion H; subst. repeat split.
    + intros p Hp. right. exact Hp.
    + intros Hnd. inversion Hnd. assumption.
  - destruct (pop i rest) as [rest' |] eqn:E; [| discriminate].
    inversion H; subst. destruct (IH _ _ E) as (Hl & Hsub & Hnd).
    repeat split.
    + simpl. rewrite Hl. reflexivity.
    + intros p [<- | Hp]; [left; reflexivity | right; apply Hsub; exact Hp].
    + intros Hnd0. simpl in *. inversion Hnd0 as [| ? ? Ha Hrest]; subst.
      constructor; [| apply Hnd; exact Hrest].
      intros Hin. apply Ha. apply in_map_iff in Hin.
      destruct Hin as [p [Hp Hpin]]. apply in_map_iff. exists p.
      split; [exact Hp | apply Hsub; exact Hpin].
Qed.

Lemma pop_in_range {A : Type} (idx : nat) : forall l : list A,
  (idx < length l)%nat -> exists l', pop idx l = Some l'.
Proof.
  induction idx as [| i IH]; intros [| a rest] H; simpl in *; try lia; eauto.
  destruct (IH rest) as [l' Hl']; [lia |]. rewrite Hl'. eauto.
Qed.



(** ** Further properties of the splitter *)

(** ** Facts about the splits in binary64 *)

Lemma capacities_present (people : list Binary64.person) :
  Forall (fun p => Binary64.capacity p <> None) people ->
  Binary64.capacities people = Ok (map Binary64.capacity_of people).
Proof.
  induction 1 as [| p rest Hp _ IH]; simpl; [reflexivity |].
  unfold Binary64.capacity_of at 1.
  destruct (Binary64.capacity p) as [c |]; [| congruence].
  rewrite IH. reflexivity.
Qed.

Lemma capacities_missing (people : list Binary64.person) :
  Exists (fun p => Binary64.capacity p = None) people ->
  Binary64.capacities people = Raise (KeyError "capacity").
Proof.
  induction people as [| p rest IH]; intros H; [inversion H |].
  simpl. destruct (Binary64.capacity p) as [c |] eqn:Hc; [| reflexivity].
  inversion H as [? ? Hp | ? ? Hrest]; subst; [congruence |].
  rewrite IH by exact Hrest. reflexivity.
Qed.

Section SplitFacts.

Variable sum : list float -> float.

Lemma equal_split64_returns expenses people :
  people <> [] -> exists r, Binary64.equal_split sum expenses people = Ok r.
Proof.
  intros Hne. unfold Binary64.equal_split.
  destruct people as [| p rest] eqn:Hp; [congruence |]. rewrite <- Hp.
  apply for_each_returns. intros a s _. eauto.
Qed.

Lemma custom_split64_missing expenses people :
  Exists (fun p => Binary64.percentage p = None) people ->
  Binary64.custom_split sum expenses people = Raise (KeyError "percentage").
Proof.
  intros Hex. unfold Binary64.custom_split. apply for_each_raises_first.
  - intros a s _. destruct (Binary64.percentage a);
      [left; eauto | right; reflexivity].
  - apply Exists_exists in Hex. destruct Hex as [p [Hin Hp]].
    apply Exists_exists. exists p. split; [exact Hin |].
    intros s. rewrite Hp. reflexivity.
Qed.

Lemma custom_split64_present expenses people :
  Forall (fun p => Binary64.percentage p <> None) people ->
  exists r, Binary64.custom_split sum expenses people = Ok r.
Proof.
  intros Hall. unfold Binary64.custom_split. apply for_each_returns.
  intros a s Hin. rewrite Forall_forall in Hall. specialize (Hall a Hin).
  destruct (Binary64.percentage a); [eauto | congruence].
Qed.

Lemma proportional_split64_zero expenses people :
  Forall (fun p => Binary64.capacity p <> None) people -> people <> [] ->
  PrimFloat.eqb (sum (map Binary64.capacity_of people)) 0 = true ->
  Binary64.proportional_split sum expenses people = Raise ZeroDivisionError.
Proof.
  intros Hall Hne Hz. unfold Binary64.proportional_split.
  rewrite capacities_present by exact Hall.
  destruct people as [| p rest]; [congruence |].
  cbn [for_each]. inversion Hall as [| ? ? Hp _]; subst.
  destruct (Binary64.capacity p); [| congruence].
  rewrite Hz. reflexivity.
Qed.

Lemma proportional_split64_present expenses people :
  Forall (fun p => Binary64.capacity p <> None) people ->
  people = [] \/ PrimFloat.eqb (sum (map Binary64.capacity_of people)) 0 = false ->
  exists r, Binary64.proportional_split sum expenses people = Ok r.
Proof.
  intros Hall Hnz. unfold Binary64.proportional_split.
  rewrite capacities_present by exact Hall.
  destruct Hnz as [-> | Hnz]; [simpl; eauto |].
  apply for_each_returns. intros a s Hin.
  rewrite Forall_forall in Hall. specialize (Hall a Hin).
  destruct (Binary64.capacity a); [| congruence].
  rewrite Hnz. eauto.
Qed.

(** The three ways the proportional split can end. *)
Lemma proportional_split64_cases expenses people :
  (Exists (fun p => Binary64.capacity p = None) people /\
   Binary64.proportional_split sum expenses people
     = Raise (KeyError "capacity")) \/
  (Forall (fun p => Binary64.capacity p <> None) people /\ people <> [] /\
   PrimFloat.eqb (sum (map Binary64.capacity_of people)) 0 = true /\
   Binary64.proportional_split sum expenses people = Raise ZeroDivisionError) \/
  (Forall (fun p => Binary64.capacity p <> None) people /\
   (people = [] \/
    PrimFloat.eqb (sum (map Binary64.capacity_of people)) 0 = false) /\
   exists r, Binary64.proportional_split sum expenses people = Ok r).
Proof.
  destruct (present_or_missing Binary64.capacity people) as [Hall | Hex].
  - right.
    destruct people as [| p rest] eqn:Hp.
    + right. split; [exact Hall | split; [left; reflexivity |]].
      apply proportional_split64_present; [exact Hall | left; reflexivity].
    + rewrite <- Hp in *.
      assert (Hne : people <> []) by (rewrite Hp; discriminate).
      destruct (PrimFloat.eqb (sum (map Binary64.capacity_of people)) 0) eqn:E.
      * left. repeat split; try assumption.
        apply proportional_split64_zero; assumption.
      * right. split; [exact Hall | split; [right; reflexivity |]].
        apply proportional_split64_present; [exact Hall | right; exact E].
  - left. split; [exact Hex |].
    unfold Binary64.proportional_split.
    rewrite capacities_missing by exact Hex. reflexivity.
Qed.

(** [calculate_advanced_split] raises in these cases and no other: the
    equal split of an empty list of people divides by zero; the
    proportional split raises [KeyError] when a person has no capacity and
    otherwise divides by zero when there are people and the float that
    [sum] gives for their capacities is zero; the custom split raises
    [KeyError] when a person has no percentage.  A method of another name
    gives the empty dict. *)
Theorem calculate_advanced_split_raises
  (expenses : list Binary64.expense) (people : list Binary64.person) :
  (Binary64.calculate_advanced_split sum expenses people "equal"
     = Raise ZeroDivisionError
   <-> people = []) /\
  (forall e, Binary64.calculate_advanced_split sum expenses people "equal"
               = Raise e ->
             e = ZeroDivisionError) /\
  (Binary64.calculate_advanced_split sum expenses people "proportional"
     = Raise (KeyError "capacity")
   <-> Exists (fun p => Binary64.capacity p = None) people) /\
  (Binary64.calculate_advanced_split sum expenses people "proportional"
     = Raise ZeroDivisionError
   <-> Forall (fun p => Binary64.capacity p <> None) people /\ people <> [] /\
       PrimFloat.eqb (sum (map Binary64.capacity_of people)) 0 = true) /\
  (forall e, Binary64.calculate_advanced_split sum expenses people "proportional"
               = Raise e ->
             e = KeyError "capacity" \/ e = ZeroDivisionError) /\
  (Binary64.calculate_advanced_split sum expenses people "custom"
     = Raise (KeyError "percentage")
   <-> Exists (fun p => Binary64.percentage p = None) people) /\
  (forall e, Binary64.calculate_advanced_split sum expenses people "custom"
               = Raise e ->
             e = KeyError "percentage") /\
  (forall m, m <> "equal"%string -> m <> "proportional"%string ->
             m <> "custom"%string ->
             Binary64.calculate_advanced_split sum expenses people m = Ok []).
Proof.
  assert (Heq : Binary64.calculate_advanced_split sum expenses people "equal"
                = Binary64.equal_split sum expenses people) by reflexivity.
  assert (Hpr : Binary64.calculate_advanced_split sum expenses people "proportional"
                = Binary64.proportional_split sum expenses people) by reflexivity.
  assert (Hcu : Binary64.calculate_advanced_split sum expenses people "custom"
                = Binary64.custom_split sum expenses people) by reflexivity.
  rewrite Heq, Hpr, Hcu. clear Heq Hpr Hcu.
  pose proof (proportional_split64_cases expenses people) as Hprop_cases.
  assert (Hmissing_present :
    forall {B : Type} (f : Binary64.person -> option B),
      Exists (fun p => f p = None) people ->
      Forall (fun p => f p <> None) people -> False).
  { intros B f Hex Hall. apply Exists_exists in Hex.
    destruct Hex as [p [Hin Hp]]. rewrite Forall_forall in Hall.
    apply (Hall p Hin Hp). }
  split; [| split; [| split; [| split; [| split; [| split; [| split]]]]]].
  - split.
    + intros H. destruct people as [| p rest]; [reflexivity |].
      destruct (equal_split64_returns expenses (p :: rest)) as [r Hr];
        [discriminate | congruence].
    + intros ->. reflexivity.
  - intros e H. destruct people as [| p rest].
    + simpl in H. congruence.
    + destruct (equal_split64_returns expenses (p :: rest)) as [r Hr];
        [discriminate | congruence].
  - split.
    + intros H.
      destruct Hprop_cases as [[Hex _] | [(_ & _ & _ & Hr) | (_ & _ & [r Hr])]];
        [exact Hex | congruence | congruence].
    + intros Hex.
      destruct Hprop_cases as [[_ Hr] | [(Hall & _) | (Hall & _)]];
        [exact Hr | | ];
        exfalso; exact (Hmissing_present _ Binary64.capacity Hex Hall).
  - split.
    + intros H.
      destruct Hprop_cases as [[_ Hr] | [(Hall & Hne & Hz & _) | (_ & _ & [r Hr])]];
        [congruence | tauto | congruence].
    + intros (Hall & Hne & Hz). apply proportional_split64_zero; assumption.
  - intros e H.
    destruct Hprop_cases as [[_ Hr] | [(_ & _ & _ & Hr) | (_ & _ & [r Hr])]];
      rewrite Hr in H; inversion H; auto.
  - split.
    + intros H.
      destruct (present_or_missing Binary64.percentage people) as [Hall | Hex];
        [| exact Hex].
      destruct (custom_split64_present expenses people Hall) as [r Hr].
      congruence.
    + apply custom_split64_missing.
  - intros e H.
    destruct (present_or_missing Binary64.percentage people) as [Hall | Hex].
    + destruct (custom_split64_present expenses people Hall) as [r Hr].
      congruence.
    + rewrite (custom_split64_missing expenses people Hex) in H.
      inversion H. reflexivity.
  - intros m H1 H2 H3. unfold Binary64.calculate_advanced_split.
    apply String.eqb_neq in H1, H2, H3. rewrite H1, H2, H3. reflexivity.
Qed.

End SplitFacts.






(** *** The splits over distinct names *)

Definition equal_data64 (sum : list float -> float)
  (expenses : list Binary64.expense) (people : list Binary64.person)
  (p : Binary64.person) : Binary64.split_data :=
  Binary64.make_data
    (Binary64.paid_for sum (Binary64.person_name p) expenses)
    (Binary64.sum_amounts sum expenses
     / Binary64.float_of_nat (length people))%float
    None None.

Definition proportional_data64 (sum : list float -> float)
  (expenses : list Binary64.expense) (people : list Binary64.person)
  (p : Binary64.person) : Binary64.split_data :=
  let proportion :=
    (Binary64.capacity_of p / sum (map Binary64.capacity_of people))%float in
  Binary64.make_data
    (Binary64.paid_for sum (Binary64.person_name p) expenses)
    (Binary64.sum_amounts sum expenses * proportion)%float
    (Some (proportion * 100)%float) None.

Definition custom_data64 (sum : list float -> float)
  (expenses : list Binary64.expense) (p : Binary64.person)
  : Binary64.split_data :=
  Binary64.make_data
    (Binary64.paid_for sum (Binary64.person_name p) expenses)
    (Binary64.sum_amounts sum expenses * (Binary64.percentage_of p / 100))%float
    None (Some (Binary64.percentage_of p)).

Section SplitsOverDistinctNames.

Variable sum : list float -> float.

Lemma equal_split64_distinct expenses people :
  people <> [] -> NoDup (map Binary64.person_name people) ->
  Binary64.equal_split sum expenses people =
  Ok (map (fun p => (Binary64.person_name p, equal_data64 sum expenses people p))
        people).
Proof.
  intros Hne Hnd. unfold Binary64.equal_split.
  destruct people as [| p0 rest] eqn:Hp; [congruence |]. rewrite <- Hp in *.
  apply (for_each_stores Binary64.person_name (equal_data64 sum expenses people)
           _ people []).
  - intros a s _. reflexivity.
  - exact Hnd.
Qed.

Lemma proportional_split64_distinct expenses people :
  Forall (fun p => Binary64.capacity p <> None) people ->
  PrimFloat.eqb (sum (map Binary64.capacity_of people)) 0 = false ->
  NoDup (map Binary64.person_name people) ->
  Binary64.proportional_split sum expenses people =
  Ok (map (fun p => (Binary64.person_name p,
                     proportional_data64 sum expenses people p)) people).
Proof.
  intros Hall Hnz Hnd. unfold Binary64.proportional_split.
  rewrite capacities_present by exact Hall.
  apply (for_each_stores Binary64.person_name
           (proportional_data64 sum expenses people) _ people []);
    [| exact Hnd].
  intros a s Hin. rewrite Forall_forall in Hall. specialize (Hall a Hin).
  rewrite Hnz. unfold proportional_data64.
  destruct (Binary64.capacity a) as [c |] eqn:Hc; [| congruence].
  assert (Hco : Binary64.capacity_of a = c)
    by (unfold Binary64.capacity_of; rewrite Hc; reflexivity).
  rewrite Hco. reflexivity.
Qed.

Lemma custom_split64_distinct expenses people :
  Forall (fun p => Binary64.percentage p <> None) people ->
  NoDup (map Binary64.person_name people) ->
  Binary64.custom_split sum expenses people =
  Ok (map (fun p => (Binary64.person_name p, custom_data64 sum expenses p))
        people).
Proof.
  intros Hall Hnd. unfold Binary64.custom_split.
  apply (for_each_stores Binary64.person_name (custom_data64 sum expenses)
           _ people []); [| exact Hnd].
  intros a s Hin. rewrite Forall_forall in Hall. specialize (Hall a Hin).
  unfold custom_data64.
  destruct (Binary64.percentage a) as [c |] eqn:Hc; [| congruence].
  assert (Hco : Binary64.percentage_of a = c)
    by (unfold Binary64.percentage_of; rewrite Hc; reflexivity).
  rewrite Hco. reflexivity.
Qed.

End SplitsOverDistinctNames.

(** *** Sums of the numbers *)

Lemma sum_amounts_values (expenses : list Binary64.expense) :
  sum_amounts (Binary64.expense_values expenses)
  = Binary64.total_value (map Binary64.expense_amount expenses).
Proof.
  induction expenses as [| e rest IH]; simpl; [reflexivity |].
  rewrite IH. reflexivity.
Qed.

Lemma paid_for_values nm (expenses : list Binary64.expense) :
  paid_for nm (Binary64.expense_values expenses)
  = Binary64.total_value (Binary64.amounts_paid_by nm expenses).
Proof.
  unfold Binary64.amounts_paid_by.
  induction expenses as [| e rest IH]; simpl; [reflexivity |].
  destruct (String.eqb (Binary64.payer e) nm); simpl; rewrite IH; reflexivity.
Qed.

Lemma sum_over_ext {A : Type} (f g : A -> Q) (l : list A) :
  Forall (fun a => f a == g a) l -> sum_over f l == sum_over g l.
Proof.
  induction 1 as [| a rest Ha _ IH]; simpl; [reflexivity |].
  rewrite Ha, IH. reflexivity.
Qed.

Lemma sum_over_map {A B : Type} (g : A -> B) (f : B -> Q) (l : list A) :
  sum_over f (map g l) = sum_over (fun a => f (g a)) l.
Proof.
  induction l as [| a rest IH]; simpl; [reflexivity |].
  rewrite IH. reflexivity.
Qed.

(** The float persons as persons of [Splitter], for the lemmas on sums. *)
Definition person_values (p : Binary64.person) : person :=
  mkPerson (Binary64.person_name p)
    (option_map Binary64.value (Binary64.capacity p))
    (option_map Binary64.value (Binary64.percentage p)).

Lemma person_values_names (people : list Binary64.person) :
  map person_name (map person_values people) = map Binary64.person_name people.
Proof. rewrite map_map. reflexivity. Qed.

Lemma sum_over_paid_values (expenses : list Binary64.expense)
  (people : list Binary64.person) :
  NoDup (map Binary64.person_name people) ->
  sum_over (fun p => Binary64.total_value
                       (Binary64.amounts_paid_by (Binary64.person_name p)
                          expenses)) people ==
  paid_by_listed (map Binary64.person_name people)
    (Binary64.expense_values expenses).
Proof.
  intros Hnd.
  rewrite <- person_values_names in *.
  rewrite <- (sum_over_paid_for (Binary64.expense_values expenses)
                (map person_values people) Hnd).
  rewrite sum_over_map. apply sum_over_ext. apply Forall_forall.
  intros p _. simpl. rewrite paid_for_values. reflexivity.
Qed.

(** The balances stored add up to what was paid minus what was due, when
    no subtraction rounds. *)
Lemma sum_balances64_of_people
  (pd sp : Binary64.person -> float) (pr pc : Binary64.person -> option float)
  (people : list Binary64.person) :
  Forall (fun p => Binary64.exact (pd p - sp p)%float
                     (Binary64.value (pd p) - Binary64.value (sp p))) people ->
  sum_balances
    (Binary64.balances
       (Binary64.balances_of
          (map (fun p => (Binary64.person_name p,
                          Binary64.make_data (pd p) (sp p) (pr p) (pc p)))
             people))) ==
  sum_over (fun p => Binary64.value (pd p)) people
  - sum_over (fun p => Binary64.value (sp p)) people.
Proof.
  induction 1 as [| p rest [_ Hp] _ IH]; simpl; [ring |].
  simpl in IH. rewrite IH, Hp. ring.
Qed.

Lemma balances64_finite
  (pd sp : Binary64.person -> float) (pr pc : Binary64.person -> option float)
  (people : list Binary64.person) :
  Forall (fun p => Binary64.exact (pd p - sp p)%float
                     (Binary64.value (pd p) - Binary64.value (sp p))) people ->
  Binary64.all_finite
    (Binary64.balances_of
       (map (fun p => (Binary64.person_name p,
                       Binary64.make_data (pd p) (sp p) (pr p) (pc p)))
          people)).
Proof.
  unfold Binary64.all_finite.
  induction 1 as [| p rest [Hp _] _ IH]; simpl; constructor; assumption.
Qed.

Lemma balances64_keys
  (val : Binary64.person -> Binary64.split_data)
  (people : list Binary64.person) :
  Binary64.keys
    (Binary64.balances_of
       (map (fun p => (Binary64.person_name p, val p)) people))
  = map Binary64.person_name people.
Proof.
  unfold Binary64.keys, Binary64.balances_of. rewrite !map_map. reflexivity.
Qed.

Lemma length_nonzero {A : Type} (l : list A) :
  l <> [] -> ~ inject_Z (Z.of_nat (length l)) == 0.
Proof.
  intros Hne H. destruct l as [| a rest]; [congruence |].
  simpl length in H. unfold Qeq in H. simpl in H. lia.
Qed.

(** A float that is a number is zero when the test [== 0] says so. *)
Lemma eqb_zero_value (x : float) :
  Binary64.finite x = true ->
  (PrimFloat.eqb x 0 = true <-> Binary64.value x == 0).
Proof.
  unfold Binary64.finite, Binary64.value. rewrite eqb_spec.
  change (Prim2SF 0) with (S754_zero false).
  destruct (Prim2SF x) as [s | s | | s m e]; try discriminate; intros _.
  - split; reflexivity.
  - unfold SFeqb, SFcompare. split; [destruct s; discriminate |].
    intros H. exfalso.
    assert (Hp : 0 < 2 ^ e) by (apply Qpower_0_lt; reflexivity).
    destruct s.
    + assert (Hm : inject_Z (Z.neg m) < 0) by reflexivity. nra.
    + assert (Hm : 0 < inject_Z (Z.pos m)) by reflexivity. nra.
Qed.

(** ** The splits, when no operation rounds *)

Lemma closed_split_sum (sum : list float -> float)
  (expenses : list Binary64.expense) (people : list Binary64.person)
  (split_method : string) (results : Binary64.results_t) :
  NoDup (map Binary64.person_name people) -> people <> [] ->
  split_method = "equal"%string \/ split_method = "proportional"%string ->
  Binary64.calculate_advanced_split sum expenses people split_method
    = Ok results ->
  Binary64.split_rounds_nowhere sum expenses people split_method ->
  Binary64.keys (Binary64.balances_of results)
    = map Binary64.person_name people /\
  Binary64.all_finite (Binary64.balances_of results) /\
  sum_balances (Binary64.balances (Binary64.balances_of results)) ==
    paid_by_listed (map Binary64.person_name people)
      (Binary64.expense_values expenses)
    - sum_amounts (Binary64.expense_values expenses).
Proof.
  intros Hnd Hne Hm Hok Hex. destruct Hm as [-> | ->].
  - change (Binary64.equal_split sum expenses people = Ok results) in Hok.
    change (Binary64.equal_rounds_nowhere sum expenses people) in Hex.
    rewrite equal_split64_distinct in Hok by assumption.
    inversion Hok; subst results. clear Hok.
    destruct Hex as (_ & [_ Htotal] & [_ Hn] & [_ Hper] & Hpeople).
    unfold equal_data64.
    assert (Hsub : Forall (fun p =>
      Binary64.exact
        (Binary64.paid_for sum (Binary64.person_name p) expenses
         - Binary64.sum_amounts sum expenses
           / Binary64.float_of_nat (length people))%float
        (Binary64.value
           (Binary64.paid_for sum (Binary64.person_name p) expenses)
         - Binary64.value
             (Binary64.sum_amounts sum expenses
              / Binary64.float_of_nat (length people))%float)) people).
    { apply Forall_impl with (2 := Hpeople). intros p [_ H]. exact H. }
    split; [apply balances64_keys |].
    split; [apply balances64_finite; exact Hsub |].
    rewrite (sum_balances64_of_people _ _ _ _ people Hsub).
    rewrite (sum_over_ext _
               (fun p => Binary64.total_value
                           (Binary64.amounts_paid_by (Binary64.person_name p)
                              expenses))).
    2:{ apply Forall_impl with (2 := Hpeople). intros p [[_ H] _]. exact H. }
    rewrite sum_over_paid_values by exact Hnd.
    rewrite sum_over_const, Hper, Hn, Htotal, sum_amounts_values.
    pose proof (length_nonzero people Hne) as Hlen.
    field. exact Hlen.
  - change (Binary64.proportional_split sum expenses people = Ok results) in Hok.
    change (Binary64.proportional_rounds_nowhere sum expenses people) in Hex.
    destruct (proportional_split64_cases sum expenses people)
      as [[_ Hr] | [(_ & _ & _ & Hr) | (Hall & Hnz & _)]];
      try congruence.
    destruct Hnz as [-> | Hnz]; [congruence |].
    rewrite proportional_split64_distinct in Hok by assumption.
    inversion Hok; subst results. clear Hok.
    destruct Hex as (_ & [_ Htotal] & [Hcf Hcap] & Hpeople).
    assert (Hcz : ~ Binary64.value (sum (map Binary64.capacity_of people)) == 0).
    { intros H. apply (eqb_zero_value _ Hcf) in H. congruence. }
    unfold proportional_data64. cbv zeta.
    assert (Hsub : Forall (fun p =>
      Binary64.exact
        (Binary64.paid_for sum (Binary64.person_name p) expenses
         - Binary64.sum_amounts sum expenses
           * (Binary64.capacity_of p / sum (map Binary64.capacity_of people)))%float
        (Binary64.value
           (Binary64.paid_for sum (Binary64.person_name p) expenses)
         - Binary64.value
             (Binary64.sum_amounts sum expenses
              * (Binary64.capacity_of p
                 / sum (map Binary64.capacity_of people)))%float)) people).
    { apply Forall_impl with (2 := Hpeople). intros p (_ & _ & _ & H). exact H. }
    split; [apply balances64_keys |].
    split; [apply balances64_finite; exact Hsub |].
    rewrite (sum_balances64_of_people _ _ _ _ people Hsub).
    rewrite (sum_over_ext _
               (fun p => Binary64.total_value
                           (Binary64.amounts_paid_by (Binary64.person_name p)
                              expenses))).
    2:{ apply Forall_impl with (2 := Hpeople). intros p (_ & _ & [_ H] & _).
        exact H. }
    rewrite sum_over_paid_values by exact Hnd.
    rewrite (sum_over_ext
               (fun p => Binary64.value
                  (Binary64.sum_amounts sum expenses
                   * (Binary64.capacity_of p
                      / sum (map Binary64.capacity_of people)))%float)
               (fun p => Binary64.value (Binary64.sum_amounts sum expenses)
                         * (Binary64.value (Binary64.capacity_of p)
                            / Binary64.value
                                (sum (map Binary64.capacity_of people))))).
    2:{ apply Forall_impl with (2 := Hpeople).
        intros p ([_ H1] & [_ H2] & _). cbv zeta in H1, H2.
        rewrite H2, H1. reflexivity. }
    rewrite sum_over_scaled.
    assert (Hcaps : sum_over (fun p => Binary64.value (Binary64.capacity_of p))
                      people
                    == Binary64.value (sum (map Binary64.capacity_of people))).
    { rewrite Hcap. clear. induction people as [| p rest IH]; simpl;
        [reflexivity | rewrite IH; reflexivity]. }
    rewrite Hcaps, Htotal, sum_amounts_values. field. exact Hcz.
Qed.

Lemma custom_split_sum (sum : list float -> float)
  (expenses : list Binary64.expense) (people : list Binary64.person)
  (results : Binary64.results_t) :
  NoDup (map Binary64.person_name people) ->
  Binary64.calculate_advanced_split sum expenses people "custom" = Ok results ->
  Binary64.split_rounds_nowhere sum expenses people "custom" ->
  sum_balances (Binary64.balances (Binary64.balances_of results)) ==
    paid_by_listed (map Binary64.person_name people)
      (Binary64.expense_values expenses)
    - sum_amounts (Binary64.expense_values expenses)
      * (sum_over (fun p => Binary64.value (Binary64.percentage_of p)) people
         / 100).
Proof.
  intros Hnd Hok Hex.
  change (Binary64.custom_split sum expenses people = Ok results) in Hok.
  change (Binary64.custom_rounds_nowhere sum expenses people) in Hex.
  destruct (present_or_missing Binary64.percentage people) as [Hall | Hmiss].
  2:{ rewrite custom_split64_missing in Hok by exact Hmiss. discriminate. }
  rewrite custom_split64_distinct in Hok by assumption.
  inversion Hok; subst results. clear Hok.
  destruct Hex as (_ & [_ Htotal] & Hpeople).
  unfold custom_data64.
  assert (Hsub : Forall (fun p =>
    Binary64.exact
      (Binary64.paid_for sum (Binary64.person_name p) expenses
       - Binary64.sum_amounts sum expenses
         * (Binary64.percentage_of p / 100))%float
      (Binary64.value
         (Binary64.paid_for sum (Binary64.person_name p) expenses)
       - Binary64.value
           (Binary64.sum_amounts sum expenses
            * (Binary64.percentage_of p / 100))%float)) people).
  { apply Forall_impl with (2 := Hpeople). intros p (_ & _ & _ & H). exact H. }
  rewrite (sum_balances64_of_people _ _ _ _ people Hsub).
  rewrite (sum_over_ext _
             (fun p => Binary64.total_value
                         (Binary64.amounts_paid_by (Binary64.person_name p)
                            expenses))).
  2:{ apply Forall_impl with (2 := Hpeople). intros p (_ & _ & [_ H] & _).
      exact H. }
  rewrite sum_over_paid_values by exact Hnd.
  rewrite (sum_over_ext
             (fun p => Binary64.value
                (Binary64.sum_amounts sum expenses
                 * (Binary64.percentage_of p / 100))%float)
             (fun p => Binary64.value (Binary64.sum_amounts sum expenses)
                       * (Binary64.value (Binary64.percentage_of p) / 100))).
  2:{ apply Forall_impl with (2 := Hpeople).
      intros p ([_ H1] & [_ H2] & _). cbv zeta in H1, H2.
      rewrite H2, H1. reflexivity. }
  rewrite sum_over_scaled, Htotal, sum_amounts_values. reflexivity.
Qed.

Ltac exact_floats :=
  repeat match goal with
  | |- _ /\ _ => split
  | |- Forall _ _ => constructor
  | |- Binary64.exact _ _ => split
  | |- _ = true => vm_compute; reflexivity
  | |- _ == _ => vm_compute; reflexivity
  end.

Lemma three_people64_names : NoDup (map Binary64.person_name three_people64).
Proof.
  repeat constructor; simpl; intros H;
    repeat (destruct H as [H | H]; [discriminate H |]); exact H.
Qed.

Lemma dinner64_equal_exact :
  Binary64.split_rounds_nowhere Binary64.left_to_right_sum dinner64
    three_people64 "equal".
Proof.
  change (Binary64.equal_rounds_nowhere Binary64.left_to_right_sum dinner64
            three_people64).
  unfold Binary64.equal_rounds_nowhere. cbv zeta. exact_floats.
Qed.

Lemma dinner64_custom_exact :
  Binary64.split_rounds_nowhere Binary64.left_to_right_sum dinner64
    three_people64 "custom".
Proof.
  change (Binary64.custom_rounds_nowhere Binary64.left_to_right_sum dinner64
            three_people64).
  unfold Binary64.custom_rounds_nowhere. cbv zeta. exact_floats.
Qed.

Lemma dinner64_listed e :
  In e dinner64 ->
  In (Binary64.payer e) (map Binary64.person_name three_people64).
Proof. intros [<- | [<- | []]]; simpl; tauto. Qed.

(** The equal and the proportional split are closed when nothing rounds:
    for people of distinct names, if no operation of the split rounds, the
    balances sum to what the listed people paid minus the total of the
    expenses, so they sum to zero when the payer of every expense is one of
    the people. *)
Theorem exact_splits_are_closed (sum : list float -> float)
  (expenses : list Binary64.expense) (people : list Binary64.person)
  (split_method : string) (results : Binary64.results_t) :
  NoDup (map Binary64.person_name people) -> people <> [] ->
  split_method = "equal"%string \/ split_method = "proportional"%string ->
  Binary64.calculate_advanced_split sum expenses people split_method
    = Ok results ->
  Binary64.split_rounds_nowhere sum expenses people split_method ->
  sum_balances (Binary64.balances (Binary64.balances_of results)) ==
    paid_by_listed (map Binary64.person_name people)
      (Binary64.expense_values expenses)
    - sum_amounts (Binary64.expense_values expenses) /\
  ((forall e, In e expenses ->
      In (Binary64.payer e) (map Binary64.person_name people)) ->
   sum_balances (Binary64.balances (Binary64.balances_of results)) == 0).
Proof.
  intros Hnd Hne Hm Hok Hex.
  destruct (closed_split_sum sum expenses people split_method results
              Hnd Hne Hm Hok Hex) as (_ & _ & Hsum).
  split; [exact Hsum |].
  intros Hall. rewrite Hsum, paid_by_listed_all; [ring |].
  intros e He. unfold Binary64.expense_values in He.
  apply in_map_iff in He. destruct He as (e0 & <- & He0). simpl.
  apply Hall. exact He0.
Qed.

Lemma dinner_split_is_closed :
  exists results,
    Binary64.calculate_advanced_split Binary64.left_to_right_sum dinner64
      three_people64 "equal" = Ok results /\
    sum_balances (Binary64.balances (Binary64.balances_of results)) == 0.
Proof.
  eexists. split; [reflexivity |].
  apply (exact_splits_are_closed Binary64.left_to_right_sum dinner64
           three_people64 "equal" _ three_people64_names);
    [discriminate | left; reflexivity | reflexivity
    | exact dinner64_equal_exact | exact dinner64_listed].
Defined.

(** The custom split checks nothing about the percentages: for people of
    distinct names, if no operation of the split rounds, the balances sum
    to what the listed people paid minus the share of the total that the
    percentages add up to.  They sum to zero when every payer is listed and
    the percentages add up to 100. *)
Theorem custom_split_follows_percentages (sum : list float -> float)
  (expenses : list Binary64.expense) (people : list Binary64.person)
  (results : Binary64.results_t) :
  NoDup (map Binary64.person_name people) ->
  Binary64.calculate_advanced_split sum expenses people "custom" = Ok results ->
  Binary64.split_rounds_nowhere sum expenses people "custom" ->
  sum_balances (Binary64.balances (Binary64.balances_of results)) ==
    paid_by_listed (map Binary64.person_name people)
      (Binary64.expense_values expenses)
    - sum_amounts (Binary64.expense_values expenses)
      * (sum_over (fun p => Binary64.value (Binary64.percentage_of p)) people
         / 100) /\
  ((forall e, In e expenses ->
      In (Binary64.payer e) (map Binary64.person_name people)) ->
   sum_over (fun p => Binary64.value (Binary64.percentage_of p)) people == 100 ->
   sum_balances (Binary64.balances (Binary64.balances_of results)) == 0).
Proof.
  intros Hnd Hok Hex.
  pose proof (custom_split_sum sum expenses people results Hnd Hok Hex) as Hsum.
  split; [exact Hsum |].
  intros Hall H100. rewrite Hsum, H100, paid_by_listed_all; [field |].
  intros e He. unfold Binary64.expense_values in He.
  apply in_map_iff in He. destruct He as (e0 & <- & He0). simpl.
  apply Hall. exact He0.
Qed.

Lemma dinner_custom_split :
  exists results,
    Binary64.calculate_advanced_split Binary64.left_to_right_sum dinner64
      three_people64 "custom" = Ok results /\
    sum_balances (Binary64.balances (Binary64.balances_of results)) == 0.
Proof.
  eexists. split; [reflexivity |].
  apply (custom_split_follows_percentages Binary64.left_to_right_sum
           dinner64 three_people64 _ three_people64_names eq_refl
           dinner64_custom_exact).
  - exact dinner64_listed.
  - vm_compute. reflexivity.
Defined.

(** Where a balance can end: within [0.01] of zero, or no further from
    zero than the total debt is from the total credit. *)
Lemma residual_bound (results : results_dict) n b' :
  NoDup (keys results) ->
  In (n, b') (apply_transfers results (optimize_payments results)) ->
  Qabs b' <= eps \/ Qabs b' <= Qabs (total_debt results - total_credit results).
Proof.
  intros Hnd Hin. pose proof eps_pos as Heps.
  destruct (optimize_payments_transferred results) as [Hta Htb].
  destruct (optimize_payments_effect results n b' Hnd Hin)
    as (b & paid & received & Hb & Hb' & Hdebt & Hcred & Hnone).
  destruct (Qlt_le_dec b (- eps)) as [H1 | H1].
  { specialize (Hdebt H1).
    destruct (Qlt_le_dec (total_debt results) (total_credit results)) as [Hlt | Hle].
    - left. apply Qabs_Qle_condition.
      assert (Hle : total_debt results <= total_credit results) by lra.
      specialize (Hta Hle). lra.
    - right. specialize (Htb Hle).
      rewrite (Qabs_pos (total_debt results - total_credit results)) by lra.
      apply Qabs_Qle_condition. lra. }
  destruct (Qlt_le_dec eps b) as [H2 | H2].
  { specialize (Hcred H2).
    destruct (Qlt_le_dec (total_credit results) (total_debt results)) as [Hlt | Hle].
    - left. apply Qabs_Qle_condition.
      assert (Hle : total_credit results <= total_debt results) by lra.
      specialize (Htb Hle). lra.
    - right. specialize (Hta Hle).
      rewrite (Qabs_neg (total_debt results - total_credit results)) by lra.
      apply Qabs_Qle_condition. lra. }
  left. specialize (Hnone (conj H1 H2)). apply Qabs_Qle_condition. lra.
Qed.

Lemma settled_when_totals_agree (results : results_dict) n b' :
  NoDup (keys results) ->
  Qabs (total_debt results - total_credit results) <= eps ->
  In (n, b') (apply_transfers results (optimize_payments results)) ->
  Qabs b' <= eps.
Proof.
  intros Hnd Hbal Hin.
  destruct (residual_bound results n b' Hnd Hin) as [H | H]; [exact H |].
  apply Qle_trans with (1 := H). exact Hbal.
Qed.

(** ** Further properties of the optimizer *)







(** After the transfers of [optimize_payments], for balances that are
    numbers and a second loop that rounds nowhere, every balance is within
    [0.01] of zero or no further from zero than the total debt is from the
    total credit. *)
Theorem nobody_ends_beyond_the_imbalance (results : Binary64.results_dict) :
  NoDup (Binary64.keys results) ->
  Binary64.all_finite results ->
  Binary64.rounds_nowhere results ->
  forall n b',
    In (n, b') (apply_transfers (Binary64.balances results)
                  (Binary64.transfers (Binary64.optimize_payments results))) ->
    Qabs b' <= Binary64.eps \/
    Qabs b' <= Qabs (Binary64.total_debt results - Binary64.total_credit results).
Proof.
  intros Hnd Hfin Hex n b' Hin.
  assert (Hndq : NoDup (keys (rescaled results)))
    by (rewrite rescaled_keys; exact Hnd).
  destruct (settled_balance_sim results n b' Hnd Hfin Hex Hin)
    as (bq & Hbq & Eq).
  destruct (residual_bound (rescaled results) n bq Hndq Hbq) as [H | H].
  - left. apply within_eps_rescaled. rewrite <- Eq. exact H.
  - right. rewrite Eq, debt_credit_rescaled in H by exact Hfin.
    rewrite (rescale_abs b'),
      (rescale_abs (Binary64.total_debt results - Binary64.total_credit results))
      in H.
    apply (proj1 (rescale_le _ _)) in H. exact H.
Qed.

Lemma unbalanced_ends_within_imbalance :
  Forall (fun item =>
            Qabs (snd item) <= Binary64.eps \/
            Qabs (snd item)
              <= Qabs (Binary64.total_debt unbalanced64
                       - Binary64.total_credit unbalanced64))
    (apply_transfers (Binary64.balances unbalanced64)
       (Binary64.transfers (Binary64.optimize_payments unbalanced64))).
Proof.
  apply Forall_forall. intros [n b'] Hin.
  exact (nobody_ends_beyond_the_imbalance unbalanced64 unbalanced64_keys
           unbalanced64_finite unbalanced64_exact n b' Hin).
Defined.

Lemma Forall2_In_left {A B : Type} (R : A -> B -> Prop) (l : list A)
  (l' : list B) (a : A) :
  Forall2 R l l' -> In a l -> exists b, In b l' /\ R a b.
Proof.
  induction 1 as [| x y l l' Hxy _ IH]; intros Hin; [destruct Hin |].
  destruct Hin as [<- | Hin].
  - exists y. split; [left; reflexivity | exact Hxy].
  - destruct (IH Hin) as (b & Hb & Hr). exists b.
    split; [right; exact Hb | exact Hr].
Qed.

(** Floats within [0.01] of zero make no debtor and no creditor. *)
Lemma no_entries_within_eps64 (settled : Binary64.results_dict) :
  Binary64.all_finite settled ->
  (forall n x, In (n, x) settled -> Qabs (Binary64.value x) <= Binary64.eps) ->
  Binary64.optimize_payments settled = [].
Proof.
  intros Hfin Hsmall.
  assert (H : forall d c,
    fold_left Binary64.classify_step settled (d, c) = (d, c)).
  { induction Hfin as [| [nm x] rest Hx Hrest IH]; intros d c; [reflexivity |].
    cbn [fold_left Binary64.classify_step]. simpl in Hx.
    assert (Hb : Qabs (rescale (Binary64.value x)) <= eps).
    { apply within_eps_rescaled. apply (Hsmall nm). left. reflexivity. }
    apply Qabs_Qle_condition in Hb.
    rewrite (below_threshold x _ Hx (Qeq_refl _)).
    rewrite (above_threshold x _ Hx (Qeq_refl _)).
    destruct (Qltb (rescale (Binary64.value x)) (- eps)) eqn:E1;
      [apply Qltb_true in E1; lra |].
    destruct (Qltb eps (rescale (Binary64.value x))) eqn:E2;
      [apply Qltb_true in E2; lra |].
    apply IH. intros n y Hy. apply (Hsmall n). right. exact Hy. }
  unfold Binary64.optimize_payments, Binary64.classify. rewrite H.
  reflexivity.
Qed.

(** Idempotence: take balances that are numbers, a second loop that
    rounds nowhere, and a total debt and a total credit that agree within
    [0.01].  On floats that hold the balances left by the transfers,
    [optimize_payments] gives no transfer. *)
Theorem optimize_payments_is_idempotent
  (results settled : Binary64.results_dict) :
  NoDup (Binary64.keys results) ->
  Binary64.all_finite results ->
  Binary64.rounds_nowhere results ->
  Qabs (Binary64.total_debt results - Binary64.total_credit results)
    <= Binary64.eps ->
  Binary64.all_finite settled ->
  Forall2 (fun item left_ => fst item = fst left_ /\ snd item == snd left_)
    (Binary64.balances settled)
    (apply_transfers (Binary64.balances results)
       (Binary64.transfers (Binary64.optimize_payments results))) ->
  Binary64.optimize_payments settled = [].
Proof.
  intros Hnd Hfin Hex Hbal Hfin' Hsettled.
  apply no_entries_within_eps64; [exact Hfin' |].
  intros n x Hin.
  assert (Hb : In (n, Binary64.value x) (Binary64.balances settled)).
  { unfold Binary64.balances. apply in_map_iff. exists (n, x).
    split; [reflexivity | exact Hin]. }
  destruct (Forall2_In_left _ _ _ _ Hsettled Hb) as ([m b'] & Hb' & En & E).
  simpl in En, E. subst m. rewrite E.
  assert (Hndq : NoDup (keys (rescaled results)))
    by (rewrite rescaled_keys; exact Hnd).
  destruct (settled_balance_sim results n b' Hnd Hfin Hex Hb')
    as (bq & Hbq & Eq).
  apply within_eps_rescaled. rewrite <- Eq.
  apply (settled_when_totals_agree (rescaled results) n bq Hndq); [| exact Hbq].
  rewrite debt_credit_rescaled by exact Hfin.
  apply within_eps_rescaled. exact Hbal.
Qed.

Lemma one_creditor_is_settled_once :
  Binary64.optimize_payments settled64 = [].
Proof.
  apply (optimize_payments_is_idempotent one_creditor64 settled64
           one_creditor64_keys one_creditor64_finite one_creditor64_exact).
  - vm_compute. discriminate.
  - repeat constructor.
  - vm_compute. repeat constructor.
Defined.

(** ** From the expenses to the settlement *)

(** On numbers: balances that sum to zero, none of them within [0.01] of
    zero without being zero, are all brought to zero. *)
Lemma balanced_settlement (results : results_dict) n b' :
  NoDup (keys results) ->
  sum_balances results == 0 ->
  (forall k b, In (k, b) results -> Qabs b <= eps -> b == 0) ->
  In (n, b') (apply_transfers results (optimize_payments results)) ->
  b' == 0.
Proof.
  intros Hnd Hzero Hband Hin. pose proof eps_pos as Heps.
  assert (Hband' : forall k b, In (k, b) results -> - eps <= b <= eps -> b == 0).
  { intros k b Hkb Hb. apply (Hband k b Hkb). apply Qabs_Qle_condition.
    exact Hb. }
  pose proof (small_balances_zero _ Hband') as Hsmall.
  pose proof (sum_balances_split results) as Hsplit.
  assert (Heq : total_debt results == total_credit results) by lra.
  destruct (optimize_payments_transferred results) as [Hta _].
  assert (Hle : total_debt results <= total_credit results) by lra.
  specialize (Hta Hle).
  destruct (optimize_payments_effect results n b' Hnd Hin)
    as (b & paid_ & received & Hb & Hb' & Hdebt & Hcred & Hnone).
  destruct (Qlt_le_dec b (- eps)) as [H1 | H1];
    [specialize (Hdebt H1); lra |].
  destruct (Qlt_le_dec eps b) as [H2 | H2];
    [specialize (Hcred H2); lra |].
  specialize (Hnone (conj H1 H2)).
  pose proof (Hband' n b Hb (conj H1 H2)). lra.
Qed.

Lemma balanced_settlement64 (results : Binary64.results_dict) n b' :
  NoDup (Binary64.keys results) ->
  Binary64.all_finite results -> Binary64.rounds_nowhere results ->
  sum_balances (Binary64.balances results) == 0 ->
  (forall k b, In (k, b) (Binary64.balances results) ->
               Qabs b <= Binary64.eps -> b == 0) ->
  In (n, b') (apply_transfers (Binary64.balances results)
                (Binary64.transfers (Binary64.optimize_payments results))) ->
  b' == 0.
Proof.
  intros Hnd Hfin Hex Hzero Hband Hin.
  destruct (settled_balance_sim results n b' Hnd Hfin Hex Hin)
    as (bq & Hbq & Eq).
  apply rescale_injective. rewrite <- Eq, rescale_zero.
  apply (balanced_settlement (rescaled results) n bq); [| | | exact Hbq].
  - rewrite rescaled_keys. exact Hnd.
  - rewrite rescaled_sum, Hzero. apply rescale_zero.
  - intros k c Hc Hsmall. apply rescaled_In in Hc.
    destruct Hc as (b & Hb & ->).
    apply within_eps_rescaled in Hsmall.
    rewrite (Hband k b Hb Hsmall). apply rescale_zero.
Qed.

(** Advanced Split, end to end.  Take the equal or the proportional split
    of expenses whose payers are among the people, whose names are
    distinct.  If no operation of the split and no subtraction of the
    second loop rounds, and nobody's balance lies within [0.01] of zero
    without being zero, carrying out the transfers of [optimize_payments]
    brings every balance to zero. *)
Theorem advanced_split_is_settled (sum : list float -> float)
  (expenses : list Binary64.expense) (people : list Binary64.person)
  (split_method : string) (results : Binary64.results_t) :
  NoDup (map Binary64.person_name people) -> people <> [] ->
  split_method = "equal"%string \/ split_method = "proportional"%string ->
  Binary64.calculate_advanced_split sum expenses people split_method
    = Ok results ->
  (forall e, In e expenses ->
     In (Binary64.payer e) (map Binary64.person_name people)) ->
  Binary64.split_rounds_nowhere sum expenses people split_method ->
  Binary64.rounds_nowhere (Binary64.balances_of results) ->
  (forall nm data, In (nm, data) results ->
     Qabs (Binary64.value (Binary64.balance data)) <= Binary64.eps ->
     Binary64.value (Binary64.balance data) == 0) ->
  forall n b',
    In (n, b')
      (apply_transfers (Binary64.balances (Binary64.balances_of results))
         (Binary64.transfers
            (Binary64.optimize_payments (Binary64.balances_of results)))) ->
    b' == 0.
Proof.
  intros Hnames Hne Hm Hok Hlisted Hex Hex' Hband n b' Hin.
  destruct (closed_split_sum sum expenses people split_method results
              Hnames Hne Hm Hok Hex) as (Hkeys & Hfin & Hsum).
  apply (balanced_settlement64 (Binary64.balances_of results) n b');
    try assumption.
  - rewrite Hkeys. exact Hnames.
  - rewrite Hsum, paid_by_listed_all; [ring |].
    intros e He. unfold Binary64.expense_values in He.
    apply in_map_iff in He. destruct He as (e0 & <- & He0). simpl.
    apply Hlisted. exact He0.
  - intros k b Hkb Hb. unfold Binary64.balances, Binary64.balances_of in Hkb.
    rewrite map_map in Hkb. apply in_map_iff in Hkb.
    destruct Hkb as ([nm data] & E & Hd). simpl in E.
    injection E as E1 E2. subst k b. apply (Hband nm data Hd Hb).
Qed.

Lemma dinner_is_settled :
  exists results,
    Binary64.calculate_advanced_split Binary64.left_to_right_sum dinner64
      three_people64 "equal" = Ok results /\
    Forall (fun item => snd item == 0)
      (apply_transfers (Binary64.balances (Binary64.balances_of results))
         (Binary64.transfers
            (Binary64.optimize_payments (Binary64.balances_of results)))).
Proof.
  eexists. split; [reflexivity |].
  apply Forall_forall. intros [n b'] Hin.
  apply (advanced_split_is_settled Binary64.left_to_right_sum dinner64
           three_people64 "equal" _ three_people64_names
           ltac:(discriminate) (or_introl eq_refl) eq_refl dinner64_listed
           dinner64_equal_exact) with (n := n); [| | exact Hin].
  - unfold Binary64.rounds_nowhere.
    replace (Binary64.subtractions _ _) with [(50%float, 40%float)]
      by (vm_compute; reflexivity).
    repeat constructor.
  - intros nm data Hd Habs. simpl in Hd.
    destruct Hd as [E | [E | [E | []]]]; inversion E; subst;
      vm_compute in Habs; exfalso; apply Habs; reflexivity.
Defined.

(** ** Properties of the Analytics page and of the list of people *)

Lemma dict_add64_keys k a d :
  map fst (Binary64.dict_add k a d) =
  if existsb (String.eqb k) (map fst d) then map fst d else map fst d ++ [k].
Proof.
  induction d as [| [k' v'] rest IH]; simpl; [reflexivity |].
  rewrite (String.eqb_sym k k').
  destruct (String.eqb k' k); simpl; [reflexivity |].
  rewrite IH. destruct (existsb (String.eqb k) (map fst rest)); reflexivity.
Qed.

Lemma dict_add64_In k a d k0 v :
  NoDup (map fst d) ->
  In (k0, v) (Binary64.dict_add k a d) ->
  (k0 <> k /\ In (k0, v) d) \/
  (k0 = k /\ exists v0, In (k, v0) d /\ v = (v0 + a)%float) \/
  (k0 = k /\ ~ In k (map fst d) /\ v = (0 + a)%float).
Proof.
  induction d as [| [k' v'] rest IH]; intros Hnd Hin; simpl in Hin.
  - destruct Hin as [E | []]. injection E as <- <-.
    right. right. simpl. tauto.
  - inversion Hnd as [| ? ? Hk' Hrest]; subst.
    destruct (String.eqb k' k) eqn:E.
    + apply String.eqb_eq in E. subst k'.
      destruct Hin as [E | Hin].
      * injection E as <- <-. right. left.
        split; [reflexivity |]. exists v'. split; [left |]; reflexivity.
      * left. split; [| right; exact Hin].
        intros ->. apply Hk'. apply (in_map fst) in Hin. exact Hin.
    + apply String.eqb_neq in E.
      destruct Hin as [E' | Hin].
      * injection E' as <- <-. left. split; [exact E | left; reflexivity].
      * destruct (IH Hrest Hin) as [[Hne H] | [[-> (v0 & H & Hv)] | (-> & Hn & Hv)]].
        -- left. split; [exact Hne | right; exact H].
        -- right. left. split; [reflexivity |]. exists v0.
           split; [right; exact H | exact Hv].
        -- right. right. split; [reflexivity |]. split; [| exact Hv].
           simpl. intros [H | H]; [congruence | contradiction].
Qed.

Lemma amounts_paid_by_cons nm e rest :
  Binary64.amounts_paid_by nm (e :: rest) =
  if String.eqb (Binary64.payer e) nm
  then Binary64.expense_amount e :: Binary64.amounts_paid_by nm rest
  else Binary64.amounts_paid_by nm rest.
Proof.
  unfold Binary64.amounts_paid_by. simpl.
  destruct (String.eqb (Binary64.payer e) nm); reflexivity.
Qed.

(** The loop of [payer_totals] from a dict [d]: every entry is the entry
    of [d], or [0.0], with the amounts of the payer added one by one. *)
Lemma payer_totals64_from (expenses : list Binary64.expense) : forall d,
  NoDup (map fst d) ->
  let d' := fold_left (fun d e => Binary64.dict_add (Binary64.payer e)
                                    (Binary64.expense_amount e) d)
              expenses d in
  NoDup (map fst d') /\
  (forall k, In k (map fst d') <->
             In k (map fst d) \/
             exists e, In e expenses /\ Binary64.payer e = k) /\
  (forall k v, In (k, v) d' ->
     (exists v0, In (k, v0) d /\
        v = fold_left PrimFloat.add (Binary64.amounts_paid_by k expenses) v0) \/
     (~ In k (map fst d) /\
        v = fold_left PrimFloat.add (Binary64.amounts_paid_by k expenses)
              0%float)).
Proof.
  induction expenses as [| e rest IH]; intros d Hnd; cbn zeta.
  - simpl. split; [exact Hnd | split].
    + intros k. split; [intros H; left; exact H | intros [H | [e [[] _]]]; exact H].
    + intros k v H. left. exists v. split; [exact H | reflexivity].
  - cbn [fold_left].
    assert (Hnd' : NoDup (map fst (Binary64.dict_add (Binary64.payer e)
                                     (Binary64.expense_amount e) d))).
    { rewrite dict_add64_keys.
      destruct (existsb (String.eqb (Binary64.payer e)) (map fst d)) eqn:E;
        [exact Hnd |].
      apply NoDup_app; [exact Hnd | repeat constructor; simpl; tauto |].
      intros x Hx [<- | []]. apply existsb_eqb_In in Hx. congruence. }
    destruct (IH _ Hnd') as (H1 & H2 & H3). cbn zeta in *.
    split; [exact H1 | split].
    + intros k. rewrite H2, dict_add64_keys.
      destruct (existsb (String.eqb (Binary64.payer e)) (map fst d)) eqn:E.
      * apply existsb_eqb_In in E. split.
        -- intros [H | [e0 [He0 Hp]]]; [left; exact H |].
           right. exists e0. split; [right; exact He0 | exact Hp].
        -- intros [H | [e0 [[<- | He0] Hp]]];
             [left; exact H | left; rewrite <- Hp; exact E |].
           right. exists e0. split; assumption.
      * split.
        -- intros [H | [e0 [He0 Hp]]].
           ++ apply in_app_or in H. destruct H as [H | [<- | []]];
                [left; exact H |].
              right. exists e. split; [left; reflexivity | reflexivity].
           ++ right. exists e0. split; [right; exact He0 | exact Hp].
        -- intros [H | [e0 [[<- | He0] Hp]]].
           ++ left. apply in_or_app. left. exact H.
           ++ left. apply in_or_app. right. left. exact Hp.
           ++ right. exists e0. split; assumption.
    + intros k v Hin. rewrite amounts_paid_by_cons.
      destruct (H3 k v Hin) as [(v1 & Hv1 & Hv) | (Hn & Hv)].
      * destruct (dict_add64_In _ _ _ _ _ Hnd Hv1)
          as [[Hne H] | [[-> (v0 & H & E)] | (-> & Hn & E)]].
        -- assert (Hb : String.eqb (Binary64.payer e) k = false)
             by (apply String.eqb_neq; congruence).
           rewrite Hb. left. exists v1. split; assumption.
        -- rewrite String.eqb_refl. left. exists v0. split; [exact H |].
           simpl. rewrite <- E. exact Hv.
        -- rewrite String.eqb_refl. right. split; [exact Hn |].
           simpl. rewrite <- E. exact Hv.
      * assert (Hb : String.eqb (Binary64.payer e) k = false).
        { apply String.eqb_neq. intros Ek. subst k. apply Hn.
          rewrite dict_add64_keys.
          destruct (existsb (String.eqb (Binary64.payer e)) (map fst d)) eqn:E.
          - apply existsb_eqb_In. exact E.
          - apply in_or_app. right. left. reflexivity. }
        rewrite Hb. right. split; [| exact Hv].
        intros H. apply Hn. rewrite dict_add64_keys.
        destruct (existsb (String.eqb (Binary64.payer e)) (map fst d));
          [exact H | apply in_or_app; left; exact H].
Qed.

(** "Who Paid What": [payer_totals] has one entry per payer, and the entry
    of a payer is the float that adding the payer's amounts one by one
    gives, which is what [calculate_advanced_split] counts as paid by that
    name when [sum] adds from left to right. *)
Theorem payer_totals_agree_with_paid (expenses : list Binary64.expense) :
  NoDup (map fst (Binary64.payer_totals expenses)) /\
  (forall k, In k (map fst (Binary64.payer_totals expenses)) <->
             exists e, In e expenses /\ Binary64.payer e = k) /\
  (forall k v, In (k, v) (Binary64.payer_totals expenses) ->
     v = Binary64.paid_for Binary64.left_to_right_sum k expenses).
Proof.
  destruct (payer_totals64_from expenses [] (NoDup_nil _)) as (H1 & H2 & H3).
  cbn zeta in *. fold (Binary64.payer_totals expenses) in *.
  split; [exact H1 | split].
  - intros k. rewrite H2. simpl. tauto.
  - intros k v Hin. destruct (H3 k v Hin) as [(v0 & [] & _) | (_ & Hv)].
    exact Hv.
Qed.

(** "Top Expenses": at most five expenses are shown, the five largest: they
    are in the order of decreasing amounts, and no expense left out is
    larger than one that is shown. *)
Theorem top_expenses_are_the_largest (expenses : list expense) :
  length (top_expenses expenses) = Nat.min 5 (length expenses) /\
  StronglySorted (fun a b => expense_amount b <= expense_amount a)
    (top_expenses expenses) /\
  exists omitted,
    Permutation expenses (top_expenses expenses ++ omitted) /\
    forall shown left_out,
      In shown (top_expenses expenses) -> In left_out omitted ->
      expense_amount left_out <= expense_amount shown.
Proof.
  unfold top_expenses.
  pose proof (sorted_expenses_sorted expenses) as Hs.
  pose proof (sorted_expenses_permutation expenses) as Hp.
  rewrite <- (firstn_skipn 5 (sorted_expenses expenses)) in Hs.
  apply StronglySorted_app_cross in Hs. destruct Hs as [Hs1 Hcross].
  split; [| split; [exact Hs1 |]].
  - rewrite length_firstn. rewrite (Permutation_length Hp). reflexivity.
  - exists (skipn 5 (sorted_expenses expenses)). split.
    + rewrite firstn_skipn. apply Permutation_sym. exact Hp.
    + intros shown left_out H1 H2. apply (Hcross shown left_out H1 H2).
Qed.

Lemma StronglySorted_snoc {A : Type} (R : A -> A -> Prop) (l : list A) (a : A) :
  StronglySorted R l -> (forall x, In x l -> R x a) ->
  StronglySorted R (l ++ [a]).
Proof.
  induction 1 as [| h t Ht IH Hh]; intros Ha; simpl.
  - repeat constructor.
  - constructor.
    + apply IH. intros x Hx. apply Ha. right. exact Hx.
    + apply Forall_forall. intros x Hx. apply in_app_or in Hx.
      destruct Hx as [Hx | [<- | []]].
      * rewrite Forall_forall in Hh. apply Hh. exact Hx.
      * apply Ha. left. reflexivity.
Qed.

Lemma StronglySorted_rev_lt (l : list nat) :
  StronglySorted lt l -> StronglySorted gt (rev l).
Proof.
  induction 1 as [| h t Ht IH Hh]; simpl; [constructor |].
  apply StronglySorted_snoc; [exact IH |].
  intros x Hx. apply in_rev in Hx. rewrite Forall_forall in Hh.
  unfold gt. apply Hh. exact Hx.
Qed.

Lemma pop_each_descending {A : Type} (indices : list nat) : forall l : list A,
  StronglySorted gt indices ->
  Forall (fun i => (i < length l)%nat) indices ->
  exists l', pop_each indices l = Some l'.
Proof.
  induction indices as [| i rest IH]; intros l Hs Hr; simpl; [eauto |].
  inversion Hr as [| ? ? Hi Hrest]; subst.
  apply StronglySorted_inv in Hs. destruct Hs as [Hs Hgt].
  destruct (pop_in_range i l Hi) as [l' Hl']. rewrite Hl'.
  apply IH; [exact Hs |].
  assert (Hlen : length l = S (length l')).
  { clear - Hl'. revert l l' Hl'.
    induction i as [| i IHi]; intros [| a l] l' H; simpl in H;
      try discriminate.
    - inversion H. reflexivity.
    - destruct (pop i l) as [r |] eqn:E; [| discriminate].
      inversion H; subst. simpl. rewrite (IHi _ _ E). reflexivity. }
  rewrite Forall_forall in Hgt. apply Forall_forall. intros j Hj.
  specialize (Hgt j Hj). unfold gt in Hgt. lia.
Qed.

Lemma pop_each_names (indices : list nat) : forall people people',
  pop_each indices people = Some people' ->
  length people = (length indices + length people')%nat /\
  (forall p, In p people' -> In p people) /\
  (NoDup (map person_name people) -> NoDup (map person_name people')).
Proof.
  induction indices as [| i rest IH]; intros people people' H; simpl in H.
  - inversion H; subst. repeat split; auto.
  - destruct (pop i people) as [l1 |] eqn:E; [| discriminate].
    destruct (pop_names i _ _ E) as (Hl & Hsub & Hnd).
    destruct (IH _ _ H) as (Hl' & Hsub' & Hnd').
    repeat split.
    + simpl. lia.
    + intros p Hp. apply Hsub. apply Hsub'. exact Hp.
    + intros H0. apply Hnd'. apply Hnd. exact H0.
Qed.

(** The list of people keeps distinct, non-empty names: "Add Person" adds
    nothing for an empty name or a name already there, and the removal loop
    returns for the increasing indices it is given and only takes people
    away. *)
Theorem people_keep_distinct_names :
  (forall new_person_name split_method people,
     NoDup (map person_name people) ->
     Forall (fun p => person_name p <> EmptyString) people ->
     NoDup (map person_name (add_person new_person_name split_method people)) /\
     Forall (fun p => person_name p <> EmptyString)
       (add_person new_person_name split_method people)) /\
  (forall people_to_remove people,
     StronglySorted lt people_to_remove ->
     Forall (fun i => (i < length people)%nat) people_to_remove ->
     exists people',
       remove_people people_to_remove people = Some people' /\
       length people = (length people_to_remove + length people')%nat /\
       (forall p, In p people' -> In p people) /\
       (NoDup (map person_name people) -> NoDup (map person_name people'))).
Proof.
  split.
  - intros nm m people Hnd Hne. unfold add_person.
    destruct (String.eqb nm EmptyString) eqn:E1; simpl; [split; assumption |].
    destruct (existsb (String.eqb nm) (map person_name people)) eqn:E2; simpl;
      [split; assumption |].
    split.
    + rewrite map_app. simpl. apply NoDup_app; [exact Hnd | | ].
      * repeat constructor. simpl. tauto.
      * intros x Hx [<- | []]. apply existsb_eqb_In in Hx. congruence.
    + apply Forall_app. split; [exact Hne |].
      constructor; [| constructor]. simpl.
      apply String.eqb_neq. exact E1.
  - intros idxs people Hs Hr. unfold remove_people.
    destruct (pop_each_descending (rev idxs) people) as [people' Hp].
    + apply StronglySorted_rev_lt. exact Hs.
    + apply Forall_forall. intros i Hi. apply in_rev in Hi.
      rewrite Forall_forall in Hr. apply Hr. exact Hi.
    + exists people'. split; [exact Hp |].
      destruct (pop_each_names _ _ _ Hp) as (Hl & Hsub & Hnd).
      rewrite length_rev in Hl. repeat split; assumption.
Qed.

End Splitter.
